(** * menpofit.sdm.fitter: the training orchestrator of SupervisedDescentFitter

    A shallow embedding of [SupervisedDescentFitter._train], its constructor,
    [increment] and [perturb_from_bounding_box] (src/menpofit/sdm/fitter.py),
    the properties of the orchestration that the specification states, and
    further properties that the code shows.

    What is given and what is taken as a collaborator.  The orchestrator is
    embedded statement by statement.  The functions it imports from menpo and
    from the rest of menpofit ([compute_reference_shape],
    [rescale_images_to_reference_shape], [compute_features], [scale_images],
    [align_shape_with_bounding_box], [Scale], fnmatch inside
    [keys_matching], and the [train] / [increment] methods of the per-scale
    algorithm objects) are fields of the class [Collaborators]: every theorem
    holds for all of them.  Collaborators are total; the failures modelled are
    the orchestrator's own look-ups ([image_batch[0]], [landmarks[key]],
    [group_labels[0]], list indexing).

    Objects.  Images and shapes are Python objects that the orchestrator
    mutates ([i.landmarks[key] = v], [transform.apply_inplace(shape)]), so
    both live in a store and are handled through references; a batch is a
    list of references and [current_shapes] a list of lists of references.

    Stages.  The algorithm objects are not part of the sources at hand.
    Where a property needs more of them than the calls made on them, what
    the specification says of them is taken as a named assumption, and
    [Recording] has stages that remember the examples they were trained on.

    [verbose] and the progress printing it switches on are left out: they
    print and do nothing else. *)

From stdpp Require Import base list list_numbers sets strings pretty.
From Stdlib Require Import Ascii QArith.
Local Open Scope Z_scope.

(** ** Landmark managers: the dictionary [image.landmarks] *)

Module Landmarks.
Section WithShape.
Context {Shape : Type}.

(** An insertion-ordered dictionary from group label to shape. *)
Definition t := list (string * Shape).

(** [landmarks[key]]; [None] stands for KeyError. *)
Fixpoint get (key : string) (lms : t) : option Shape :=
  match lms with
  | [] => None
  | (k, v) :: rest => if decide (k = key) then Some v else get key rest
  end.

(** [landmarks[key] = v]: replaces the value of an existing key in place,
    appends a new key at the end. *)
Fixpoint set (key : string) (v : Shape) (lms : t) : t :=
  match lms with
  | [] => [(key, v)]
  | (k, w) :: rest =>
      if decide (k = key) then (k, v) :: rest else (k, w) :: set key v rest
  end.

(** [landmarks.group_labels] *)
Definition group_labels (lms : t) : list string := lms.*1.

(** [landmarks.keys_matching(pattern)], over a matcher
    [fnmatch key pattern]. *)
Definition keys_matching (fnmatch : string → string → bool)
    (pattern : string) (lms : t) : list string :=
  filter (λ k, fnmatch k pattern = true) (group_labels lms).
End WithShape.
Arguments t : clear implicits.
End Landmarks.

(** An image: its pixel data and its landmark manager. *)
Record Image (Pixels Shape : Type) := mkImage {
  pixels : Pixels;
  landmarks : Landmarks.t Shape;
}.
Arguments mkImage {Pixels Shape}.
Arguments pixels {Pixels Shape}.
Arguments landmarks {Pixels Shape}.

(** References into the object stores. *)
Abbreviation ref := nat.

(** ** Collaborators *)

Class Collaborators := {
  Shape : Type;          (* a menpo PointCloud, by value *)
  Pixels : Type;
  num : Type;            (* the numbers held in [scales] and [diagonal] *)
  Feature : Type;        (* holistic feature callables, compared with [is] *)
  Feature_eq_dec :: EqDecision Feature;
  StageArgs : Type;      (* patch_features[j], patch_shape[j], n_iterations[j] *)
  Alg : Type;            (* the state of one algorithm object *)
  Rng : Type;            (* what a perturbation strategy draws its noise from *)
  (* fnmatch.fnmatch(key, pattern), as used by keys_matching *)
  fnmatch : string → string → bool;
  (* PointCloud.bounding_box() *)
  bounding_box : Shape → Shape;
  (* compute_reference_shape(shapes, diagonal) *)
  compute_reference_shape : list Shape → option num → Shape;
  (* rescale_images_to_reference_shape(images, group, reference_shape),
     on the image store: the new store and the images it returns *)
  rescale_images_to_reference_shape :
    list (Image Pixels Shape) → list ref → string → Shape →
    list (Image Pixels Shape) * list ref;
  (* compute_features(images, features) *)
  compute_features : list (Image Pixels Shape) → Feature → list (Image Pixels Shape);
  (* scale_images(images, scale) *)
  scale_images : list (Image Pixels Shape) → num → list (Image Pixels Shape);
  (* align_shape_with_bounding_box(shape, bounding_box) *)
  align_shape_with_bounding_box : Shape → Shape → Shape;
  (* x != 1 is [negb (num_is_one x)]; x / y *)
  num_is_one : num → bool;
  num_div : num → num → num;
  (* Scale(ratio, n_dims=2) applied to the points of a shape *)
  Scale : num → Shape → Shape;
  (* sd_algorithm_cls(features=, patch_shape=, n_iterations=) *)
  sd_algorithm_cls : StageArgs → Alg;
  (* algorithm.train(images, gt_shapes, current_shapes), on the shape store:
     the algorithm's new state, the new store, the estimates it returns *)
  alg_train :
    Alg → list Shape → list (Image Pixels Shape) → list Shape → list (list ref) →
    Alg * list Shape * list (list ref);
  (* algorithm.increment(images, gt_shapes, current_shapes), likewise *)
  alg_increment :
    Alg → list Shape → list (Image Pixels Shape) → list Shape → list (list ref) →
    Alg * list Shape * list (list ref);
}.

Abbreviation image := (Image Pixels Shape).

Section Fitter.
Context `{C : Collaborators}.

(** ** The fitter object *)

(** Attributes assigned by [__init__] and read, never assigned, by [_train]. *)
Record Config := mkConfig {
  features : list Feature;      (* self.features (holistic), one per scale *)
  diagonal : option num;        (* self.diagonal *)
  scales : list num;            (* self.scales *)
  (* self._perturb_from_bounding_box(shape, bounding_box) *)
  _perturb_from_bounding_box : Shape → Shape → Rng → Shape * Rng;
}.

(** [MultiFitter.n_scales], a property of the base class:
    the number of entries of [self.scales]. *)
Definition n_scales (cfg : Config) : nat := length (scales cfg).

(** The attributes [_train] assigns, and the stores of the objects it
    mutates. *)
Record State := mkState {
  reference_shape : option Shape;     (* self.reference_shape *)
  n_perturbations : Z;                (* self.n_perturbations *)
  algorithms : list Alg;              (* self.algorithms *)
  image_store : list image;
  shape_store : list Shape;
  rng : Rng;
}.

Definition set_reference_shape (s : Shape) (st : State) : State :=
  mkState (Some s) (n_perturbations st) (algorithms st)
          (image_store st) (shape_store st) (rng st).
Definition set_n_perturbations (n : Z) (st : State) : State :=
  mkState (reference_shape st) n (algorithms st)
          (image_store st) (shape_store st) (rng st).
Definition set_algorithms (a : list Alg) (st : State) : State :=
  mkState (reference_shape st) (n_perturbations st) a
          (image_store st) (shape_store st) (rng st).
Definition set_image_store (h : list image) (st : State) : State :=
  mkState (reference_shape st) (n_perturbations st) (algorithms st)
          h (shape_store st) (rng st).
Definition set_shape_store (h : list Shape) (st : State) : State :=
  mkState (reference_shape st) (n_perturbations st) (algorithms st)
          (image_store st) h (rng st).
Definition set_rng (g : Rng) (st : State) : State :=
  mkState (reference_shape st) (n_perturbations st) (algorithms st)
          (image_store st) (shape_store st) g.

(** ** What a run does, as a trace

    A run leaves the list of the calls it made, each with the state it was
    made in. *)

Inductive warning :=
  | RefShapeWarning                      (* 'No reference shape was provided...' *)
  | NPerturbWarning (old new : Z).       (* 'The original value of n_perturbation...' *)

Inductive method := Train | Increment.

Inductive event :=
  | EWarn (w : warning)
  (* compute_reference_shape(shapes, self.diagonal) *)
  | ERefShape (shapes : list Shape)
  (* rescale_images_to_reference_shape(batch, ...) *)
  | ERescale (batch result : list ref)
  (* i.landmarks.keys_matching(pattern), and the keys it gave *)
  | EKeysMatching (i : ref) (pattern : string) (keys : list string)
  (* i.landmarks[key] = v *)
  | EAttach (i : ref) (key : string) (v : Shape)
  (* p_s = self._perturb_from_bounding_box(gt_s, bb), made for image i *)
  | EPerturb (i : ref) (gt_s bb p_s : Shape)
  (* compute_features(image_batch, self.features[j]) *)
  | EFeatures (j : nat)
  (* scale_images(feature_images, self.scales[j]) *)
  | EScaleImages (j : nat)
  (* self.algorithms[j].train / .increment (images, gt_shapes, current_shapes),
     with the shape store before and after the call and what it returned *)
  | EStage (m : method) (j : nat) (images : list image)
           (store_in : list Shape) (current_in : list (list ref))
           (store_out : list Shape) (current_out : list (list ref))
  (* transform.apply_inplace(shape), transform = Scale(ratio, n_dims=2) *)
  | EApplyInplace (ratio : num) (shape : ref).

(** ** The orchestration monad: state, exceptions, trace *)

Inductive exn :=
  | IndexError
  | KeyError
  | TypeError         (* None where a shape is needed *)
  | DanglingRef.      (* a reference outside its store: no Python counterpart *)

Definition trace : Type := list (State * event).

Inductive result (A : Type) :=
  | Ok (a : A) (st : State) (tr : trace)
  | Raise (e : exn).
Arguments Ok {A}.
Arguments Raise {A}.

Definition M (A : Type) : Type := State → result A.

(** No exception was raised. *)
Definition succeeded {A} (r : result A) : bool :=
  match r with Ok _ _ _ => true | Raise _ => false end.

Definition ret {A} (a : A) : M A := λ st, Ok a st [].
Definition bind {A B} (m : M A) (f : A → M B) : M B := λ st,
  match m st with
  | Raise e => Raise e
  | Ok a st1 tr1 =>
      match f a st1 with
      | Raise e => Raise e
      | Ok b st2 tr2 => Ok b st2 (tr1 ++ tr2)
      end
  end.

Notation "x <- m ;; k" := (bind m (λ x, k))
  (at level 100, m at next level, right associativity, only parsing).

Definition raise {A} (e : exn) : M A := λ _, Raise e.
Definition get : M State := λ st, Ok st st [].
Definition modify (f : State → State) : M unit := λ st, Ok tt (f st) [].
Definition emit (e : event) : M unit := λ st, Ok tt st [(st, e)].
Definition lift {A} (e : exn) (o : option A) : M A :=
  match o with Some a => ret a | None => raise e end.

(** [for x in l: body(x)] *)
Fixpoint for_each {A} (l : list A) (body : A → M unit) : M unit :=
  match l with
  | [] => ret tt
  | x :: rest => _ <- body x;; for_each rest body
  end.

(** [[f(x) for x in l]] *)
Fixpoint for_list {A B} (l : list A) (f : A → M B) : M (list B) :=
  match l with
  | [] => ret []
  | x :: rest => y <- f x;; ys <- for_list rest f;; ret (y :: ys)
  end.

(** A loop that threads local variables through its iterations. *)
Fixpoint for_fold {A V} (l : list A) (body : A → V → M V) (v : V) : M V :=
  match l with
  | [] => ret v
  | x :: rest => v1 <- body x v;; for_fold rest body v1
  end.

(** ** Object access *)

(** The image object behind a reference. *)
Definition deref (i : ref) : M image :=
  st <- get;; lift DanglingRef (image_store st !! i).

(** [i.landmarks[key].lms] *)
Definition read_landmark (i : ref) (key : string) : M Shape :=
  img <- deref i;; lift KeyError (Landmarks.get key (landmarks img)).

(** [i.landmarks[key] = v] *)
Definition attach (i : ref) (key : string) (v : Shape) : M unit :=
  img <- deref i;;
  _ <- emit (EAttach i key v);;
  modify (λ st, set_image_store
    (<[i := mkImage (pixels img) (Landmarks.set key v (landmarks img))]>
       (image_store st)) st).

(** [list(i.landmarks.keys_matching('*{}*'.format(bb_group)))] *)
Definition keys_matching (i : ref) (bb_group : string) : M (list string) :=
  img <- deref i;;
  let pattern := "*" +:+ bb_group +:+ "*" in
  let keys := Landmarks.keys_matching fnmatch pattern (landmarks img) in
  _ <- emit (EKeysMatching i pattern keys);;
  ret keys.

(** [warnings.warn(..., MenpoFitBuilderWarning)] *)
Definition warn (w : warning) : M unit := emit (EWarn w).

(** A new shape object holding [s]. *)
Definition new_shape (s : Shape) : M ref :=
  st <- get;;
  _ <- modify (set_shape_store (shape_store st ++ [s]));;
  ret (length (shape_store st)).

(** [transform.apply_inplace(shape)] for [transform = Scale(ratio, n_dims=2)] *)
Definition apply_inplace (ratio : num) (r : ref) : M unit :=
  st <- get;;
  s <- lift DanglingRef (shape_store st !! r);;
  _ <- emit (EApplyInplace ratio r);;
  modify (set_shape_store (<[r := Scale ratio s]> (shape_store st))).

(** ** [SupervisedDescentFitter._train] *)

(** Lines 199-207, the perturbations at the very bottom level: for every
    scaled image, the reference shape aligned with each of its bounding
    boxes, as new shape objects. *)
Definition aligned_shape (i : image) (perturb_bbox_group : string) : M ref :=
  bbox <- lift KeyError (Landmarks.get perturb_bbox_group (landmarks i));;
  st <- get;;
  rs <- lift TypeError (reference_shape st);;
  new_shape (align_shape_with_bounding_box rs bbox).

Definition extract_perturbations (all_bb_keys : list string)
    (scaled_images : list image) : M (list (list ref)) :=
  for_list scaled_images (λ i, for_list all_bb_keys (aligned_shape i)).

(** The body of [for j in range(self.n_scales)].  The loop's local variables
    are [feature_images] and [current_shapes]. *)
Definition scale_step (cfg : Config) (image_batch : list ref) (group : string)
    (all_bb_keys : list string) (increment : bool) (j : nat)
    (locals : list image * list (list ref)) : M (list image * list (list ref)) :=
  let '(feature_images, current_shapes) := locals in
  (* Handle features *)
  recompute <-
    (if decide (j = 0%nat) then ret true
     else
       f_j <- lift IndexError (features cfg !! j);;
       f_prev <- lift IndexError (features cfg !! (j - 1)%nat);;
       ret (bool_decide (f_j ≠ f_prev)));;
  feature_images <-
    (if recompute : bool then
       f_j <- lift IndexError (features cfg !! j);;
       imgs <- for_list image_batch deref;;
       _ <- emit (EFeatures j);;
       ret (compute_features imgs f_j)
     else ret feature_images);;
  (* handle scales *)
  s_j <- lift IndexError (scales cfg !! j);;
  scaled_images <-
    (if negb (num_is_one s_j) then
       _ <- emit (EScaleImages j);;
       ret (scale_images feature_images s_j)
     else ret feature_images);;
  (* Extract scaled ground truth shapes for current scale *)
  scaled_shapes <-
    for_list scaled_images
      (λ i, lift KeyError (Landmarks.get group (landmarks i)));;
  (* Extract perturbations at the very bottom level *)
  current_shapes <-
    (if decide (j = 0%nat) then
       new <- extract_perturbations all_bb_keys scaled_images;;
       ret (current_shapes ++ new)
     else ret current_shapes);;
  (* train supervised descent algorithm *)
  st <- get;;
  alg <- lift IndexError (algorithms st !! j);;
  let '(alg', store', current_shapes') :=
    (if increment then alg_increment else alg_train)
      alg (shape_store st) scaled_images scaled_shapes current_shapes in
  _ <- emit (EStage (if increment then Increment else Train) j scaled_images
                   (shape_store st) current_shapes store' current_shapes');;
  _ <- modify (λ st, set_shape_store store'
                      (set_algorithms (<[j := alg']> (algorithms st)) st));;
  (* Scale current shapes to next resolution, don't bother scaling final
     level *)
  _ <- (if decide (Z.of_nat j ≠ Z.of_nat (n_scales cfg) - 1) then
         s_next <- lift IndexError (scales cfg !! (j + 1)%nat);;
         s_j <- lift IndexError (scales cfg !! j);;
         let ratio := num_div s_next s_j in
         for_each current_shapes' (λ image_shapes,
           for_each image_shapes (apply_inplace ratio))
       else ret tt);;
  ret (feature_images, current_shapes').

(** Lines 141-147, the body of [for j in range(1, self.n_perturbations)]:
    one new bounding box of image [i]. *)
Definition perturb_once (cfg : Config) (group bb_group : string)
    (all_bb_keys : list string) (i : ref) (j : Z) : M unit :=
  gt <- read_landmark i group;;
  let gt_s := bounding_box gt in
  key0 <- lift IndexError (head all_bb_keys);;
  bb <- read_landmark i key0;;
  (* This is customizable by passing in the correct method *)
  st <- get;;
  let '(p_s, g) := _perturb_from_bounding_box cfg gt_s bb (rng st) in
  _ <- emit (EPerturb i gt_s bb p_s);;
  _ <- modify (set_rng g);;
  attach i (bb_group +:+ "_" +:+ pretty j) p_s.

(** The perturbations of one image, when there is one example bounding box:
    the body of [for i in wrap(image_batch)]. *)
Definition perturb_image (cfg : Config) (group bb_group : string)
    (all_bb_keys : list string) (i : ref) : M unit :=
  st <- get;;
  for_each (seqZ 1 (n_perturbations st - 1))
    (perturb_once cfg group bb_group all_bb_keys i).

(** Lines 117-119, the body of [for i in image_batch]: the ground truth
    box of image [i]. *)
Definition attach_gt_box (group : string) (i : ref) : M unit :=
  gt_s <- read_landmark i group;;
  attach i ("__gt_bb_" +:+ "0") (bounding_box gt_s).

(** Lines 110-154: the bounding boxes of a rescaled batch.  Returns
    [bb_group]. *)
Definition resolve_bounding_boxes (cfg : Config) (group : string)
    (bounding_box_group : option string) (image_batch : list ref) : M string :=
  (* No bounding box is given, so we will use the ground truth box *)
  bb_group <-
    match bounding_box_group with
    | None =>
        _ <- for_each image_batch (attach_gt_box group);;
        ret "__gt_bb_"
    | Some g => ret g
    end;;
  (* Find all bounding boxes on the images with the given bounding box key *)
  i0 <- lift IndexError (head image_batch);;
  all_bb_keys <- keys_matching i0 bb_group;;
  let n := Z.of_nat (length all_bb_keys) in
  st <- get;;
  _ <- (if decide (n = 1) then
         for_each image_batch (perturb_image cfg group bb_group all_bb_keys)
       else if decide (n ≠ n_perturbations st) then
         _ <- warn (NPerturbWarning (n_perturbations st) n);;
         modify (set_n_perturbations n)
       else ret tt);;
  ret bb_group.

(** The body of [for k, image_batch in enumerate(image_batches)], after the
    update of [increment].  Returns [group], which the loop keeps from one
    batch to the next. *)
Definition train_batch (cfg : Config) (bounding_box_group : option string)
    (batch_size : option nat) (image_batch : list ref)
    (group : option string) (increment : bool) : M string :=
  group <-
    match group with
    | Some g => ret g
    | None =>
        i0 <- lift IndexError (head image_batch);;
        img0 <- deref i0;;
        lift IndexError (head (Landmarks.group_labels (landmarks img0)))
    end;;
  st <- get;;
  _ <- match reference_shape st with
      | None =>
          (* If no reference shape was given, use the mean of the first
             batch *)
          _ <- (if batch_size is Some _ then warn RefShapeWarning else ret tt);;
          shapes <- for_list image_batch (λ i, read_landmark i group);;
          _ <- emit (ERefShape shapes);;
          modify (set_reference_shape
                    (compute_reference_shape shapes (diagonal cfg)))
      | Some _ => ret tt
      end;;
  (* Rescale to existing reference shape *)
  st <- get;;
  rs <- lift TypeError (reference_shape st);;
  let '(store', rescaled) :=
    rescale_images_to_reference_shape (image_store st) image_batch group rs in
  _ <- emit (ERescale image_batch rescaled);;
  _ <- modify (set_image_store store');;
  let image_batch := rescaled in
  bb_group <- resolve_bounding_boxes cfg group bounding_box_group image_batch;;
  (* Re-grab all the bounding box keys for iterating over when calculating
     perturbations *)
  i0 <- lift IndexError (head image_batch);;
  all_bb_keys <- keys_matching i0 bb_group;;
  (* for each scale (low --> high) *)
  _ <- for_fold (seq 0 (n_scales cfg))
        (scale_step cfg image_batch group all_bb_keys increment) ([], []);;
  ret group.

(** [for k, image_batch in enumerate(image_batches)] *)
Fixpoint train_batches (cfg : Config) (bounding_box_group : option string)
    (batch_size : option nat) (k : nat) (image_batches : list (list ref))
    (group : option string) (increment : bool) : M unit :=
  match image_batches with
  | [] => ret tt
  | image_batch :: rest =>
      (* After the first batch, we are incrementing the model *)
      let increment := if decide (0 < k)%nat then true else increment in
      group <- train_batch cfg bounding_box_group batch_size image_batch
                group increment;;
      train_batches cfg bounding_box_group batch_size (S k) rest
        (Some group) increment
  end.

(** Modelled from the spec: [menpofit.base.batch], which is not part of the
    sources at hand.  The spec has the image source "consumed lazily in
    fixed-size chunks": the images are cut into consecutive chunks of [n]
    images, the last chunk holding what is left, and an exhausted source
    gives no further chunk.  The source here is a finite list. *)
Fixpoint batch_fuel {A} (fuel : nat) (iterable : list A) (n : nat) : list (list A) :=
  match fuel with
  | O => []
  | S fuel' =>
      match take n iterable with
      | [] => []
      | chunk => chunk :: batch_fuel fuel' (drop n iterable) n
      end
  end.

Definition batch {A} (iterable : list A) (n : nat) : list (list A) :=
  batch_fuel (length iterable) iterable n.

Definition _train (cfg : Config) (images : list ref) (group : option string)
    (bounding_box_group : option string) (increment : bool)
    (batch_size : option nat) : M unit :=
  let image_batches :=
    match batch_size with
    | Some n => batch images n
    | None => [images]
    end in
  train_batches cfg bounding_box_group batch_size 0 image_batches group increment.

(** [SupervisedDescentFitter.increment] *)
Definition increment (cfg : Config) (images : list ref) (group : option string)
    (bounding_box_group : option string) (batch_size : option nat) : M unit :=
  _train cfg images group bounding_box_group true batch_size.

(** [SupervisedDescentFitter._setup_algorithms]; [stage_args !! j] stands for
    the arguments [patch_features[j]], [patch_shape[j]], [n_iterations[j]]. *)
Definition _setup_algorithms (cfg : Config) (stage_args : list StageArgs) : M unit :=
  for_each (seq 0 (n_scales cfg)) (λ j,
    a <- lift IndexError (stage_args !! j);;
    modify (λ st, set_algorithms (algorithms st ++ [sd_algorithm_cls a]) st)).

(** [SupervisedDescentFitter.__init__], from the checked parameters on. *)
Definition __init__ (cfg : Config) (stage_args : list StageArgs)
    (reference_shape0 : option Shape) (n_perturbations0 : Z)
    (images : list ref) (group : option string)
    (bounding_box_group : option string) (batch_size : option nat) : M unit :=
  _ <- modify (λ st, mkState reference_shape0 n_perturbations0 []
                            (image_store st) (shape_store st) (rng st));;
  _ <- _setup_algorithms cfg stage_args;;
  (* Now, train the model! *)
  _train cfg images group bounding_box_group false batch_size.

(** The life of a fitter: it is constructed on a first set of images, then
    [increment] is called on it any number of times. *)
Record call := mkCall {
  call_images : list ref;
  call_group : option string;
  call_bounding_box_group : option string;
  call_batch_size : option nat;
}.

Definition session (cfg : Config) (stage_args : list StageArgs)
    (reference_shape0 : option Shape) (n_perturbations0 : Z)
    (first : call) (later : list call) : M unit :=
  _ <- __init__ cfg stage_args reference_shape0 n_perturbations0
         (call_images first) (call_group first)
         (call_bounding_box_group first) (call_batch_size first);;
  for_each later (λ c,
    increment cfg (call_images c) (call_group c)
      (call_bounding_box_group c) (call_batch_size c)).

(** [SupervisedDescentFitter.perturb_from_bounding_box] (lines 62-64): the
    perturbation strategy, on the reference shape of the fitter and the
    bounding box.  The strategy works on a shape: on a fitter that has no
    reference shape yet the call passes [None] and fails in the strategy. *)
Definition perturb_from_bounding_box (cfg : Config) (bb : Shape) : M Shape :=
  st <- get;;
  rs <- lift TypeError (reference_shape st);;
  let '(p_s, g) := _perturb_from_bounding_box cfg rs bb (rng st) in
  _ <- modify (set_rng g);;
  ret p_s.

End Fitter.

Arguments Ok {C A}.
Arguments Raise {C A}.

(** ** Vocabulary of the properties *)

Section Vocabulary.
Context `{C : Collaborators}.

(** The events of a trace, without the states they were made in. *)
Definition events (tr : trace) : list event := tr.*2.

(** What [Scale(ratio, n_dims=2).apply_inplace] leaves in the shape store
    after it was called on each of [refs] in turn. *)
Definition scale_in_place (ratio : num) (refs : list ref) (store : list Shape)
    : list Shape :=
  foldl (λ s r, alter (Scale ratio) r s) store refs.

(** The test of line 173: [j == 0 or self.features[j] is not
    self.features[j - 1]]. *)
Definition features_differ (cfg : Config) (j : nat) : bool :=
  bool_decide (j = 0%nat ∨ features cfg !! j ≠ features cfg !! (j - 1)%nat).

(** The kinds of event. *)
Inductive kind :=
  | KWarn | KRefShape | KRescale | KKeysMatching | KAttach | KPerturb
  | KFeatures | KScaleImages | KStage | KApplyInplace.

#[export] Instance kind_eq_dec : EqDecision kind.
Proof. solve_decision. Defined.

Definition kind_of (e : event) : kind :=
  match e with
  | EWarn _ => KWarn
  | ERefShape _ => KRefShape
  | ERescale _ _ => KRescale
  | EKeysMatching _ _ _ => KKeysMatching
  | EAttach _ _ _ => KAttach
  | EPerturb _ _ _ _ => KPerturb
  | EFeatures _ => KFeatures
  | EScaleImages _ => KScaleImages
  | EStage _ _ _ _ _ _ _ => KStage
  | EApplyInplace _ _ => KApplyInplace
  end.

(** The events of one kind. *)
Definition of_kind (k : kind) (evs : list event) : list event :=
  filter (λ e, kind_of e = k) evs.

(** Image [i] of the store has a landmark group [key]. *)
Definition has_key (store : list (Image Pixels Shape)) (i : ref) (key : string) : Prop :=
  ∃ img, store !! i = Some img ∧ is_Some (Landmarks.get key (landmarks img)).

(** No image object disappears and none loses a landmark group. *)
Definition keys_grow (store store' : list (Image Pixels Shape)) : Prop :=
  ∀ i key, has_key store i key → has_key store' i key.

(** What the resolution of the bounding boxes leaves alone: the reference
    shape, the algorithms and the shape store; and no image loses a landmark
    group. *)
Definition boxes_frame (st st' : State) : Prop :=
  reference_shape st' = reference_shape st ∧
  algorithms st' = algorithms st ∧
  shape_store st' = shape_store st ∧
  keys_grow (image_store st) (image_store st').

(** A call of the perturbation strategy, made for image [i] in state [s]:
    its first argument is the bounding box of the ground truth shape of [i],
    its second the bounding box under the first key of [keys], and its result
    is what the strategy gives for them. *)
Definition perturb_call (cfg : Config) (group : string) (keys : list string)
    (s : State) (i : ref) (gt_s bb p_s : Shape) : Prop :=
  ∃ img gt key0,
    image_store s !! i = Some img ∧
    Landmarks.get group (landmarks img) = Some gt ∧
    gt_s = bounding_box gt ∧
    head keys = Some key0 ∧
    Landmarks.get key0 (landmarks img) = Some bb ∧
    p_s = (_perturb_from_bounding_box cfg gt_s bb (rng s)).1.

Definition perturb_calls_ok (cfg : Config) (group : string) (keys : list string)
    (tr : trace) : Prop :=
  ∀ s i gt_s bb p_s,
    (s, EPerturb i gt_s bb p_s) ∈ tr → perturb_call cfg group keys s i gt_s bb p_s.

(** What the perturbations of one image, and of a batch, come to. *)
Definition perturbs_ok (cfg : Config) (group bb_group : string)
    (keys : list string) (st st' : State) (tr : trace) : Prop :=
  boxes_frame st st' ∧
  n_perturbations st' = n_perturbations st ∧
  Forall (λ e, kind_of e ∈ [KPerturb; KAttach]) (events tr) ∧
  perturb_calls_ok cfg group keys tr.

(** The key of the [j]-th generated bounding box:
    ['{}_{}'.format(bb_group, j)]. *)
Definition perturbed_key (bb_group : string) (j : Z) : string :=
  bb_group +:+ "_" +:+ pretty j.

(** The batches of a call: lines 71-76. *)
Definition image_batches (images : list ref) (batch_size : option nat)
    : list (list ref) :=
  match batch_size with
  | Some n => batch images n
  | None => [images]
  end.

(** The calls of [train] and [increment] in a list of events: which method,
    of the algorithm of which scale. *)
Definition stage_calls (evs : list event) : list (method * nat) :=
  omap (λ e, match e with
             | EStage m j _ _ _ _ _ => Some (m, j)
             | _ => None
             end) evs.

(** Method [m] called once on the algorithm of every scale, low to high. *)
Definition every_scale (cfg : Config) (m : method) : list (method * nat) :=
  (λ j, (m, j)) <$> seq 0 (n_scales cfg).

(** [every_scale], for each of [n] batches in turn. *)
Definition every_scale_times (cfg : Config) (m : method) (n : nat)
    : list (method * nat) :=
  concat (replicate n (every_scale cfg m)).

(** The scales at which [compute_features] was called. *)
Definition feature_calls (evs : list event) : list nat :=
  omap (λ e, match e with EFeatures j => Some j | _ => None end) evs.

(** The images handed to the algorithms, call by call. *)
Definition stage_images (evs : list event) : list (list (Image Pixels Shape)) :=
  omap (λ e, match e with
             | EStage _ _ images _ _ _ _ => Some images
             | _ => None
             end) evs.

(** What the calls of the algorithms were given and what they returned: the
    shape store and the estimates before, the shape store and the estimates
    after. *)
Definition stage_io : Type :=
  list Shape * list (list ref) * list Shape * list (list ref).

Definition stage_shapes (evs : list event) : list stage_io :=
  omap (λ e, match e with
             | EStage _ _ _ store_in current_in store_out current_out =>
                 Some (store_in, current_in, store_out, current_out)
             | _ => None
             end) evs.

(** The calls of [apply_inplace]: the ratio of the transform and the shape. *)
Definition apply_calls (evs : list event) : list (num * ref) :=
  omap (λ e, match e with EApplyInplace r x => Some (r, x) | _ => None end) evs.

(** The calls of [apply_inplace] that follow the algorithms of the scales
    from [j] on: after every scale that has a next one, one call for every
    estimate the algorithm returned, with the ratio of the two scales. *)
Fixpoint applies_after (cfg : Config) (j : nat) (ios : list stage_io)
    : list (num * ref) :=
  match ios with
  | [] => []
  | (_, _, _, current_out) :: rest =>
      match scales cfg !! j, scales cfg !! S j with
      | Some s, Some s_next => (λ x, (num_div s_next s, x)) <$> concat current_out
      | _, _ => []
      end ++ applies_after cfg (S j) rest
  end.

(** Modelled from the spec: the return contract of [train] and [increment]
    of the algorithm objects (menpofit.sdm.algorithm, not part of the sources
    at hand).  The spec has the methods replace the estimates they are given
    "with the cascade-corrected estimates at that scale, same shape/count":
    as many images, and for every image as many estimates as before. *)
Definition stage_keeps_counts : Prop :=
  ∀ (increment : bool) alg store images gts current,
    Forall2 (λ l l' : list ref, length l = length l') current
      ((if increment then alg_increment else alg_train)
         alg store images gts current).2.

(** Every image has [n] estimates. *)
Definition each_has {A} (n : nat) (current : list (list A)) : Prop :=
  Forall (λ l, length l = n) current.

(** The results of the calls of [keys_matching]. *)
Definition keys_calls (evs : list event) : list (list string) :=
  omap (λ e, match e with EKeysMatching _ _ keys => Some keys | _ => None end) evs.

(** The warnings. *)
Definition warnings (evs : list event) : list warning :=
  omap (λ e, match e with EWarn w => Some w | _ => None end) evs.

(** The kinds of the events of a batch before its scale loop, and in it. *)
Definition before_loop : list kind :=
  [KWarn; KRefShape; KRescale; KAttach; KKeysMatching; KPerturb].
Definition in_loop : list kind :=
  [KFeatures; KScaleImages; KStage; KApplyInplace].

(** The warning of lines 148-154, when [n] bounding boxes were found and
    [np] were configured. *)
Definition reconcile_warning (np n : Z) : list warning :=
  if decide (n = 1) then []
  else if decide (n ≠ np) then [NPerturbWarning np n] else [].

(** The warning of lines 95-100. *)
Definition reference_warning (rs : option Shape) (batch_size : option nat)
    : list warning :=
  match rs, batch_size with
  | None, Some _ => [RefShapeWarning]
  | _, _ => []
  end.

(** [bb_group], as lines 111-121 set it. *)
Definition resolved_bb_group (bounding_box_group : option string) : string :=
  default "__gt_bb_" bounding_box_group.

(** Lines 182-188: the images handed to the stage of a scale. *)
Definition level_images (s : num) (feature_images : list (Image Pixels Shape))
    : list (Image Pixels Shape) :=
  if negb (num_is_one s) then scale_images feature_images s else feature_images.

(** *** One pass of the scale loop

    What the pass at scale [j] made of its inputs: the feature images it
    worked on, the shape store and the estimates handed to the algorithm,
    what the algorithm returned, and the shape store left to the next
    pass. *)
Record pass := mkPass {
  p_scale : num;                            (* self.scales[j] *)
  p_feature_images : list (Image Pixels Shape);
  p_store_in : list Shape;
  p_current_in : list (list ref);
  p_store_out : list Shape;
  p_current_out : list (list ref);
  p_store_next : list Shape;
}.

Definition p_images (p : pass) : list (Image Pixels Shape) :=
  level_images (p_scale p) (p_feature_images p).

Definition method_of (increment : bool) : method :=
  if increment then Increment else Train.

(** The events of the pass at scale [j], in order. *)
Definition pass_events (cfg : Config) (m : method) (j : nat) (p : pass) : list event :=
  (if features_differ cfg j then [EFeatures j] else []) ++
  (if negb (num_is_one (p_scale p)) then [EScaleImages j] else []) ++
  [EStage m j (p_images p) (p_store_in p) (p_current_in p)
          (p_store_out p) (p_current_out p)] ++
  match scales cfg !! S j with
  | Some s_next => EApplyInplace (num_div s_next (p_scale p)) <$> concat (p_current_out p)
  | None => []
  end.

Fixpoint loop_events (cfg : Config) (m : method) (j : nat) (ps : list pass)
    : list event :=
  match ps with
  | [] => []
  | p :: ps' => pass_events cfg m j p ++ loop_events cfg m (S j) ps'
  end.

(** The bounding boxes of one image, aligned. *)
Definition aligned_boxes (rs : option Shape) (keys : list string)
    (img : Image Pixels Shape) (row : list Shape) : Prop :=
  Forall2 (λ key s, ∃ r bbox,
             rs = Some r ∧ Landmarks.get key (landmarks img) = Some bbox ∧
             s = align_shape_with_bounding_box r bbox) keys row.

(** The pass [p] at scale [j] is what the code does, after the pass [prev]
    (none at scale 0), for the batch [batch] in state [st]. *)
Definition pass_ok (cfg : Config) (batch : list ref) (group : string)
    (keys : list string) (increment : bool) (st : State)
    (prev : option pass) (j : nat) (p : pass) : Prop :=
  scales cfg !! j = Some (p_scale p) ∧
  (* lines 172-180: the feature images *)
  (if features_differ cfg j then
     ∃ f imgs, features cfg !! j = Some f ∧
       Forall2 (λ i img, image_store st !! i = Some img) batch imgs ∧
       p_feature_images p = compute_features imgs f
   else ∃ q, prev = Some q ∧ p_feature_images p = p_feature_images q) ∧
  (* lines 193-207: the estimates a pass starts from *)
  match prev with
  | None =>
      j = 0%nat ∧
      ∃ shapes,
        Forall2 (aligned_boxes (reference_shape st) keys) (p_images p) shapes ∧
        Forall2 (λ row refs, length row = length refs) shapes (p_current_in p) ∧
        concat (p_current_in p)
          = seq (length (shape_store st)) (length (concat shapes)) ∧
        p_store_in p = shape_store st ++ concat shapes
  | Some q =>
      j ≠ 0%nat ∧ p_current_in p = p_current_out q ∧ p_store_in p = p_store_next q
  end ∧
  (* lines 209-217: the algorithm of the scale *)
  (∃ alg alg' gts,
     algorithms st !! j = Some alg ∧
     Forall2 (λ i s, Landmarks.get group (landmarks i) = Some s) (p_images p) gts ∧
     (if increment then alg_increment else alg_train)
       alg (p_store_in p) (p_images p) gts (p_current_in p)
       = (alg', p_store_out p, p_current_out p)) ∧
  (* lines 219-226: on to the next resolution *)
  p_store_next p =
    match scales cfg !! S j with
    | Some s_next =>
        scale_in_place (num_div s_next (p_scale p)) (concat (p_current_out p))
                       (p_store_out p)
    | None => p_store_out p
    end.

(** What the algorithm of a pass was given and returned. *)
Definition io_of (p : pass) : stage_io :=
  (p_store_in p, p_current_in p, p_store_out p, p_current_out p).

(** The passes of a scale loop, from scale [j] on and after [prev]. *)
Inductive passes_ok (cfg : Config) (batch : list ref) (group : string)
    (keys : list string) (increment : bool) (st : State)
    : option pass → nat → list pass → Prop :=
  | passes_nil prev j : passes_ok cfg batch group keys increment st prev j []
  | passes_cons prev j p ps :
      pass_ok cfg batch group keys increment st prev j p →
      passes_ok cfg batch group keys increment st (Some p) (S j) ps →
      passes_ok cfg batch group keys increment st prev j (p :: ps).

(** ** Vocabulary of the further properties *)

(** The test of line 182: [self.scales[j] != 1]. *)
Definition scale_differs (cfg : Config) (j : nat) : bool :=
  match scales cfg !! j with
  | Some s => negb (num_is_one s)
  | None => false
  end.

(** The scales at which [scale_images] was called. *)
Definition scale_calls (evs : list event) : list nat :=
  omap (λ e, match e with EScaleImages j => Some j | _ => None end) evs.

(** The calls of the scale loop that produce or consume images: which call,
    at which scale. *)
Definition image_step (e : event) : option (kind * nat) :=
  match e with
  | EFeatures j => Some (KFeatures, j)
  | EScaleImages j => Some (KScaleImages, j)
  | EStage _ j _ _ _ _ _ => Some (KStage, j)
  | _ => None
  end.

(** The calls of lines 172-217 at scale [j], in the order of the code. *)
Definition image_steps_at (cfg : Config) (j : nat) : list (kind * nat) :=
  (if features_differ cfg j then [(KFeatures, j)] else []) ++
  (if scale_differs cfg j then [(KScaleImages, j)] else []) ++
  [(KStage, j)].

(** The calls of [rescale_images_to_reference_shape]: the reference shape
    the fitter held at the call, and the batch. *)
Definition rescale_calls (tr : trace) : list (option Shape * list ref) :=
  omap (λ se : State * event,
          match se.2 with
          | ERescale b _ => Some (reference_shape se.1, b)
          | _ => None
          end) tr.

(** What image [i] of the store holds under [key]; [None] if it holds
    nothing there. *)
Definition landmark_of (store : list (Image Pixels Shape)) (i : ref)
    (key : string) : option Shape :=
  store !! i ≫= λ img, Landmarks.get key (landmarks img).

(** How many times the object [r] occurs in [refs]. *)
Definition occurrences (r : ref) (refs : list ref) : nat :=
  length (filter (λ x, x = r) refs).

(** The images the perturbation strategy was called for, call by call. *)
Definition perturbed_images (evs : list event) : list ref :=
  omap (λ e, match e with EPerturb i _ _ _ => Some i | _ => None end) evs.

(** The calls of [keys_matching]: the image, the pattern and the result. *)
Definition keys_events (evs : list event) : list (ref * string * list string) :=
  omap (λ e, match e with
             | EKeysMatching i pattern keys => Some (i, pattern, keys)
             | _ => None
             end) evs.

(** No image object disappears, and the landmark groups of an image keep
    their order: new ones come after the ones it had. *)
Definition labels_extend (store store' : list (Image Pixels Shape)) : Prop :=
  ∀ i img, store !! i = Some img →
    ∃ img', store' !! i = Some img' ∧
      Landmarks.group_labels (landmarks img)
        `prefix_of` Landmarks.group_labels (landmarks img').

(** A call of [train] or [increment] as lines 190-217 make it, for a batch
    that found the algorithms [algs] and left [algs']: on the algorithm of
    the scale, with the images of the scale, the shapes these images hold
    under [group] and the current estimates; what it returns are the new
    estimates, and the algorithm is left as the call left it. *)
Definition stage_call_ok (group : string) (increment : bool)
    (algs algs' : list Alg) (e : event) : Prop :=
  match e with
  | EStage m j images store_in current_in store_out current_out =>
      m = method_of increment ∧
      ∃ alg alg' gts,
        algs !! j = Some alg ∧
        Forall2 (λ i s, Landmarks.get group (landmarks i) = Some s) images gts ∧
        (if increment then alg_increment else alg_train)
          alg store_in images gts current_in = (alg', store_out, current_out) ∧
        algs' !! j = Some alg'
  | _ => True
  end.

(** ** Vocabulary of the revised properties *)

(** The calls of [keys_matching]: the state each was made in and what it
    found. *)
Definition keys_states (tr : trace) : list (State * list string) :=
  omap (λ se : State * event,
          match se.2 with
          | EKeysMatching _ _ keys => Some (se.1, keys)
          | _ => None
          end) tr.

(** Modelled from the spec: the return contract of [compute_features] and
    [scale_images] (menpofit.builder, not part of the sources at hand).  The
    spec has the feature function applied to "a batch of images" to give the
    feature images, and the images "resampled" to the factor of the scale:
    one image out for every image in. *)
Definition images_keep_counts : Prop :=
  (∀ images f, length (compute_features images f) = length images) ∧
  (∀ images s, length (scale_images images s) = length images).

(** The calls of the algorithms: the images, the estimates given and the
    estimates returned. *)
Definition stage_rows (evs : list event)
    : list (list (Image Pixels Shape) * list (list ref) * list (list ref)) :=
  omap (λ e, match e with
             | EStage _ _ images _ current_in _ current_out =>
                 Some (images, current_in, current_out)
             | _ => None
             end) evs.

(** One row of [n] estimates for every image, image by image. *)
Definition rows_for {A B} (n : nat) (images : list A) (current : list (list B))
    : Prop :=
  Forall2 (λ _ row, length row = n) images current.

End Vocabulary.

(** ** A concrete set of collaborators

    Exact rational coordinates, images whose pixel data records how they were
    produced, a rescaling that returns copies, and algorithm objects that
    record the calls made on them. *)

Module Concrete.

Definition point : Type := Q * Q.

(** How an image came to be. *)
Inductive px :=
  | Raw (id : nat)
  | Rescaled (p : px)
  | Feat (f : nat) (p : px)
  | Scaled (s : Q) (p : px).

Definition img : Type := Image px (list point).

Definition qmin (a b : Q) : Q := if Qle_bool a b then a else b.
Definition qmax (a b : Q) : Q := if Qle_bool a b then b else a.

(** The four corners of the axis-aligned box around the points. *)
Definition bbox (s : list point) : list point :=
  match s with
  | [] => []
  | (x0, y0) :: rest =>
      let x1 := foldr (λ p, qmin p.1) x0 rest in
      let x2 := foldr (λ p, qmax p.1) x0 rest in
      let y1 := foldr (λ p, qmin p.2) y0 rest in
      let y2 := foldr (λ p, qmax p.2) y0 rest in
      [(x1, y1); (x1, y2); (x2, y2); (x2, y1)]
  end.

Definition scale_points (r : Q) (s : list point) : list point :=
  map (λ p, (Qred (r * p.1), Qred (r * p.2))) s.

Definition translate (d : point) (s : list point) : list point :=
  map (λ p, (Qred (p.1 + d.1), Qred (p.2 + d.2))) s.

(** The point-wise mean of shapes with as many points as the first. *)
Definition mean_shape (shapes : list (list point)) : list point :=
  match shapes with
  | [] => []
  | s0 :: rest =>
      let total := foldr (λ s acc,
                     zip_with (λ p q, (p.1 + q.1, p.2 + q.2)%Q) s acc) s0 rest in
      scale_points (1 / inject_Z (Z.of_nat (length shapes))) total
  end.

(** Copies: the rescaled images are new objects at the end of the store. *)
Definition rescale_copy (store : list img) (batch : list ref) (group : string)
    (rs : list point) : list img * list ref :=
  let copies :=
    omap (λ i, (λ im, mkImage (Rescaled (pixels im)) (landmarks im)) <$> store !! i)
         batch in
  (store ++ copies, seq (length store) (length copies)).

(** Shell patterns with [*] and [?]; bracket classes are not covered. *)
Fixpoint glob (pat : list Ascii.ascii) (s : list Ascii.ascii) : bool :=
  match pat with
  | [] => match s with [] => true | _ => false end
  | c :: pat' =>
      if decide (c = "*"%char) then
        (fix any (s : list Ascii.ascii) : bool :=
           glob pat' s || match s with [] => false | _ :: s' => any s' end) s
      else
        match s with
        | [] => false
        | d :: s' =>
            (bool_decide (c = "?"%char) || bool_decide (c = d)) && glob pat' s'
        end
  end.

Definition glob_match (key pattern : string) : bool :=
  glob (String.list_ascii_of_string pattern) (String.list_ascii_of_string key).

(** An algorithm object remembers the calls made on it: the method and the
    number of images of the call.  It hands back the estimates it was
    given. *)
Definition stage_call (m : bool) (a : list (bool * nat)) (store : list (list point))
    (images : list img) (gt : list (list point)) (current : list (list ref))
    : list (bool * nat) * list (list point) * list (list ref) :=
  (a ++ [(m, length images)], store, current).

#[export] Instance collaborators : Collaborators := {|
  Shape := list point;
  Pixels := px;
  num := Q;
  Feature := nat;
  StageArgs := unit;
  Alg := list (bool * nat);
  Rng := nat;
  fnmatch := glob_match;
  bounding_box := bbox;
  compute_reference_shape := λ shapes _, mean_shape shapes;
  rescale_images_to_reference_shape := rescale_copy;
  compute_features := λ images f,
    map (λ im, mkImage (Feat f (pixels im)) (landmarks im)) images;
  scale_images := λ images s,
    map (λ im, mkImage (Scaled s (pixels im))
                       (map (λ kv : string * list point, (kv.1, scale_points s kv.2))
                            (landmarks im))) images;
  align_shape_with_bounding_box := λ rs box,
    match box with [] => rs | c :: _ => translate c rs end;
  num_is_one := λ q, Qeq_bool q 1;
  num_div := λ a b, Qred (a / b);
  Scale := scale_points;
  sd_algorithm_cls := λ _, [];
  alg_train := stage_call false;
  alg_increment := stage_call true;
|}.

(** The noise of the [n]-th draw moves a box [n + 1] to the right. *)
Definition shift_noise (gt_s bb : list point) (n : nat) : list point * nat :=
  (translate (inject_Z (Z.of_nat (S n)), 0%Q) bb, S n).

Definition cfg2 : Config :=
  mkConfig [0%nat; 0%nat] None [(1 # 2)%Q; 1%Q] shift_noise.

(** Three landmarks, [dx] to the right of the origin. *)
Definition points (dx : Z) : list point :=
  [(inject_Z dx, 0%Q); (inject_Z (dx + 4), 0%Q); (inject_Z (dx + 2), 6%Q)].

(** An image with its ground truth shape, under the group ["PTS"]. *)
Definition face (id : nat) (dx : Z) : img :=
  mkImage (Raw id) [("PTS", points dx)].

(** An image that comes with two bounding boxes, under ["bb_0"] and
    ["bb_1"]. *)
Definition boxed_face (id : nat) (dx : Z) : img :=
  mkImage (Raw id)
    [("PTS", points dx); ("bb_0", bbox (points dx));
     ("bb_1", translate (1%Q, 0%Q) (bbox (points dx)))].

(** An image that comes with one bounding box, under ["bb_1"]. *)
Definition clash_face (id : nat) (dx : Z) : img :=
  mkImage (Raw id) [("PTS", points dx); ("bb_1", bbox (points dx))].

(** A store of three images, before a fitter is made. *)
Definition world0 : State :=
  mkState None 0 [] [face 0 0; face 1 10; face 2 20] [] 0%nat.

(** A fitter of two scales, set up for 3 perturbations and not yet trained,
    over a store of three images. *)
Definition trainer (images : list img) : State :=
  mkState None 3 [[]; []] images [] 0%nat.

Definition trainer0 : State := trainer [face 0 0; face 1 10; face 2 20].
Definition trainer_boxed : State := trainer [boxed_face 0 0; boxed_face 1 10].
Definition trainer_clash : State := trainer [clash_face 0 0; clash_face 1 10].

(** *** Checks on the outcome of a run *)

#[export] Instance Q_eq_dec : EqDecision Q.
Proof. solve_decision. Defined.

#[export] Instance px_eq_dec : EqDecision px.
Proof. solve_decision. Defined.

#[export] Instance img_eq_dec : EqDecision img.
Proof. solve_decision. Defined.

(** Image [i] of the store has a landmark group [key]. *)
Definition has_keyb (store : list img) (i : ref) (key : string) : bool :=
  match store !! i with
  | Some im => bool_decide (is_Some (Landmarks.get key (landmarks im)))
  | None => false
  end.

(** The landmark group [key] of image [i] of the store. *)
Definition landmark (store : list img) (i : ref) (key : string)
    : option (list point) :=
  im ← store !! i; Landmarks.get key (landmarks im).

(** A call of the perturbation strategy was given, as its first argument,
    the ground truth shape of its image. *)
Definition given_the_shape (group : string) (se : State * event) : bool :=
  match se.2 with
  | EPerturb i gt_s _ _ =>
      bool_decide (landmark (image_store se.1) i group = Some gt_s)
  | _ => true
  end.

(** After a run on the images 0, 1 and 2 that the rescaling copies to 3, 4
    and 5: the images of the caller hold what they held in [store], and none
    of them has a group [key], which the copies have. *)
Definition copies_only (store : list img) (key : string) (r : result ()) : bool :=
  match r with
  | Ok _ st _ =>
      bool_decide (take 3 (image_store st : list img) = store) &&
      forallb (λ i, negb (has_keyb (image_store st) i key)) [0; 1; 2]%nat &&
      forallb (λ i, has_keyb (image_store st) i key) [3; 4; 5]%nat
  | Raise _ => false
  end.

(** What a batch came to: the results of the calls of [keys_matching], the
    number of calls of the perturbation strategy, the warnings,
    [n_perturbations] afterwards, what the images 2 and 3 hold under ["bb_1"]
    afterwards, and the estimates each algorithm was given. *)
Definition digest (r : result string)
    : option (list (list string) * nat * list warning * Z *
              list (option (list point)) * list (list (list ref))) :=
  match r with
  | Ok _ st tr =>
      Some (keys_calls (events tr),
            length (of_kind KPerturb (events tr)),
            warnings (events tr),
            n_perturbations st,
            (λ i, landmark (image_store st) i "bb_1") <$> [2; 3]%nat,
            (λ io : stage_io, io.1.1.2) <$> stage_shapes (events tr))
  | Raise _ => None
  end.


(** *** Images and fitters for the further properties *)

(** An image that comes with one bounding box, under ["bb_0"]. *)
Definition seeded_face (id : nat) (dx : Z) : img :=
  mkImage (Raw id) [("PTS", points dx); ("bb_0", bbox (points dx))].

Definition trainer_seeded : State := trainer [seeded_face 0 0; seeded_face 1 10].

(** A fitter with a reference shape, over two images of which only the first
    comes with a bounding box. *)
Definition trainer_half_seeded : State :=
  mkState (Some (points 0)) 3 [[]; []] [seeded_face 0 0; face 1 10] [] 0%nat.

(** The results of the calls of [keys_matching] of a batch. *)
Definition keys_found (r : result string) : option (list (list string)) :=
  match r with
  | Ok _ _ tr => Some (keys_calls (events tr))
  | Raise _ => None
  end.

(** The group a batch worked with. *)
Definition group_is (g0 : string) (r : result string) : bool :=
  match r with
  | Ok g _ _ => bool_decide (g = g0)
  | Raise _ => false
  end.

(** The batch called at least one algorithm. *)
Definition reached_a_stage (r : result string) : bool :=
  match r with
  | Ok _ _ tr =>
      bool_decide (is_Some (head (stage_images (events tr)))) &&
      bool_decide (is_Some (head (stage_shapes (events tr))))
  | Raise _ => false
  end.

End Concrete.

(** * Stages that remember what they were trained on *)

Module Recording.
Import Concrete.

(** One training example of a stage: an image, its ground truth shape and
    the current estimates of its shape. *)
Definition example : Type := img * list point * list (list point).

(** The examples of one call; the estimates are looked up in the shape store
    of the call. *)
Definition examples (store : list (list point)) (images : list img)
    (gt_shapes : list (list point)) (current : list (list ref)) : list example :=
  zip_with (λ (ig : img * list point) (row : list ref),
              (ig, omap (λ r, store !! r) row))
           (zip images gt_shapes) current.

(** Modelled from the spec: the cascade stage of section 4.4, whose code is
    not among the sources at hand, as the record of the examples it was
    trained on.  [train] (no [m]) fits from scratch, on the examples of the
    call; [increment] adds the examples of the call to those the stage holds,
    so that after any number of increments the stage is in the state that
    training on the concatenation of all batches leaves.  Both give back as
    many estimates per image as they were given. *)
Definition record_call (m : bool) (a : list example) (store : list (list point))
    (images : list img) (gt_shapes : list (list point)) (current : list (list ref))
    : list example * list (list point) * list (list ref) :=
  ((if m then a else []) ++ examples store images gt_shapes current,
   store, current).


(** The collaborators of [Concrete], with stages that record. *)
Definition recording : Collaborators := {|
  Shape := list point;
  Pixels := px;
  num := Q;
  Feature := nat;
  StageArgs := unit;
  Alg := list example;
  Rng := nat;
  fnmatch := glob_match;
  bounding_box := bbox;
  compute_reference_shape := λ shapes _, mean_shape shapes;
  rescale_images_to_reference_shape := rescale_copy;
  compute_features := λ images f,
    map (λ im, mkImage (Feat f (pixels im)) (landmarks im)) images;
  scale_images := λ images s,
    map (λ im, mkImage (Scaled s (pixels im))
                       (map (λ kv : string * list point, (kv.1, scale_points s kv.2))
                            (landmarks im))) images;
  align_shape_with_bounding_box := λ rs box,
    match box with [] => rs | c :: _ => translate c rs end;
  num_is_one := λ q, Qeq_bool q 1;
  num_div := λ a b, Qred (a / b);
  Scale := scale_points;
  sd_algorithm_cls := λ _, [];
  alg_train := record_call false;
  alg_increment := record_call true;
|}.

(** Two scales, as [cfg2]. *)
Definition cfg : Config (C := recording) :=
  mkConfig (C := recording) [0%nat; 0%nat] None [(1 # 2)%Q; 1%Q] shift_noise.




End Recording.

(** * Properties of the orchestration *)

Section Orchestration.
Context `{C : Collaborators}.

(** ** Running the monad *)

Lemma bind_Ok {A B} (m : M A) (f : A → M B) st b st2 tr :
  bind m f st = Ok b st2 tr →
  ∃ a st1 tr1 tr2,
    m st = Ok a st1 tr1 ∧ f a st1 = Ok b st2 tr2 ∧ tr = tr1 ++ tr2.
Proof.
  unfold bind. destruct (m st) as [a st1 tr1|]; [|done].
  destruct (f a st1) as [b' st2' tr2|] eqn:Hf; [|done].
  intros [= -> -> <-]. by exists a, st1, tr1, tr2.
Qed.

Lemma ret_Ok {A} (a b : A) st st' tr :
  ret a st = Ok b st' tr → b = a ∧ st' = st ∧ tr = [].
Proof. by intros [= -> -> <-]. Qed.

Lemma get_Ok st s st' tr : get st = Ok s st' tr → s = st ∧ st' = st ∧ tr = [].
Proof. by intros [= <- <- <-]. Qed.

Lemma modify_Ok f st u st' tr :
  modify f st = Ok u st' tr → st' = f st ∧ tr = [].
Proof. by intros [= <- <-]. Qed.

Lemma emit_Ok e st u st' tr :
  emit e st = Ok u st' tr → st' = st ∧ tr = [(st, e)].
Proof. by intros [= <- <-]. Qed.

Lemma lift_Ok {A} e (o : option A) st a st' tr :
  lift e o st = Ok a st' tr → o = Some a ∧ st' = st ∧ tr = [].
Proof. destruct o; [|done]. by intros [= -> -> <-]. Qed.

(** One step of symbolic execution of a successful run. *)
Ltac run_step :=
  match goal with
  | H : bind _ _ _ = Ok _ _ _ |- _ =>
      apply bind_Ok in H; destruct H as (? & ? & ? & ? & ? & H & ->)
  | H : ret _ _ = Ok _ _ _ |- _ =>
      apply ret_Ok in H; destruct H as (? & ? & ?); subst
  | H : get _ = Ok _ _ _ |- _ =>
      apply get_Ok in H; destruct H as (? & ? & ?); subst
  | H : modify _ _ = Ok _ _ _ |- _ =>
      apply modify_Ok in H; destruct H as (? & ?); subst
  | H : emit _ _ = Ok _ _ _ |- _ =>
      apply emit_Ok in H; destruct H as (? & ?); subst
  | H : lift _ _ _ = Ok _ _ _ |- _ =>
      apply lift_Ok in H; destruct H as (? & ? & ?); subst
  | H : raise _ _ = Ok _ _ _ |- _ => discriminate H
  | H : Raise _ = Ok _ _ _ |- _ => discriminate H
  end.

Ltac run0 := repeat run_step.

(** The first action of a successful [bind], as [Hm]; the rest stays in [H]. *)
Ltac step H Hm :=
  apply bind_Ok in H; destruct H as (? & ? & ? & ? & Hm & H & ->).

(** The outcome of a run [Hm : _ = Ok a s t], handed to [k]. *)
Ltac result_of Hm k :=
  match type of Hm with _ = Ok ?a ?s ?t => k a s t end.

(** ** Object access *)

Lemma deref_Ok i st img st' tr :
  deref i st = Ok img st' tr →
  image_store st !! i = Some img ∧ st' = st ∧ tr = [].
Proof. unfold deref. intros H. by run0. Qed.

Ltac run_deref :=
  match goal with
  | H : deref _ _ = Ok _ _ _ |- _ =>
      apply deref_Ok in H; destruct H as (? & ? & ?); subst
  end.

Lemma read_landmark_Ok i key st s st' tr :
  read_landmark i key st = Ok s st' tr →
  (∃ img, image_store st !! i = Some img ∧
          Landmarks.get key (landmarks img) = Some s) ∧
  st' = st ∧ tr = [].
Proof.
  unfold read_landmark. intros H. repeat (run_step || run_deref). eauto.
Qed.

Lemma attach_Ok i key v st u st' tr :
  attach i key v st = Ok u st' tr →
  ∃ img, image_store st !! i = Some img ∧
    st' = set_image_store
            (<[i := mkImage (pixels img) (Landmarks.set key v (landmarks img))]>
               (image_store st)) st ∧
    tr = [(st, EAttach i key v)].
Proof.
  unfold attach. intros H. repeat (run_step || run_deref). eauto.
Qed.

Lemma keys_matching_Ok i bb_group st keys st' tr :
  keys_matching i bb_group st = Ok keys st' tr →
  ∃ img, image_store st !! i = Some img ∧
    keys = Landmarks.keys_matching fnmatch ("*" +:+ bb_group +:+ "*") (landmarks img) ∧
    st' = st ∧
    tr = [(st, EKeysMatching i ("*" +:+ bb_group +:+ "*") keys)].
Proof.
  unfold keys_matching. intros H. repeat (run_step || run_deref). eauto.
Qed.

Lemma new_shape_Ok s st r st' tr :
  new_shape s st = Ok r st' tr →
  r = length (shape_store st) ∧
  st' = set_shape_store (shape_store st ++ [s]) st ∧ tr = [].
Proof. unfold new_shape. intros H. by run0. Qed.

Lemma apply_inplace_Ok ratio r st u st' tr :
  apply_inplace ratio r st = Ok u st' tr →
  ∃ s, shape_store st !! r = Some s ∧
    st' = set_shape_store (<[r := Scale ratio s]> (shape_store st)) st ∧
    tr = [(st, EApplyInplace ratio r)].
Proof. unfold apply_inplace. intros H. run0. eauto. Qed.

(** Symbolic execution through the object accesses as well. *)
Ltac run_access :=
  match goal with
  | H : read_landmark _ _ _ = Ok _ _ _ |- _ =>
      apply read_landmark_Ok in H; destruct H as ((? & ? & ?) & ? & ?); subst
  | H : attach _ _ _ _ = Ok _ _ _ |- _ =>
      apply attach_Ok in H; destruct H as (? & ? & ? & ?); subst
  | H : keys_matching _ _ _ = Ok _ _ _ |- _ =>
      apply keys_matching_Ok in H; destruct H as (? & ? & ? & ? & ?); subst
  | H : new_shape _ _ = Ok _ _ _ |- _ =>
      apply new_shape_Ok in H; destruct H as (? & ? & ?); subst
  | H : apply_inplace _ _ _ = Ok _ _ _ |- _ =>
      apply apply_inplace_Ok in H; destruct H as (? & ? & ? & ?); subst
  | H : warn _ _ = Ok _ _ _ |- _ => unfold warn in H
  end.

Ltac run := repeat (run_step || run_deref || run_access).

(** ** Landmark dictionaries and the image store *)

Lemma get_set_eq key (v : Shape) lms :
  Landmarks.get key (Landmarks.set key v lms) = Some v.
Proof.
  induction lms as [|[k w] lms IH]; simpl; [by case_decide|].
  case_decide; simpl; case_decide; done.
Qed.

Lemma get_set_ne key key' (v : Shape) lms :
  key ≠ key' →
  Landmarks.get key' (Landmarks.set key v lms) = Landmarks.get key' lms.
Proof.
  intros Hne. induction lms as [|[k w] lms IH]; simpl; [by case_decide|].
  case_decide; simpl; repeat case_decide; subst; done.
Qed.

Lemma get_set_is_Some key key' (v : Shape) lms :
  is_Some (Landmarks.get key' lms) →
  is_Some (Landmarks.get key' (Landmarks.set key v lms)).
Proof.
  intros H. destruct (decide (key = key')) as [->|Hne].
  - rewrite get_set_eq. eauto.
  - by rewrite get_set_ne.
Qed.

Lemma keys_grow_refl store : keys_grow store store.
Proof. by intros i key. Qed.

Lemma keys_grow_trans s1 s2 s3 : keys_grow s1 s2 → keys_grow s2 s3 → keys_grow s1 s3.
Proof. intros H1 H2 i key H. eauto. Qed.

Lemma keys_grow_attach (store : list image) i img key v :
  store !! i = Some img →
  keys_grow store
    (<[i := mkImage (pixels img) (Landmarks.set key v (landmarks img))]> store).
Proof.
  intros Hi j k (im & Hj & Hk). destruct (decide (i = j)) as [->|Hne].
  - eexists. split.
    + apply list_lookup_insert_eq. by eapply lookup_lt_Some.
    + simpl. apply get_set_is_Some. by simplify_eq.
  - exists im. by rewrite list_lookup_insert_ne.
Qed.

Lemma has_key_attach (store : list image) i img key v :
  store !! i = Some img →
  has_key (<[i := mkImage (pixels img) (Landmarks.set key v (landmarks img))]> store)
          i key.
Proof.
  intros Hi. eexists. split.
  - apply list_lookup_insert_eq. by eapply lookup_lt_Some.
  - simpl. rewrite get_set_eq. eauto.
Qed.

(** ** Kinds of event *)

Lemma of_kind_app k evs1 evs2 :
  of_kind k (evs1 ++ evs2) = of_kind k evs1 ++ of_kind k evs2.
Proof. apply filter_app. Qed.

Lemma of_kind_none k (ks : list kind) evs :
  Forall (λ e, kind_of e ∈ ks) evs → k ∉ ks → of_kind k evs = [].
Proof.
  intros HF Hk. unfold of_kind. induction HF as [|e evs He _ IH]; [done|].
  rewrite filter_cons. case_decide; [|done]. by subst.
Qed.

Lemma events_app (tr1 tr2 : trace) : events (tr1 ++ tr2) = events tr1 ++ events tr2.
Proof. apply fmap_app. Qed.

(** ** Loops *)

Lemma for_each_inv {A} (body : A → M unit) (I : list A → State → trace → Prop)
    l st u st' tr :
  for_each l body st = Ok u st' tr →
  I [] st [] →
  (∀ done x s tr0 v s' tr1,
     x ∈ l → I done s tr0 → body x s = Ok v s' tr1 →
     I (done ++ [x]) s' (tr0 ++ tr1)) →
  I l st' tr.
Proof.
  intros Hrun H0 Hstep.
  cut (∀ done tr0 s, I done s tr0 → (∀ x, x ∈ l → x ∈ l) →
         ∀ rest, (∀ x, x ∈ rest → x ∈ l) →
         for_each rest body s = Ok u st' tr → I (done ++ rest) st' (tr0 ++ tr)).
  { intros Hcut. apply (Hcut [] [] st H0 (λ _ H, H) l (λ _ H, H) Hrun). }
  clear Hrun H0 st. intros done tr0 s HI _ rest. revert done tr0 s HI tr.
  induction rest as [|x rest IH]; intros done tr0 s HI tr Hin Hrun; simpl in Hrun.
  - run0. by rewrite !app_nil_r.
  - run0.
    match goal with
    | Hb : body x s = Ok _ _ _, Hr : for_each rest body _ = Ok _ _ _ |- _ =>
        specialize (Hstep done x s tr0 _ _ _ (Hin x (list_elem_of_here _ _)) HI Hb);
        specialize (IH _ _ _ Hstep _ (λ y Hy, Hin y (list_elem_of_further _ _ _ Hy)) Hr)
    end.
    by rewrite <- !app_assoc in IH.
Qed.

Lemma for_list_inv {A B} (f : A → M B)
    (I : list A → list B → State → trace → Prop) l st ys st' tr :
  for_list l f st = Ok ys st' tr →
  I [] [] st [] →
  (∀ done out x s tr0 y s' tr1,
     x ∈ l → I done out s tr0 → f x s = Ok y s' tr1 →
     I (done ++ [x]) (out ++ [y]) s' (tr0 ++ tr1)) →
  I l ys st' tr.
Proof.
  intros Hrun H0 Hstep.
  cut (∀ rest, (∀ x, x ∈ rest → x ∈ l) →
       ∀ done out tr0 s ys tr, I done out s tr0 →
         for_list rest f s = Ok ys st' tr →
         I (done ++ rest) (out ++ ys) st' (tr0 ++ tr)).
  { intros Hcut. apply (Hcut l (λ _ H, H) [] [] [] st ys tr H0 Hrun). }
  clear Hrun H0 st ys tr.
  induction rest as [|x rest IH]; intros Hin done out tr0 s ys tr HI Hrun;
    simpl in Hrun.
  - run0. by rewrite !app_nil_r.
  - run0.
    match goal with
    | Hb : f x s = Ok _ _ _, Hr : for_list rest f _ = Ok _ _ _ |- _ =>
        specialize (Hstep done out x s tr0 _ _ _ (Hin x (list_elem_of_here _ _)) HI Hb);
        specialize (IH (λ y Hy, Hin y (list_elem_of_further _ _ _ Hy)) _ _ _ _ _ _ Hstep Hr)
    end.
    rewrite app_nil_r. by rewrite <- !app_assoc in IH.
Qed.

Lemma for_fold_inv {A V} (body : A → V → M V)
    (I : list A → V → State → trace → Prop) l v st v' st' tr :
  for_fold l body v st = Ok v' st' tr →
  I [] v st [] →
  (∀ done x w s tr0 w' s' tr1,
     done ++ [x] `prefix_of` l → I done w s tr0 → body x w s = Ok w' s' tr1 →
     I (done ++ [x]) w' s' (tr0 ++ tr1)) →
  I l v' st' tr.
Proof.
  intros Hrun H0 Hstep.
  cut (∀ rest done, done ++ rest = l →
       ∀ w tr0 s tr, I done w s tr0 →
         for_fold rest body w s = Ok v' st' tr →
         I l v' st' (tr0 ++ tr)).
  { intros Hcut. apply (Hcut l [] eq_refl v [] st tr H0 Hrun). }
  clear Hrun H0 st v tr.
  induction rest as [|x rest IH]; intros done Hl w tr0 s tr HI Hrun;
    simpl in Hrun.
  - run0. rewrite !app_nil_r in *. by subst.
  - run0.
    match goal with
    | Hb : body x w s = Ok _ _ _, Hr : for_fold rest body _ _ = Ok _ _ _ |- _ =>
        assert (done ++ [x] `prefix_of` l) as Hpre
          by (exists rest; by rewrite <- app_assoc);
        specialize (Hstep done x w s tr0 _ _ _ Hpre HI Hb);
        specialize (IH (done ++ [x]) ltac:(by rewrite <- app_assoc) _ _ _ _ Hstep Hr)
    end.
    by rewrite <- !app_assoc in IH.
Qed.

(** Reading the images of a batch out of the store. *)
Lemma gather_images_Ok (batch : list ref) st imgs st' tr :
  for_list batch deref st = Ok imgs st' tr →
  Forall2 (λ i img, image_store st !! i = Some img) batch imgs ∧
  st' = st ∧ tr = [].
Proof.
  intros H.
  apply (for_list_inv deref (λ done out s t,
           Forall2 (λ i img, image_store st !! i = Some img) done out ∧
           s = st ∧ t = [])) in H; [done|by split|].
  intros done out x s tr0 y s' tr1 _ (HF & -> & ->) Hx. run.
  split; [|done]. apply Forall2_app; [done|]. by constructor.
Qed.

Lemma gather_shapes_Ok (group : string) (images : list image) st shapes st' tr :
  for_list images (λ i, lift KeyError (Landmarks.get group (landmarks i))) st
    = Ok shapes st' tr →
  Forall2 (λ i s, Landmarks.get group (landmarks i) = Some s) images shapes ∧
  st' = st ∧ tr = [].
Proof.
  intros H.
  apply (for_list_inv _ (λ done out s t,
           Forall2 (λ i s, Landmarks.get group (landmarks i) = Some s) done out ∧
           s = st ∧ t = [])) in H; [done|by split|].
  intros done out x s tr0 y s' tr1 _ (HF & -> & ->) Hx. run.
  split; [|done]. apply Forall2_app; [done|]. by constructor.
Qed.

(** ** The scale loop *)

Lemma insert_as_alter {A} (f : A → A) (l : list A) i x :
  l !! i = Some x → <[i := f x]> l = alter f i l.
Proof.
  intros Hx. rewrite list_insert_alter. apply list_alter_ext; [|done].
  intros y Hy. congruence.
Qed.

Lemma apply_all_Ok ratio (refs : list ref) st u st' tr :
  for_each refs (apply_inplace ratio) st = Ok u st' tr →
  st' = set_shape_store (scale_in_place ratio refs (shape_store st)) st ∧
  events tr = EApplyInplace ratio <$> refs.
Proof.
  intros H.
  apply (for_each_inv _ (λ done s t,
           s = set_shape_store (scale_in_place ratio done (shape_store st)) st ∧
           events t = EApplyInplace ratio <$> done)) in H; [done| |].
  - split; [by destruct st|done].
  - intros done x s tr0 v s' tr1 _ (-> & Hev) Hx. run.
    unfold events, scale_in_place in *. simpl in *.
    rewrite fmap_app, foldl_snoc, Hev, fmap_app. split; [|done].
    unfold set_shape_store; simpl. by erewrite insert_as_alter.
Qed.

Lemma apply_all_images_Ok ratio (current : list (list ref)) st u st' tr :
  for_each current (λ image_shapes, for_each image_shapes (apply_inplace ratio)) st
    = Ok u st' tr →
  st' = set_shape_store (scale_in_place ratio (concat current) (shape_store st)) st ∧
  events tr = EApplyInplace ratio <$> concat current.
Proof.
  intros H.
  apply (for_each_inv _ (λ done s t,
           s = set_shape_store
                 (scale_in_place ratio (concat done) (shape_store st)) st ∧
           events t = EApplyInplace ratio <$> concat done)) in H; [done| |].
  - split; [by destruct st|done].
  - intros done x s tr0 v s' tr1 _ (-> & Hev) Hx.
    apply apply_all_Ok in Hx as (-> & Hev1).
    unfold events, scale_in_place in *. simpl in *.
    rewrite concat_app, foldl_app, !fmap_app, Hev, Hev1. simpl.
    by rewrite app_nil_r.
Qed.

Lemma extract_row_Ok (keys : list string) (img : image) st refs st' tr :
  for_list keys (aligned_shape img) st = Ok refs st' tr →
  ∃ row, aligned_boxes (reference_shape st) keys img row ∧
    st' = set_shape_store (shape_store st ++ row) st ∧
    refs = seq (length (shape_store st)) (length row) ∧ tr = [].
Proof.
  intros H.
  apply (for_list_inv _ (λ done out s t, ∃ row,
           aligned_boxes (reference_shape st) done img row ∧
           s = set_shape_store (shape_store st ++ row) st ∧
           out = seq (length (shape_store st)) (length row) ∧ t = [])) in H;
    [done| |].
  - exists []. split; [constructor|]. rewrite app_nil_r. by destruct st.
  - intros done out x s tr0 y s' tr1 _ (row & HF & -> & -> & ->) Hx.
    unfold aligned_shape in Hx. run. simpl in *.
    match goal with
    | Hr : reference_shape st = Some ?r, Hb : Landmarks.get x _ = Some ?b |- _ =>
        exists (row ++ [align_shape_with_bounding_box r b])
    end.
    split; [|split; [|split]]; [| | |done].
    + apply Forall2_app; [done|]. constructor; [|constructor]. eauto.
    + unfold set_shape_store; simpl. by rewrite app_assoc.
    + by rewrite !length_app, seq_app.
Qed.

Lemma extract_perturbations_Ok keys (scaled_images : list image) st new st' tr :
  extract_perturbations keys scaled_images st = Ok new st' tr →
  ∃ shapes,
    Forall2 (aligned_boxes (reference_shape st) keys) scaled_images shapes ∧
    Forall2 (λ row refs, length row = length refs) shapes new ∧
    concat new = seq (length (shape_store st)) (length (concat shapes)) ∧
    st' = set_shape_store (shape_store st ++ concat shapes) st ∧ tr = [].
Proof.
  unfold extract_perturbations. intros H.
  apply (for_list_inv _ (λ done out s t, ∃ shapes,
           Forall2 (aligned_boxes (reference_shape st) keys) done shapes ∧
           Forall2 (λ row refs, length row = length refs) shapes out ∧
           concat out = seq (length (shape_store st)) (length (concat shapes)) ∧
           s = set_shape_store (shape_store st ++ concat shapes) st ∧
           t = [])) in H; [done| |].
  - exists []. repeat split; try constructor. simpl. rewrite app_nil_r.
    by destruct st.
  - intros done out x s tr0 y s' tr1 _ (shapes & HF & HL & Hc & -> & ->) Hx.
    apply extract_row_Ok in Hx as (row & Hrow & -> & -> & ->). simpl in *.
    exists (shapes ++ [row]). split; [|split; [|split; [|split]]]; [| | | |done].
    + apply Forall2_app; [done|]. by constructor.
    + apply Forall2_app; [done|]. constructor; [|constructor].
      by rewrite length_seq.
    + rewrite !concat_app, Hc. simpl. rewrite !app_nil_r, !length_app, seq_app.
      done.
    + unfold set_shape_store; simpl. rewrite concat_app. simpl.
      by rewrite app_nil_r, app_assoc.
Qed.

(** What one pass of the scale loop does. *)
Lemma scale_step_Ok cfg batch group keys (inc : bool) j fi cs st fi' cs' st' tr :
  scale_step cfg batch group keys inc j (fi, cs) st = Ok (fi', cs') st' tr →
  ∃ s_j alg alg' shapes new gts store_out,
    let m := if inc then Increment else Train in
    let scaled_images := level_images s_j fi' in
    let store_in := shape_store st ++ concat shapes in
    scales cfg !! j = Some s_j ∧
    (if features_differ cfg j then
       ∃ f imgs, features cfg !! j = Some f ∧
         Forall2 (λ i img, image_store st !! i = Some img) batch imgs ∧
         fi' = compute_features imgs f
     else fi' = fi) ∧
    (if decide (j = 0%nat) then
       Forall2 (aligned_boxes (reference_shape st) keys) scaled_images shapes ∧
       Forall2 (λ row refs, length row = length refs) shapes new ∧
       concat new = seq (length (shape_store st)) (length (concat shapes))
     else shapes = [] ∧ new = []) ∧
    Forall2 (λ i s, Landmarks.get group (landmarks i) = Some s) scaled_images gts ∧
    algorithms st !! j = Some alg ∧
    (if inc then alg_increment else alg_train)
      alg store_in scaled_images gts (cs ++ new) = (alg', store_out, cs') ∧
    events tr =
      (if features_differ cfg j then [EFeatures j] else []) ++
      (if negb (num_is_one s_j) then [EScaleImages j] else []) ++
      [EStage m j scaled_images store_in (cs ++ new) store_out cs'] ++
      match scales cfg !! S j with
      | Some s_next => EApplyInplace (num_div s_next s_j) <$> concat cs'
      | None => []
      end ∧
    (Z.of_nat j ≠ Z.of_nat (n_scales cfg) - 1 ↔ is_Some (scales cfg !! S j)) ∧
    st' = mkState (reference_shape st) (n_perturbations st)
            (<[j := alg']> (algorithms st)) (image_store st)
            match scales cfg !! S j with
            | Some s_next =>
                scale_in_place (num_div s_next s_j) (concat cs') store_out
            | None => store_out
            end
            (rng st).
Proof.
  unfold scale_step. intros H.
  (* Handle features *)
  step H Hrec.
  result_of Hrec ltac:(fun r s t =>
    assert (r = features_differ cfg j ∧ s = st ∧ t = []) as (-> & -> & ->)).
  { clear H. unfold features_differ.
    destruct (decide (j = 0%nat)) as [->|Hj]; run0.
    - by rewrite bool_decide_eq_true_2 by (by left).
    - match goal with
      | H1 : features cfg !! j = Some _, H2 : features cfg !! (j - 1)%nat = Some _
        |- _ => rewrite H1, H2
      end.
      split; [|done]. apply bool_decide_ext.
      split; [intros ?; right; congruence|intros [?|?]; [done|congruence]]. }
  clear Hrec. step H Hfeat.
  result_of Hfeat ltac:(fun a s t =>
    assert (s = st ∧
            events t = (if features_differ cfg j then [EFeatures j] else []) ∧
            (if features_differ cfg j then
               ∃ f imgs, features cfg !! j = Some f ∧
                 Forall2 (λ i img, image_store st !! i = Some img) batch imgs ∧
                 a = compute_features imgs f
             else a = fi)) as (-> & Hev1 & Hfi)).
  { destruct (features_differ cfg j); run0; [|done].
    match goal with
    | Hg : for_list batch deref _ = Ok _ _ _ |- _ =>
        apply gather_images_Ok in Hg as (? & -> & ->)
    end.
    run0. eauto 10. }
  clear Hfeat.
  (* handle scales *)
  step H Hsj. apply lift_Ok in Hsj as (Hsj & -> & ->).
  step H Hsc.
  result_of Hsc ltac:(fun a s t =>
    match type of Hsj with _ = Some ?s_j =>
    match type of Hsc with (if _ then _ else ret ?fi1) _ = _ =>
      assert (a = level_images s_j fi1 ∧ s = st ∧
              events t = (if negb (num_is_one s_j) then [EScaleImages j] else []))
        as (-> & -> & Hev2)
    end end).
  { unfold level_images. destruct (negb (num_is_one _)); by run0. }
  clear Hsc.
  step H Hgt. apply gather_shapes_Ok in Hgt as (Hgts & -> & ->).
  (* Extract perturbations at the very bottom level *)
  step H Hcs.
  result_of Hcs ltac:(fun a s t =>
    match type of Hgts with Forall2 _ ?simgs _ =>
      assert (∃ shapes new, a = cs ++ new ∧
                s = set_shape_store (shape_store st ++ concat shapes) st ∧
                t = [] ∧
                (if decide (j = 0%nat) then
                   Forall2 (aligned_boxes (reference_shape st) keys) simgs shapes ∧
                   Forall2 (λ row refs, length row = length refs) shapes new ∧
                   concat new = seq (length (shape_store st)) (length (concat shapes))
                 else shapes = [] ∧ new = []))
        as (shapes & new & -> & -> & -> & Hnew)
    end).
  { destruct (decide (j = 0%nat)); run0.
    - match goal with
      | Hg : extract_perturbations _ _ _ = Ok _ _ _ |- _ =>
          apply extract_perturbations_Ok in Hg as (shapes & ? & ? & ? & -> & ->)
      end.
      run0. eauto 10.
    - exists [], []. simpl. rewrite !app_nil_r. by destruct st. }
  clear Hcs.
  (* train supervised descent algorithm *)
  step H Hget. apply get_Ok in Hget as (-> & -> & ->).
  step H Halg. apply lift_Ok in Halg as (Halg & -> & ->). simpl in Halg, H.
  match type of H with
  | context [(if inc then alg_increment else alg_train) ?a ?b ?c ?d ?e] =>
      destruct ((if inc then alg_increment else alg_train) a b c d e)
        as [[alg' store_out] current_out] eqn:Hcall
  end.
  step H Hem. apply emit_Ok in Hem as (-> & ->).
  step H Hmod. apply modify_Ok in Hmod as (-> & ->).
  (* Scale current shapes to next resolution *)
  step H Hap.
  match type of Hsj with _ = Some ?s_j =>
  result_of Hap ltac:(fun a s t =>
    assert ((Z.of_nat j ≠ Z.of_nat (n_scales cfg) - 1 ↔ is_Some (scales cfg !! S j)) ∧
            events t =
              match scales cfg !! S j with
              | Some s_next => EApplyInplace (num_div s_next s_j) <$> concat current_out
              | None => []
              end ∧
            shape_store s =
              match scales cfg !! S j with
              | Some s_next =>
                  scale_in_place (num_div s_next s_j) (concat current_out) store_out
              | None => store_out
              end ∧
            reference_shape s = reference_shape st ∧
            n_perturbations s = n_perturbations st ∧
            algorithms s = <[j := alg']> (algorithms st) ∧
            image_store s = image_store st ∧ rng s = rng st)
      as (Hfinal & Hev3 & Hstore & ? & ? & ? & ? & ?))
  end.
  { destruct (decide _) as [Hn|Hn]; run0.
    - match goal with
      | Hg : for_each _ _ _ = Ok _ _ _ |- _ =>
          apply apply_all_images_Ok in Hg as (-> & Hev3)
      end.
      rewrite Nat.add_1_r in *. simplify_eq.
      match goal with Hs : scales cfg !! S j = Some _ |- _ => rewrite Hs end.
      by repeat split; eauto.
    - assert (scales cfg !! S j = None) as ->.
      { apply lookup_ge_None. unfold n_scales in Hn. lia. }
      repeat split; try done; try by intros [? ?]. }
  clear Hap. run0. simplify_eq.
  do 7 eexists. split_and!; try eassumption; try apply Hfinal.
  - unfold events in *. rewrite !fmap_app. simpl.
    by rewrite Hev1, Hev2, Hev3, app_nil_r.
  - match goal with |- ?s = _ => destruct s end. simpl in *. by subst.
Qed.

Lemma passes_ok_snoc cfg batch group keys inc st prev j ps p :
  passes_ok cfg batch group keys inc st prev j ps →
  pass_ok cfg batch group keys inc st
    (match last ps with Some q => Some q | None => prev end) (j + length ps) p →
  passes_ok cfg batch group keys inc st prev j (ps ++ [p]).
Proof.
  induction 1 as [prev j|prev j q ps Hq Hps IH]; simpl; intros Hp.
  - rewrite Nat.add_0_r in Hp. constructor; [done|constructor].
  - constructor; [done|]. apply IH.
    rewrite Nat.add_succ_r in Hp. simpl.
    destruct ps as [|q' ps'] eqn:Heq; [done|].
    rewrite last_cons in Hp.
    by destruct (last (q' :: ps')).
Qed.

Lemma loop_events_snoc cfg m j ps p :
  loop_events cfg m j (ps ++ [p])
    = loop_events cfg m j ps ++ pass_events cfg m (j + length ps) p.
Proof.
  revert j. induction ps as [|q ps IH]; intros j; simpl.
  - by rewrite Nat.add_0_r, app_nil_r.
  - by rewrite IH, Nat.add_succ_r, app_assoc.
Qed.

Lemma prefix_seq_snoc (done : list nat) x n :
  done ++ [x] `prefix_of` seq 0 n → x = length done ∧ (x < n)%nat.
Proof.
  intros [rest Heq].
  assert (seq 0 n !! length done = Some x) as Hx.
  { rewrite Heq, <- app_assoc. simpl. by rewrite list_lookup_middle. }
  apply lookup_seq in Hx. simpl in Hx. lia.
Qed.

(** The scale loop of a batch, as its list of passes. *)
Lemma scale_loop_Ok cfg batch group keys inc st fi cs st' tr :
  for_fold (seq 0 (n_scales cfg)) (scale_step cfg batch group keys inc)
    ([], []) st = Ok (fi, cs) st' tr →
  ∃ passes,
    length passes = n_scales cfg ∧
    passes_ok cfg batch group keys inc st None 0 passes ∧
    events tr = loop_events cfg (method_of inc) 0 passes ∧
    reference_shape st' = reference_shape st ∧
    n_perturbations st' = n_perturbations st ∧
    image_store st' = image_store st ∧
    rng st' = rng st ∧
    shape_store st' = match last passes with
                      | Some p => p_store_next p
                      | None => shape_store st
                      end.
Proof.
  intros H.
  apply (for_fold_inv _ (λ done v s t, ∃ passes,
           length passes = length done ∧
           passes_ok cfg batch group keys inc st None 0 passes ∧
           events t = loop_events cfg (method_of inc) 0 passes ∧
           reference_shape s = reference_shape st ∧
           n_perturbations s = n_perturbations st ∧
           image_store s = image_store st ∧
           rng s = rng st ∧
           (∀ k, (length done ≤ k)%nat → algorithms s !! k = algorithms st !! k) ∧
           match last passes with
           | Some p => v.1 = p_feature_images p ∧ v.2 = p_current_out p ∧
                       shape_store s = p_store_next p
           | None => v.2 = [] ∧ shape_store s = shape_store st
           end)) in H.
  - destruct H as (passes & Hlen & Hok & Hev & ? & ? & ? & ? & _ & Hlast).
    exists passes. rewrite length_seq in Hlen. split_and!; try done.
    destruct (last passes); apply Hlast.
  - exists []. split_and!; try done. constructor.
  - intros done x [fi0 cs0] s tr0 [fi1 cs1] s' tr1 Hpre
      (passes & Hlen & Hok & Hev & Hrs & Hnp & Him & Hrng & Halgs & Hlast) Hx.
    apply prefix_seq_snoc in Hpre as (-> & Hlt).
    apply scale_step_Ok in Hx
      as (s_j & alg & alg' & shapes & new & gts & store_out & Hsj & Hfeat & Hnew
          & Hgts & Halg & Hcall & Hev1 & _ & ->).
    set (p := mkPass s_j fi1 (shape_store s ++ concat shapes) (cs0 ++ new)
                store_out cs1
                match scales cfg !! S (length done) with
                | Some s_next =>
                    scale_in_place (num_div s_next s_j) (concat cs1) store_out
                | None => store_out
                end).
    exists (passes ++ [p]). simpl in *.
    split_and!; try done.
    + rewrite !length_app. simpl. lia.
    + apply passes_ok_snoc; [done|]. simpl. rewrite Hlen.
      unfold pass_ok, p_images. simpl.
      rewrite Hrs, Him in *. split_and!; try done.
      * destruct (features_differ cfg (length done)) eqn:Hfd; [done|].
        destruct (last passes) as [q|] eqn:Hq.
        -- exists q. split; [done|]. destruct Hlast as (<- & _). done.
        -- apply last_None in Hq. subst passes.
           destruct done; [|done]. unfold features_differ in Hfd.
           by rewrite bool_decide_eq_true_2 in Hfd by (by left).
      * destruct (last passes) as [q|] eqn:Hq.
        -- destruct Hlast as (_ & <- & <-).
           assert (length done ≠ 0%nat) as Hne.
           { destruct passes; [done|]. simpl in Hlen. lia. }
           destruct (decide _); [done|]. destruct Hnew as (-> & ->).
           simpl. by rewrite !app_nil_r.
        -- apply last_None in Hq. subst passes. simpl in Hlen.
           destruct Hlast as (-> & Hst). rewrite <- Hlen in *.
           destruct (decide _); [|done]. split; [done|].
           exists shapes. simpl. rewrite Hst in *. by destruct Hnew as (? & ? & ?).
      * exists alg, alg', gts. split_and!; try done.
        rewrite <- Halgs; [done|lia].
    + rewrite events_app, Hev, Hev1, loop_events_snoc. simpl.
      by rewrite <- Hlen.
    + intros k Hk. rewrite length_app in Hk. simpl in Hk.
      rewrite list_lookup_insert_ne by lia. apply Halgs. lia.
    + by rewrite last_snoc.
Qed.

(** ** The bounding boxes of a batch *)

Lemma boxes_frame_refl st : boxes_frame st st.
Proof. repeat split. apply keys_grow_refl. Qed.

Lemma boxes_frame_trans s1 s2 s3 :
  boxes_frame s1 s2 → boxes_frame s2 s3 → boxes_frame s1 s3.
Proof.
  intros (? & ? & ? & ?) (? & ? & ? & ?).
  repeat split; try congruence. by eapply keys_grow_trans.
Qed.

Lemma attach_gt_box_Ok group i st u st' tr :
  attach_gt_box group i st = Ok u st' tr →
  ∃ img gt,
    image_store st !! i = Some img ∧
    Landmarks.get group (landmarks img) = Some gt ∧
    st' = set_image_store
            (<[i := mkImage (pixels img)
                      (Landmarks.set "__gt_bb_0" (bounding_box gt) (landmarks img))]>
               (image_store st)) st ∧
    tr = [(st, EAttach i "__gt_bb_0" (bounding_box gt))].
Proof. unfold attach_gt_box. intros H. run. simplify_eq. eauto 10. Qed.

Lemma gt_boxes_Ok group (batch : list ref) st u st' tr :
  for_each batch (attach_gt_box group) st = Ok u st' tr →
  boxes_frame st st' ∧
  n_perturbations st' = n_perturbations st ∧ rng st' = rng st ∧
  Forall2 (λ i se, ∃ img gt,
             image_store se.1 !! i = Some img ∧
             Landmarks.get group (landmarks img) = Some gt ∧
             se.2 = EAttach i "__gt_bb_0" (bounding_box gt)) batch tr ∧
  (∀ i, i ∈ batch → has_key (image_store st') i "__gt_bb_0").
Proof.
  intros H.
  apply (for_each_inv _ (λ done s t,
           boxes_frame st s ∧
           n_perturbations s = n_perturbations st ∧ rng s = rng st ∧
           Forall2 (λ i se, ∃ img gt,
                      image_store se.1 !! i = Some img ∧
                      Landmarks.get group (landmarks img) = Some gt ∧
                      se.2 = EAttach i "__gt_bb_0" (bounding_box gt)) done t ∧
           (∀ i, i ∈ done → has_key (image_store s) i "__gt_bb_0"))) in H;
    [done| |].
  - split_and!; [apply boxes_frame_refl|done|done|constructor|].
    intros i Hi. by apply elem_of_nil in Hi.
  - intros done x s tr0 v s' tr1 _ (Hfr & Hn & Hg & HF & Hk) Hx.
    apply attach_gt_box_Ok in Hx as (img & gt & Himg & Hgt & -> & ->).
    split_and!; try done.
    + eapply boxes_frame_trans; [done|]. repeat split; simpl.
      by apply keys_grow_attach.
    + apply Forall2_app; [done|]. constructor; [|constructor]. simpl. eauto.
    + intros i [Hi| ->%list_elem_of_singleton]%elem_of_app; simpl.
      * eapply keys_grow_attach; eauto.
      * by apply has_key_attach.
Qed.

Lemma perturb_once_Ok cfg group bb_group keys i j st u st' tr :
  perturb_once cfg group bb_group keys i j st = Ok u st' tr →
  ∃ img gt_s bb p_s g,
    perturb_call cfg group keys st i gt_s bb p_s ∧
    image_store st !! i = Some img ∧
    _perturb_from_bounding_box cfg gt_s bb (rng st) = (p_s, g) ∧
    st' = set_image_store
            (<[i := mkImage (pixels img)
                      (Landmarks.set (perturbed_key bb_group j) p_s (landmarks img))]>
               (image_store st)) (set_rng g st) ∧
    tr = [(st, EPerturb i gt_s bb p_s);
          (set_rng g st, EAttach i (perturbed_key bb_group j) p_s)].
Proof.
  unfold perturb_once. intros H. run.
  destruct (_perturb_from_bounding_box _ _ _ _) as [p_s g] eqn:Hp. run.
  simpl in *. simplify_eq.
  do 5 eexists. split_and!; [|done|done|done|done].
  do 3 eexists. split_and!; try done. by rewrite Hp.
Qed.

Lemma perturbs_ok_nil cfg group bb_group keys st :
  perturbs_ok cfg group bb_group keys st st [].
Proof.
  split_and!; [apply boxes_frame_refl|done|constructor|].
  intros s i a b p Hin. by apply elem_of_nil in Hin.
Qed.

Lemma perturbs_ok_app cfg group bb_group keys s1 s2 s3 tr1 tr2 :
  perturbs_ok cfg group bb_group keys s1 s2 tr1 →
  perturbs_ok cfg group bb_group keys s2 s3 tr2 →
  perturbs_ok cfg group bb_group keys s1 s3 (tr1 ++ tr2).
Proof.
  intros (Hf1 & Hn1 & Hk1 & Hc1) (Hf2 & Hn2 & Hk2 & Hc2). split_and!.
  - by eapply boxes_frame_trans.
  - congruence.
  - rewrite events_app. by apply Forall_app.
  - intros s i a b p [Hin|Hin]%elem_of_app; eauto.
Qed.

Lemma perturb_image_Ok cfg group bb_group keys i st u st' tr :
  perturb_image cfg group bb_group keys i st = Ok u st' tr →
  perturbs_ok cfg group bb_group keys st st' tr ∧
  length (of_kind KPerturb (events tr)) = Z.to_nat (n_perturbations st - 1) ∧
  (∀ j, 1 ≤ j < n_perturbations st →
        has_key (image_store st') i (perturbed_key bb_group j)).
Proof.
  unfold perturb_image. intros H. run.
  match goal with
  | Hg : for_each _ _ _ = Ok _ _ _ |- _ =>
      apply (for_each_inv _ (λ done s t,
               perturbs_ok cfg group bb_group keys st s t ∧
               length (of_kind KPerturb (events t)) = length done ∧
               (∀ j, j ∈ done →
                     has_key (image_store s) i (perturbed_key bb_group j)))) in Hg
  end.
  - destruct H as (Hok & Hlen & Hkeys). simpl. split_and!; [done| |].
    + by rewrite Hlen, length_seqZ.
    + intros j Hj. apply Hkeys, elem_of_seqZ. lia.
  - split_and!; [apply perturbs_ok_nil|done|].
    intros j Hj. by apply elem_of_nil in Hj.
  - intros done j s tr0 v s' tr1 _ (Hok & Hlen & Hkeys) Hx.
    apply perturb_once_Ok in Hx as (img & a & b & p & g & Hcall & Himg & Hp & -> & ->).
    split_and!.
    + eapply perturbs_ok_app; [done|]. split_and!.
      * repeat split; simpl. by apply keys_grow_attach.
      * done.
      * repeat constructor.
      * intros s' i' a' b' p' Hin.
        apply elem_of_cons in Hin as [Heq|Hin]; [by simplify_eq|].
        apply list_elem_of_singleton in Hin. by simplify_eq.
    + rewrite events_app, of_kind_app, !length_app, Hlen. by simpl.
    + intros j' [Hj'| ->%list_elem_of_singleton]%elem_of_app; simpl.
      * eapply keys_grow_attach; eauto.
      * by apply has_key_attach.
Qed.

Lemma perturb_batch_Ok cfg group bb_group keys (batch : list ref) st u st' tr :
  for_each batch (perturb_image cfg group bb_group keys) st = Ok u st' tr →
  perturbs_ok cfg group bb_group keys st st' tr ∧
  length (of_kind KPerturb (events tr))
    = (length batch * Z.to_nat (n_perturbations st - 1))%nat ∧
  (∀ i j, i ∈ batch → 1 ≤ j < n_perturbations st →
          has_key (image_store st') i (perturbed_key bb_group j)).
Proof.
  intros H.
  apply (for_each_inv _ (λ done s t,
           perturbs_ok cfg group bb_group keys st s t ∧
           length (of_kind KPerturb (events t))
             = (length done * Z.to_nat (n_perturbations st - 1))%nat ∧
           (∀ i j, i ∈ done → 1 ≤ j < n_perturbations st →
                   has_key (image_store s) i (perturbed_key bb_group j)))) in H;
    [done| |].
  - split_and!; [apply perturbs_ok_nil|done|].
    intros i j Hi. by apply elem_of_nil in Hi.
  - intros done x s tr0 v s' tr1 _ (Hok & Hlen & Hkeys) Hx.
    apply perturb_image_Ok in Hx as (Hok1 & Hlen1 & Hkeys1).
    assert (n_perturbations s = n_perturbations st) as Hn by apply Hok.
    rewrite Hn in *. split_and!.
    + by eapply perturbs_ok_app.
    + rewrite events_app, of_kind_app, !length_app, Hlen, Hlen1. simpl. lia.
    + intros i j [Hi| ->%list_elem_of_singleton]%elem_of_app Hj; [|eauto].
      destruct Hok1 as ((_ & _ & _ & Hgrow) & _). eauto.
Qed.

(** [resolve_bounding_boxes], taken apart: the ground truth boxes, the call
    of [keys_matching], then the perturbations or the reconciliation of
    [n_perturbations]. *)
Lemma resolve_bounding_boxes_Ok cfg group bbg (batch : list ref) st bb_group st' tr :
  resolve_bounding_boxes cfg group bbg batch st = Ok bb_group st' tr →
  ∃ tr_gt s1 i0 img0 keys tr_p,
    let n := Z.of_nat (length keys) in
    bb_group = resolved_bb_group bbg ∧
    tr = tr_gt ++ [(s1, EKeysMatching i0 ("*" +:+ bb_group +:+ "*") keys)] ++ tr_p ∧
    match bbg with
    | None => for_each batch (attach_gt_box group) st = Ok tt s1 tr_gt
    | Some _ => s1 = st ∧ tr_gt = []
    end ∧
    head batch = Some i0 ∧
    image_store s1 !! i0 = Some img0 ∧
    keys = Landmarks.keys_matching fnmatch ("*" +:+ bb_group +:+ "*") (landmarks img0) ∧
    if decide (n = 1) then
      for_each batch (perturb_image cfg group bb_group keys) s1 = Ok tt st' tr_p
    else if decide (n ≠ n_perturbations s1) then
      tr_p = [(s1, EWarn (NPerturbWarning (n_perturbations s1) n))] ∧
      st' = set_n_perturbations n s1
    else tr_p = [] ∧ st' = s1.
Proof.
  unfold resolve_bounding_boxes. intros H.
  step H Hgt.
  result_of Hgt ltac:(fun a s t =>
    assert (a = resolved_bb_group bbg ∧
            match bbg with
            | None => for_each batch (attach_gt_box group) st = Ok tt s t
            | Some _ => s = st ∧ t = []
            end) as (-> & Hgt')).
  { destruct bbg; run0; [done|]. split; [done|]. rewrite app_nil_r.
    match goal with Hg : for_each _ _ _ = Ok ?u _ _ |- _ => by destruct u end. }
  clear Hgt.
  step H Hhd. apply lift_Ok in Hhd as (Hhd & -> & ->).
  step H Hkeys. apply keys_matching_Ok in Hkeys as (img0 & Himg0 & -> & -> & ->).
  step H Hget. apply get_Ok in Hget as (-> & -> & ->).
  step H Hp. run0.
  do 6 eexists. split_and!; [done| |exact Hgt'|done|done|done|].
  - simpl. by rewrite app_nil_r.
  - repeat case_decide; run; try done.
    match goal with Hg : for_each _ _ _ = Ok ?u _ _ |- _ => by destruct u end.
Qed.

(** ** One batch *)

Lemma gather_landmarks_Ok (group : string) (batch : list ref) st shapes st' tr :
  for_list batch (λ i, read_landmark i group) st = Ok shapes st' tr →
  Forall2 (λ i s, ∃ img, image_store st !! i = Some img ∧
                         Landmarks.get group (landmarks img) = Some s)
          batch shapes ∧
  st' = st ∧ tr = [].
Proof.
  intros H.
  apply (for_list_inv _ (λ done out s t,
           Forall2 (λ i s, ∃ img, image_store st !! i = Some img ∧
                                  Landmarks.get group (landmarks img) = Some s)
                   done out ∧
           s = st ∧ t = [])) in H; [done|by split|].
  intros done out x s tr0 y s' tr1 _ (HF & -> & ->) Hx. run.
  split; [|done]. apply Forall2_app; [done|]. constructor; [|constructor]. eauto.
Qed.

(** [train_batch], taken apart: the group, the reference shape, the
    rescaling, the bounding boxes, the second call of [keys_matching] and the
    scale loop. *)
Lemma train_batch_Ok cfg bbg (bs : option nat) (batch : list ref) group inc
    st g st' tr :
  train_batch cfg bbg bs batch group inc st = Ok g st' tr →
  ∃ tr_ref s0 rs store1 rescaled bb_group s2 tr_bb i0 img0 keys fi cs tr_loop,
    match group with
    | Some g0 => g = g0
    | None =>
        ∃ i img, head batch = Some i ∧ image_store st !! i = Some img ∧
                 head (Landmarks.group_labels (landmarks img)) = Some g
    end ∧
    match reference_shape st with
    | Some _ => s0 = st ∧ tr_ref = []
    | None =>
        ∃ shapes,
          Forall2 (λ i s, ∃ img, image_store st !! i = Some img ∧
                                 Landmarks.get g (landmarks img) = Some s)
                  batch shapes ∧
          tr_ref = (if bs is Some _ then [(st, EWarn RefShapeWarning)] else [])
                     ++ [(st, ERefShape shapes)] ∧
          s0 = set_reference_shape
                 (compute_reference_shape shapes (diagonal cfg)) st
    end ∧
    reference_shape s0 = Some rs ∧
    rescale_images_to_reference_shape (image_store s0) batch g rs
      = (store1, rescaled) ∧
    resolve_bounding_boxes cfg g bbg rescaled (set_image_store store1 s0)
      = Ok bb_group s2 tr_bb ∧
    head rescaled = Some i0 ∧
    image_store s2 !! i0 = Some img0 ∧
    keys = Landmarks.keys_matching fnmatch ("*" +:+ bb_group +:+ "*")
             (landmarks img0) ∧
    for_fold (seq 0 (n_scales cfg)) (scale_step cfg rescaled g keys inc)
      ([], []) s2 = Ok (fi, cs) st' tr_loop ∧
    tr = tr_ref ++ [(s0, ERescale batch rescaled)] ++ tr_bb ++
         [(s2, EKeysMatching i0 ("*" +:+ bb_group +:+ "*") keys)] ++ tr_loop.
Proof.
  unfold train_batch. intros H.
  step H Hg.
  result_of Hg ltac:(fun a s t =>
    assert (s = st ∧ t = [] ∧
            match group with
            | Some g0 => a = g0
            | None =>
                ∃ i img, head batch = Some i ∧ image_store st !! i = Some img ∧
                         head (Landmarks.group_labels (landmarks img)) = Some a
            end) as (-> & -> & Hgroup)).
  { destruct group; run; eauto 10. }
  clear Hg. step H Hget. apply get_Ok in Hget as (-> & -> & ->).
  step H Href.
  result_of Href ltac:(fun a s t =>
    match type of H with context [resolve_bounding_boxes cfg ?g' _ _] =>
    assert (match reference_shape st with
            | Some _ => s = st ∧ t = []
            | None =>
                ∃ shapes,
                  Forall2 (λ i s, ∃ img, image_store st !! i = Some img ∧
                                         Landmarks.get g' (landmarks img) = Some s)
                          batch shapes ∧
                  t = (if bs is Some _ then [(st, EWarn RefShapeWarning)] else [])
                        ++ [(st, ERefShape shapes)] ∧
                  s = set_reference_shape
                        (compute_reference_shape shapes (diagonal cfg)) st
            end) as Href'
    end).
  { destruct (reference_shape st); [by run0|].
    step Href Hw. step Href Hl.
    destruct bs; unfold warn in Hw; run0;
      apply gather_landmarks_Ok in Hl as (? & -> & ->);
      eexists; split_and!; try done. }
  clear Href.
  step H Hget. apply get_Ok in Hget as (-> & -> & ->).
  step H Hrs. apply lift_Ok in Hrs as (Hrs & -> & ->).
  destruct (rescale_images_to_reference_shape _ _ _ _) as [store1 rescaled] eqn:Hresc.
  step H Hem. apply emit_Ok in Hem as (-> & ->).
  step H Hmod. apply modify_Ok in Hmod as (-> & ->).
  step H Hbb.
  step H Hhd. apply lift_Ok in Hhd as (Hhd & -> & ->).
  step H Hkeys. apply keys_matching_Ok in Hkeys as (img0 & Himg0 & -> & -> & ->).
  step H Hloop. run0.
  match type of Hloop with _ = Ok ?v _ _ => destruct v as [fi cs] end.
  do 14 eexists. split_and!; try eassumption; try done.
  simpl. by rewrite !app_nil_r.
Qed.

(** ** Which events a part of a batch can leave *)

Lemma gt_boxes_kinds group (batch : list ref) st u st' tr :
  for_each batch (attach_gt_box group) st = Ok u st' tr →
  Forall (λ e, kind_of e ∈ [KAttach]) (events tr).
Proof.
  intros (_ & _ & _ & HF & _)%gt_boxes_Ok. unfold events.
  apply Forall_fmap. induction HF as [|i se ? ? (? & ? & ? & ? & He) _ IH];
    constructor; [|done]. simpl. rewrite He. repeat constructor.
Qed.

(** One list of kinds within another. *)
Ltac kinds_incl :=
  let k := fresh "k" in
  let Hk := fresh "Hk" in
  intros k Hk;
  repeat (apply elem_of_cons in Hk as [->|Hk]);
  [repeat constructor..|by apply elem_of_nil in Hk].

(** A kind that is not in a list of kinds. *)
Ltac kind_absent :=
  let Hin := fresh "Hin" in
  intros Hin;
  repeat (apply elem_of_cons in Hin as [?|Hin]; [done|]);
  by apply elem_of_nil in Hin.

Lemma Forall_kinds_weaken (ks ks' : list kind) evs :
  ks ⊆ ks' → Forall (λ e, kind_of e ∈ ks) evs → Forall (λ e, kind_of e ∈ ks') evs.
Proof. intros Hsub HF. eapply Forall_impl; [done|]. intros e He. by apply Hsub. Qed.

Lemma resolve_bounding_boxes_kinds cfg group bbg (batch : list ref) st bb st' tr :
  resolve_bounding_boxes cfg group bbg batch st = Ok bb st' tr →
  Forall (λ e, kind_of e ∈ [KAttach; KKeysMatching; KPerturb; KWarn]) (events tr).
Proof.
  intros (tr_gt & s1 & i0 & img0 & keys & tr_p & _ & -> & Hgt & _ & _ & _ & Hp)
    %resolve_bounding_boxes_Ok.
  rewrite !events_app. apply Forall_app. split; [|apply Forall_app; split].
  - destruct bbg as [?|]; [destruct Hgt as (_ & ->); constructor|].
    eapply Forall_kinds_weaken; [|by eapply gt_boxes_kinds]. kinds_incl.
  - repeat constructor.
  - repeat case_decide.
    + apply perturb_batch_Ok in Hp as ((_ & _ & Hk & _) & _).
      eapply Forall_kinds_weaken; [|done]. kinds_incl.
    + destruct Hp as (-> & _). repeat constructor.
    + destruct Hp as (-> & _). constructor.
Qed.

Lemma resolve_bounding_boxes_frame cfg group bbg (batch : list ref) st bb st' tr :
  resolve_bounding_boxes cfg group bbg batch st = Ok bb st' tr →
  boxes_frame st st'.
Proof.
  intros (tr_gt & s1 & i0 & img0 & keys & tr_p & _ & -> & Hgt & _ & _ & _ & Hp)
    %resolve_bounding_boxes_Ok.
  apply (boxes_frame_trans _ s1).
  - destruct bbg as [?|]; [destruct Hgt as (-> & _); apply boxes_frame_refl|].
    by apply gt_boxes_Ok in Hgt as (? & _).
  - repeat case_decide.
    + by apply perturb_batch_Ok in Hp as ((? & _) & _).
    + destruct Hp as (_ & ->). repeat split. apply keys_grow_refl.
    + destruct Hp as (_ & ->). apply boxes_frame_refl.
Qed.

(** A projection that keeps one kind of event finds nothing among events of
    other kinds. *)
Lemma omap_other_kinds {B} (f : event → option B) (k : kind) (ks : list kind) evs :
  (∀ e, kind_of e ≠ k → f e = None) →
  Forall (λ e, kind_of e ∈ ks) evs → k ∉ ks → omap f evs = [].
Proof.
  intros Hf HF Hk. induction HF as [|e evs He _ IH]; [done|].
  change (e :: evs) with ([e] ++ evs). rewrite omap_app, IH, app_nil_r.
  simpl. rewrite Hf; [done|]. intros Heq. by rewrite Heq in He.
Qed.

Lemma loop_events_kinds cfg m j ps :
  Forall (λ e, kind_of e ∈ in_loop) (loop_events cfg m j ps).
Proof.
  revert j. induction ps as [|p ps IH]; intros j; [constructor|].
  cbn [loop_events]. apply Forall_app. split; [|done].
  unfold pass_events. repeat (apply Forall_app; split).
  - destruct (features_differ cfg j); repeat constructor.
  - destruct (negb _); repeat constructor.
  - repeat constructor.
  - destruct (scales cfg !! S j); [|constructor].
    apply Forall_fmap, Forall_true. intros x. simpl. repeat constructor.
Qed.

(** What the resolution of the bounding boxes comes to: one call of
    [keys_matching] on the first image, the warning of the reconciliation,
    the new [n_perturbations]; and with other than one bounding box, no call
    of the perturbation strategy and the first image as it was at the call
    of [keys_matching]. *)
Lemma resolve_bounding_boxes_summary cfg group bbg (batch : list ref) st bb st' tr :
  resolve_bounding_boxes cfg group bbg batch st = Ok bb st' tr →
  ∃ i0 img0 keys,
    let n := Z.of_nat (length keys) in
    head batch = Some i0 ∧
    keys = Landmarks.keys_matching fnmatch ("*" +:+ bb +:+ "*") (landmarks img0) ∧
    keys_calls (events tr) = [keys] ∧
    warnings (events tr) = reconcile_warning (n_perturbations st) n ∧
    n_perturbations st' = (if decide (n = 1) then n_perturbations st else n) ∧
    (n ≠ 1 → of_kind KPerturb (events tr) = [] ∧
             image_store st' !! i0 = Some img0).
Proof.
  intros H. pose proof H as
    (tr_gt & s1 & i0 & img0 & keys & tr_p & -> & -> & Hgt & Hhd & Himg & -> & Hp)
    %resolve_bounding_boxes_Ok.
  assert (n_perturbations s1 = n_perturbations st ∧
          Forall (λ e, kind_of e ∈ [KAttach]) (events tr_gt)) as (Hnp & Hkgt).
  { destruct bbg as [?|].
    - destruct Hgt as (-> & ->). split; [done|constructor].
    - split; [by apply gt_boxes_Ok in Hgt as (_ & ? & _)|by eapply gt_boxes_kinds]. }
  exists i0, img0,
    (Landmarks.keys_matching fnmatch ("*" +:+ resolved_bb_group bbg +:+ "*")
       (landmarks img0)).
  unfold keys_calls, warnings, reconcile_warning.
  rewrite !events_app, !omap_app, !of_kind_app.
  rewrite (omap_other_kinds _ KKeysMatching [KAttach] (events tr_gt));
    [|by intros []|done|kind_absent].
  rewrite (omap_other_kinds _ KWarn [KAttach] (events tr_gt));
    [|by intros []|done|kind_absent].
  rewrite (of_kind_none KPerturb [KAttach] (events tr_gt)); [|done|kind_absent].
  simpl. rewrite <- Hnp.
  destruct (decide (Z.of_nat (length _) = 1)) as [Hone|Hone].
  - apply perturb_batch_Ok in Hp as ((_ & Hn & Hk & _) & _).
    rewrite (omap_other_kinds _ KKeysMatching [KPerturb; KAttach] (events tr_p));
      [|by intros []|done|kind_absent].
    rewrite (omap_other_kinds _ KWarn [KPerturb; KAttach] (events tr_p));
      [|by intros []|done|kind_absent].
    by split_and!.
  - destruct (decide (Z.of_nat (length _) ≠ n_perturbations s1));
      destruct Hp as (-> & ->); split_and!; try done. simpl. lia.
Qed.

(** A batch, as what comes before its scale loop and the passes of the
    loop. *)
Lemma train_batch_loop cfg bbg bs (batch : list ref) group inc st g st' tr :
  train_batch cfg bbg bs batch group inc st = Ok g st' tr →
  ∃ pre rescaled s2 keys passes,
    events tr = pre ++ loop_events cfg (method_of inc) 0 passes ∧
    Forall (λ e, kind_of e ∈ before_loop) pre ∧
    ERescale batch rescaled ∈ pre ∧
    last (keys_calls pre) = Some keys ∧
    length passes = n_scales cfg ∧
    passes_ok cfg rescaled g keys inc s2 None 0 passes ∧
    image_store st' = image_store s2 ∧
    reference_shape st' = reference_shape s2 ∧
    n_perturbations st' = n_perturbations s2 ∧
    shape_store st' = match last passes with
                      | Some p => p_store_next p
                      | None => shape_store s2
                      end.
Proof.
  intros (tr_ref & s0 & rs & store1 & rescaled & bb & s2 & tr_bb & i0 & img0
          & keys & fi & cs & tr_loop & _ & Href & _ & _ & Hbb & _ & _ & Hkeys
          & Hloop & ->)%train_batch_Ok.
  apply scale_loop_Ok in Hloop
    as (passes & Hlen & Hok & Hev & Hrs & Hnp & Him & _ & Hst).
  apply resolve_bounding_boxes_kinds in Hbb.
  exists (events tr_ref ++ [ERescale batch rescaled] ++ events tr_bb
            ++ [EKeysMatching i0 ("*" +:+ bb +:+ "*") keys]),
    rescaled, s2, keys, passes.
  split_and!; try done.
  - rewrite !events_app, Hev. simpl.
    by repeat (rewrite <- app_assoc; simpl).
  - apply Forall_app. split; [|apply Forall_app; split; [|apply Forall_app; split]].
    + destruct (reference_shape st).
      * destruct Href as (_ & ->). constructor.
      * destruct Href as (shapes & _ & -> & _). destruct bs; repeat constructor.
    + repeat constructor.
    + eapply Forall_kinds_weaken; [|done]. kinds_incl.
    + repeat constructor.
  - apply elem_of_app. right. apply elem_of_app. left. constructor.
  - unfold keys_calls. rewrite !app_assoc, omap_app. simpl. by rewrite last_snoc.
Qed.

Lemma passes_ok_lookup cfg batch group keys inc st prev j ps k p :
  passes_ok cfg batch group keys inc st prev j ps →
  ps !! k = Some p →
  pass_ok cfg batch group keys inc st
    (match k with O => prev | S k' => ps !! k' end) (j + k) p.
Proof.
  intros Hok. revert k. induction Hok as [prev j|prev j q ps Hq Hps IH];
    intros k Hk; [done|].
  destruct k as [|k]; simpl in *.
  - simplify_eq. by rewrite Nat.add_0_r.
  - apply IH in Hk. rewrite Nat.add_succ_r. by destruct k.
Qed.

(** ** The calls of [train] and [increment] *)

Lemma stage_calls_app evs1 evs2 :
  stage_calls (evs1 ++ evs2) = stage_calls evs1 ++ stage_calls evs2.
Proof. apply omap_app. Qed.

Lemma stage_calls_none (ks : list kind) evs :
  Forall (λ e, kind_of e ∈ ks) evs → KStage ∉ ks → stage_calls evs = [].
Proof.
  intros HF Hk. induction HF as [|e evs He _ IH]; [done|].
  change (e :: evs) with ([e] ++ evs). rewrite stage_calls_app, IH, app_nil_r.
  by destruct e.
Qed.

Lemma stage_calls_fmap_apply ratio (refs : list ref) :
  stage_calls (EApplyInplace ratio <$> refs) = [].
Proof. by induction refs. Qed.

Lemma stage_calls_pass cfg m j p : stage_calls (pass_events cfg m j p) = [(m, j)].
Proof.
  unfold pass_events. rewrite !stage_calls_app.
  destruct (features_differ cfg j), (negb (num_is_one (p_scale p))),
    (scales cfg !! S j); simpl; by rewrite ?stage_calls_fmap_apply.
Qed.

Lemma stage_calls_loop cfg m j ps :
  stage_calls (loop_events cfg m j ps) = (λ k, (m, k)) <$> seq j (length ps).
Proof.
  revert j. induction ps as [|p ps IH]; intros j; simpl; [done|].
  by rewrite stage_calls_app, stage_calls_pass, IH.
Qed.

Lemma train_batch_stage_calls cfg bbg bs (batch : list ref) group inc st g st' tr :
  train_batch cfg bbg bs batch group inc st = Ok g st' tr →
  stage_calls (events tr) = every_scale cfg (method_of inc).
Proof.
  intros (tr_ref & s0 & rs & store1 & rescaled & bb & s2 & tr_bb & i0 & img0
          & keys & fi & cs & tr_loop & _ & Href & _ & _ & Hbb & _ & _ & _
          & Hloop & ->)%train_batch_Ok.
  apply scale_loop_Ok in Hloop as (passes & Hlen & _ & Hev & _).
  apply resolve_bounding_boxes_kinds in Hbb.
  rewrite !events_app, !stage_calls_app, Hev, stage_calls_loop, Hlen.
  rewrite (stage_calls_none _ _ Hbb) by kind_absent.
  assert (stage_calls (events tr_ref) = []) as ->.
  { destruct (reference_shape st).
    - by destruct Href as (_ & ->).
    - destruct Href as (shapes & _ & -> & _). by destruct bs. }
  done.
Qed.

Lemma train_batches_stage_calls cfg bbg bs k (batches : list (list ref))
    group inc st u st' tr :
  train_batches cfg bbg bs k batches group inc st = Ok u st' tr →
  stage_calls (events tr) =
    match batches with
    | [] => []
    | _ :: rest =>
        every_scale cfg (method_of (if decide (0 < k)%nat then true else inc)) ++
        every_scale_times cfg Increment (length rest)
    end.
Proof.
  revert k group inc st tr.
  induction batches as [|b rest IH]; intros k group inc st tr H; simpl in H.
  - by run0.
  - step H Hb. apply train_batch_stage_calls in Hb.
    apply IH in H. rewrite events_app, stage_calls_app, Hb, H.
    f_equal. destruct rest as [|b' rest']; [done|].
    unfold every_scale_times. simpl. by case_decide; [|lia].
Qed.

Lemma _train_stage_calls cfg images group bbg inc bs st u st' tr :
  _train cfg images group bbg inc bs st = Ok u st' tr →
  stage_calls (events tr) =
    match image_batches images bs with
    | [] => []
    | _ :: rest =>
        every_scale cfg (method_of inc) ++
        every_scale_times cfg Increment (length rest)
    end.
Proof. unfold _train. intros H. by apply train_batches_stage_calls in H. Qed.

Lemma _setup_algorithms_silent cfg stage_args st u st' tr :
  _setup_algorithms cfg stage_args st = Ok u st' tr → tr = [].
Proof.
  unfold _setup_algorithms. intros H.
  apply (for_each_inv _ (λ _ _ t, t = [])) in H; [done|done|].
  intros done x s tr0 v s' tr1 _ -> Hx. by run0.
Qed.

(** C1.  Over the life of a fitter, the first batch of the constructor's
    training calls [train] on the algorithm of every scale, in order; every
    batch after it, in the same call or in any later call of [increment],
    calls [increment] on the algorithm of every scale instead; these are all
    the calls made on the algorithms, so [train] is not called again. *)
Theorem first_batch_trains_then_increment cfg stage_args rs0 np0 first later
    st u st' tr :
  session cfg stage_args rs0 np0 first later st = Ok u st' tr →
  stage_calls (events tr) =
    match image_batches (call_images first) (call_batch_size first) with
    | [] => []
    | _ :: rest =>
        every_scale cfg Train ++ every_scale_times cfg Increment (length rest)
    end ++
    concat ((λ c, every_scale_times cfg Increment
                    (length (image_batches (call_images c) (call_batch_size c))))
            <$> later).
Proof.
  unfold session, __init__. intros H.
  step H Hinit. step Hinit Hmod. step Hinit Hsetup.
  apply modify_Ok in Hmod as (-> & ->).
  apply _setup_algorithms_silent in Hsetup as ->.
  apply _train_stage_calls in Hinit.
  rewrite !events_app, !stage_calls_app, Hinit. simpl. f_equal.
  clear Hinit.
  match goal with
  | H : for_each _ _ _ = Ok _ _ _ |- _ =>
      apply (for_each_inv _ (λ done _ t,
               stage_calls (events t) =
                 concat ((λ c, every_scale_times cfg Increment
                            (length (image_batches (call_images c)
                                                   (call_batch_size c))))
                         <$> done))) in H; [done|done|]
  end.
  intros done c s tr0 v s' tr1 _ Hdone Hc.
  apply _train_stage_calls in Hc.
  rewrite events_app, stage_calls_app, Hdone, Hc, fmap_app, concat_app.
  f_equal. simpl. rewrite app_nil_r.
  by destruct (image_batches _ _).
Qed.

(** ** Feature extraction across scales *)

Lemma feature_calls_app evs1 evs2 :
  feature_calls (evs1 ++ evs2) = feature_calls evs1 ++ feature_calls evs2.
Proof. apply omap_app. Qed.

Lemma stage_images_app evs1 evs2 :
  stage_images (evs1 ++ evs2) = stage_images evs1 ++ stage_images evs2.
Proof. apply omap_app. Qed.

Lemma feature_calls_pass cfg m j p :
  feature_calls (pass_events cfg m j p)
    = if features_differ cfg j then [j] else [].
Proof.
  unfold pass_events. rewrite !feature_calls_app.
  assert (∀ r (l : list ref), feature_calls (EApplyInplace r <$> l) = []) as Hap
    by (intros r l; by induction l).
  destruct (features_differ cfg j), (negb (num_is_one (p_scale p))),
    (scales cfg !! S j); simpl; by rewrite ?Hap.
Qed.

Lemma feature_calls_loop cfg m j ps :
  feature_calls (loop_events cfg m j ps)
    = filter (λ k, features_differ cfg k = true) (seq j (length ps)).
Proof.
  revert j. induction ps as [|p ps IH]; intros j; simpl; [done|].
  rewrite feature_calls_app, feature_calls_pass, IH, filter_cons.
  destruct (features_differ cfg j); by case_decide.
Qed.

Lemma stage_images_pass cfg m j p :
  stage_images (pass_events cfg m j p) = [p_images p].
Proof.
  unfold pass_events. rewrite !stage_images_app.
  assert (∀ r (l : list ref), stage_images (EApplyInplace r <$> l) = []) as Hap
    by (intros r l; by induction l).
  destruct (features_differ cfg j), (negb (num_is_one (p_scale p))),
    (scales cfg !! S j); simpl; by rewrite ?Hap.
Qed.

Lemma stage_images_loop cfg m j ps :
  stage_images (loop_events cfg m j ps) = p_images <$> ps.
Proof.
  revert j. induction ps as [|p ps IH]; intros j; simpl; [done|].
  by rewrite stage_images_app, stage_images_pass, IH.
Qed.

Lemma passes_images cfg batch group keys inc st prev j ps :
  passes_ok cfg batch group keys inc st prev j ps →
  p_images <$> ps
    = zip_with level_images (drop j (scales cfg)) (p_feature_images <$> ps).
Proof.
  induction 1 as [prev j|prev j p ps Hp Hps IH].
  - simpl. by destruct (drop j (scales cfg)).
  - destruct Hp as (Hs & _). rewrite (drop_S _ _ _ Hs), !fmap_cons.
    cbn [zip_with]. by rewrite <- IH.
Qed.

(** C5.  In every batch, [compute_features] is called at scale [j] exactly
    when [j] is 0 or the feature function of scale [j] is not the one of
    scale [j - 1], once, in the order of the scales.  The algorithm of every
    scale gets the feature images of its scale, rescaled when the scale is not
    1; these are the feature images of the scale before when the feature
    function is the same, and else are computed from the images of the
    rescaled batch.  With two scales and one feature function,
    [compute_features] is called once, at scale 0. *)
Theorem features_extracted_when_they_differ cfg bbg bs (batch : list ref)
    group inc st g st' tr :
  train_batch cfg bbg bs batch group inc st = Ok g st' tr →
  feature_calls (events tr)
    = filter (λ j, j = 0%nat ∨ features cfg !! j ≠ features cfg !! (j - 1)%nat)
             (seq 0 (n_scales cfg)) ∧
  (n_scales cfg = 2%nat → features cfg !! 1%nat = features cfg !! 0%nat →
   feature_calls (events tr) = [0%nat]) ∧
  ∃ rescaled feature_images,
    ERescale batch rescaled ∈ events tr ∧
    length feature_images = n_scales cfg ∧
    stage_images (events tr)
      = zip_with level_images (scales cfg) feature_images ∧
    ∀ j fi, feature_images !! j = Some fi →
      if decide (j = 0%nat ∨ features cfg !! j ≠ features cfg !! (j - 1)%nat)
      then ∃ f imgs,
             features cfg !! j = Some f ∧
             Forall2 (λ i img, image_store st' !! i = Some img) rescaled imgs ∧
             fi = compute_features imgs f
      else feature_images !! (j - 1)%nat = Some fi.
Proof.
  intros (pre & rescaled & s2 & keys & passes & Hev & Hpre & Hresc & _ & Hlen
          & Hok & Him & _)%train_batch_loop.
  assert (feature_calls (events tr)
          = filter (λ j, j = 0%nat ∨ features cfg !! j ≠ features cfg !! (j - 1)%nat)
                   (seq 0 (n_scales cfg))) as Hcalls.
  { rewrite Hev, feature_calls_app, feature_calls_loop, Hlen.
    unfold feature_calls at 1.
    rewrite (omap_other_kinds _ KFeatures before_loop); [|by intros []|done|kind_absent].
    simpl. apply list_filter_iff. intros j. unfold features_differ.
    by rewrite bool_decide_eq_true. }
  split; [done|]. split.
  { intros Hn Hsame. rewrite Hcalls, Hn. simpl.
    rewrite !filter_cons, filter_nil. simpl.
    by rewrite decide_False by (intros [?|?]; done). }
  exists rescaled, (p_feature_images <$> passes). split_and!.
  - rewrite Hev. apply elem_of_app. by left.
  - by rewrite length_fmap.
  - rewrite Hev, stage_images_app, stage_images_loop.
    unfold stage_images at 1.
    rewrite (omap_other_kinds _ KStage before_loop); [|by intros []|done|kind_absent].
    simpl. by rewrite (passes_images _ _ _ _ _ _ _ _ _ Hok).
  - intros j fi Hfi. apply list_lookup_fmap_Some in Hfi as (p & -> & Hp).
    pose proof (passes_ok_lookup _ _ _ _ _ _ _ _ _ _ _ Hok Hp) as (_ & Hf & Hprev & _).
    simpl in *. unfold features_differ in Hf.
    destruct (decide (j = 0%nat ∨ _)) as [Hd|Hd].
    + rewrite bool_decide_eq_true_2 in Hf by done. by rewrite Him.
    + rewrite bool_decide_eq_false_2 in Hf by done.
      destruct Hf as (q & Hq & ->).
      destruct j as [|j]; [done|]. simpl. rewrite Nat.sub_0_r.
      by rewrite list_lookup_fmap, Hq.
Qed.

(** ** Shapes from one scale to the next *)

Lemma scale_in_place_lookup ratio (refs : list ref) store r :
  NoDup refs →
  scale_in_place ratio refs store !! r
    = if decide (r ∈ refs) then Scale ratio <$> store !! r else store !! r.
Proof.
  unfold scale_in_place. revert store.
  induction refs as [|x refs IH]; intros store Hnd; cbn [foldl].
  - destruct (decide (r ∈ [])) as [Hin|]; [by apply elem_of_nil in Hin|done].
  - apply NoDup_cons in Hnd as (Hx & Hnd). rewrite IH by done.
    destruct (decide (r ∈ refs)) as [Hin|Hin],
      (decide (r ∈ x :: refs)) as [Hin'|Hin'].
    + rewrite list_lookup_alter_ne; [done|]. by intros ->.
    + destruct Hin'. by constructor.
    + apply elem_of_cons in Hin' as [->|?]; [|done].
      apply list_lookup_alter_eq.
    + rewrite list_lookup_alter_ne; [done|]. intros ->. apply Hin'. constructor.
Qed.

Lemma stage_shapes_app evs1 evs2 :
  stage_shapes (evs1 ++ evs2) = stage_shapes evs1 ++ stage_shapes evs2.
Proof. apply omap_app. Qed.

Lemma apply_calls_app evs1 evs2 :
  apply_calls (evs1 ++ evs2) = apply_calls evs1 ++ apply_calls evs2.
Proof. apply omap_app. Qed.

Lemma stage_shapes_pass cfg m j p : stage_shapes (pass_events cfg m j p) = [io_of p].
Proof.
  unfold pass_events. rewrite !stage_shapes_app.
  assert (∀ r (l : list ref), stage_shapes (EApplyInplace r <$> l) = []) as Hap
    by (intros r l; by induction l).
  destruct (features_differ cfg j), (negb (num_is_one (p_scale p))),
    (scales cfg !! S j); simpl; by rewrite ?Hap.
Qed.

Lemma stage_shapes_loop cfg m j ps :
  stage_shapes (loop_events cfg m j ps) = io_of <$> ps.
Proof.
  revert j. induction ps as [|p ps IH]; intros j; simpl; [done|].
  by rewrite stage_shapes_app, stage_shapes_pass, IH.
Qed.

Lemma apply_calls_pass cfg m j p :
  apply_calls (pass_events cfg m j p)
    = match scales cfg !! S j with
      | Some s_next =>
          (λ x, (num_div s_next (p_scale p), x)) <$> concat (p_current_out p)
      | None => []
      end.
Proof.
  unfold pass_events. rewrite !apply_calls_app.
  assert (∀ r (l : list ref),
            apply_calls (EApplyInplace r <$> l) = (λ x, (r, x)) <$> l) as Hap.
  { intros r l. induction l as [|x l IH]; [done|].
    rewrite !fmap_cons, <- IH. done. }
  destruct (features_differ cfg j), (negb (num_is_one (p_scale p))),
    (scales cfg !! S j); simpl; by rewrite ?Hap.
Qed.

Lemma apply_calls_loop cfg batch group keys inc st m prev j ps :
  passes_ok cfg batch group keys inc st prev j ps →
  apply_calls (loop_events cfg m j ps) = applies_after cfg j (io_of <$> ps).
Proof.
  induction 1 as [prev j|prev j p ps Hp Hps IH]; [done|].
  rewrite fmap_cons. cbn [loop_events applies_after io_of].
  rewrite apply_calls_app, apply_calls_pass, IH.
  destruct Hp as (-> & _). by destruct (scales cfg !! S j).
Qed.

(** C6.  In every batch the algorithms are called once per scale, in order.
    Between the call at a scale [j] that has a next scale and the call at
    scale [j + 1], [apply_inplace] of the scale transform of ratio
    [scales[j + 1] / scales[j]] is called on every estimate of every image
    that the algorithm of scale [j] returned: the algorithm of scale [j + 1]
    is given the same shape objects, in the shape store these calls leave.
    After the last scale there is no such call: the batch ends with the shape
    store the last algorithm returned.  Where no shape object occurs twice
    among the estimates, the store that the calls leave holds every estimate
    transformed once and every other shape as it was. *)
Theorem shapes_rescaled_between_scales cfg bbg bs (batch : list ref)
    group inc st g st' tr :
  train_batch cfg bbg bs batch group inc st = Ok g st' tr →
  length (stage_shapes (events tr)) = n_scales cfg ∧
  (∀ j s s_next store_in current_in store_out current_out
     store_in' current_in' store_out' current_out',
     stage_shapes (events tr) !! j
       = Some (store_in, current_in, store_out, current_out) →
     stage_shapes (events tr) !! S j
       = Some (store_in', current_in', store_out', current_out') →
     scales cfg !! j = Some s → scales cfg !! S j = Some s_next →
     current_in' = current_out ∧
     store_in' = scale_in_place (num_div s_next s) (concat current_out) store_out) ∧
  apply_calls (events tr) = applies_after cfg 0 (stage_shapes (events tr)) ∧
  (∀ store_in current_in store_out current_out,
     last (stage_shapes (events tr))
       = Some (store_in, current_in, store_out, current_out) →
     shape_store st' = store_out) ∧
  (∀ ratio refs store r,
     NoDup refs →
     scale_in_place ratio refs store !! r
       = if decide (r ∈ refs) then Scale ratio <$> store !! r else store !! r).
Proof.
  intros (pre & rescaled & s2 & keys & passes & Hev & Hpre & _ & _ & Hlen
          & Hok & _ & _ & _ & Hst)%train_batch_loop.
  assert (stage_shapes (events tr) = io_of <$> passes) as Hio.
  { rewrite Hev, stage_shapes_app, stage_shapes_loop. unfold stage_shapes at 1.
    by rewrite (omap_other_kinds _ KStage before_loop);
      [|by intros []|done|kind_absent]. }
  rewrite Hio. split_and!.
  - by rewrite length_fmap.
  - intros j s s_next si ci so co si' ci' so' co' Hj HSj Hs Hs'.
    apply list_lookup_fmap_Some in Hj as (p & Hp & Hj).
    apply list_lookup_fmap_Some in HSj as (p' & Hp' & HSj).
    pose proof (passes_ok_lookup _ _ _ _ _ _ _ _ _ _ _ Hok Hj)
      as (Hsp & _ & _ & _ & Hnext).
    pose proof (passes_ok_lookup _ _ _ _ _ _ _ _ _ _ _ Hok HSj)
      as (_ & _ & Hprev & _).
    simpl in *. rewrite Hj in Hprev. destruct Hprev as (_ & Hci & Hsi).
    rewrite Hs' in Hnext. unfold io_of in *. simplify_eq.
    by rewrite Hci, Hsi, Hnext.
  - rewrite Hev, apply_calls_app. unfold apply_calls at 1.
    rewrite (omap_other_kinds _ KApplyInplace before_loop);
      [|by intros []|done|kind_absent].
    simpl. by eapply apply_calls_loop.
  - intros si ci so co Hlast. rewrite fmap_last in Hlast.
    destruct (last passes) as [p|] eqn:Hp; [|done].
    simpl in Hlast. unfold io_of in Hlast. simplify_eq.
    rewrite Hst. rewrite last_lookup in Hp.
    pose proof (passes_ok_lookup _ _ _ _ _ _ _ _ _ _ _ Hok Hp)
      as (_ & _ & _ & _ & Hnext).
    simpl in Hnext. rewrite Hnext, lookup_ge_None_2; [done|].
    unfold n_scales in Hlen. lia.
  - apply scale_in_place_lookup.
Qed.

(** ** The number of estimates per image *)

Lemma each_has_Forall2 {A B} n (current : list (list A)) (current' : list (list B)) :
  each_has n current →
  Forall2 (λ l l', length l = length l') current current' →
  each_has n current'.
Proof.
  unfold each_has. intros Hn HF.
  induction HF as [|l l' ? ? Hl _ IH]; [constructor|].
  apply Forall_cons in Hn as (Hn & Hrest).
  constructor; [congruence|by apply IH].
Qed.

Lemma passes_each_has cfg batch group keys inc st prev j ps :
  stage_keeps_counts →
  passes_ok cfg batch group keys inc st prev j ps →
  match prev with
  | Some q => each_has (length keys) (p_current_out q)
  | None => True
  end →
  Forall (λ p, each_has (length keys) (p_current_in p) ∧
               each_has (length keys) (p_current_out p)) ps.
Proof.
  intros Hkeep. induction 1 as [prev j|prev j p ps Hp Hps IH]; intros Hprev;
    [constructor|].
  assert (each_has (length keys) (p_current_in p)) as Hin.
  { destruct Hp as (_ & _ & Hstart & _). destruct prev as [q|].
    - destruct Hstart as (_ & -> & _). done.
    - destruct Hstart as (_ & shapes & Hal & Hlen & _).
      apply (each_has_Forall2 _ shapes); [|done].
      clear Hlen. induction Hal as [|img row ? ? Hrow _ IHal]; constructor; [|done].
      symmetry. by eapply Forall2_length. }
  assert (each_has (length keys) (p_current_out p)) as Hout.
  { destruct Hp as (_ & _ & _ & (alg & alg' & gts & _ & _ & Hcall) & _).
    apply (each_has_Forall2 _ (p_current_in p)); [done|].
    pose proof (Hkeep inc alg (p_store_in p) (p_images p) gts (p_current_in p)) as Hk.
    by rewrite Hcall in Hk. }
  constructor; [done|]. by apply IH.
Qed.

Lemma rows_for_iff {A B} n (images : list A) (current : list (list B)) :
  rows_for n images current ↔
  length images = length current ∧ each_has n current.
Proof.
  unfold rows_for, each_has. split.
  - intros HF. split; [by eapply Forall2_length|].
    induction HF; constructor; done.
  - intros [Hlen HF]. revert images Hlen.
    induction HF as [|row current Hrow _ IH]; intros [|img images] Hlen;
      simplify_eq/=; constructor; eauto.
Qed.

Lemma stage_rows_app evs1 evs2 :
  stage_rows (evs1 ++ evs2) = stage_rows evs1 ++ stage_rows evs2.
Proof. apply omap_app. Qed.

Lemma stage_rows_pass cfg m j p :
  stage_rows (pass_events cfg m j p)
    = [(p_images p, p_current_in p, p_current_out p)].
Proof.
  unfold pass_events, stage_rows. rewrite !omap_app.
  assert (∀ r (l : list ref),
            omap (λ e, match e with
                       | EStage _ _ images _ current_in _ current_out =>
                           Some (images, current_in, current_out)
                       | _ => None
                       end) (EApplyInplace r <$> l) = []) as Hap
    by (intros r l; by induction l).
  destruct (features_differ cfg j), (negb (num_is_one (p_scale p))),
    (scales cfg !! S j); simpl; by rewrite ?Hap.
Qed.

Lemma stage_rows_loop cfg m j ps :
  stage_rows (loop_events cfg m j ps)
    = (λ p, (p_images p, p_current_in p, p_current_out p)) <$> ps.
Proof.
  revert j. induction ps as [|p ps IH]; intros j; [done|].
  cbn [loop_events]. by rewrite stage_rows_app, stage_rows_pass, IH.
Qed.

(** The rows of estimates: as many as the first algorithm was given
    images, at every scale. *)
Lemma passes_rows cfg batch group keys inc st prev j ps (n0 : nat) :
  stage_keeps_counts →
  passes_ok cfg batch group keys inc st prev j ps →
  match prev with
  | Some q => length (p_current_out q) = n0
  | None => ∀ p, head ps = Some p → length (p_images p) = n0
  end →
  Forall (λ p, length (p_current_in p) = n0 ∧ length (p_current_out p) = n0) ps.
Proof.
  intros Hkeep. induction 1 as [prev j|prev j p ps Hp Hps IH]; intros Hprev;
    [constructor|].
  assert (length (p_current_in p) = n0) as Hin.
  { destruct Hp as (_ & _ & Hstart & _). destruct prev as [q|].
    - destruct Hstart as (_ & -> & _). done.
    - destruct Hstart as (_ & shapes & Hal & Hlen & _).
      rewrite <- (Hprev p eq_refl).
      apply Forall2_length in Hal, Hlen. congruence. }
  assert (length (p_current_out p) = n0) as Hout.
  { destruct Hp as (_ & _ & _ & (alg & alg' & gts & _ & _ & Hcall) & _).
    pose proof (Hkeep inc alg (p_store_in p) (p_images p) gts (p_current_in p)) as Hk.
    rewrite Hcall in Hk. apply Forall2_length in Hk. simpl in Hk. congruence. }
  constructor; [done|]. by apply IH.
Qed.

(** With feature extraction and rescaling giving one image for every image,
    every algorithm is given as many images as the rescaled batch has. *)
Lemma passes_images_length cfg (batch : list ref) group keys inc st prev j ps :
  images_keep_counts →
  passes_ok cfg batch group keys inc st prev j ps →
  match prev with
  | Some q => length (p_feature_images q) = length batch
  | None => True
  end →
  Forall (λ p, length (p_images p) = length batch) ps.
Proof.
  intros (Hfeat & Hscale).
  induction 1 as [prev j|prev j p ps Hp Hps IH]; intros Hprev; [constructor|].
  assert (length (p_feature_images p) = length batch) as Hfi.
  { destruct Hp as (_ & Hf & _). destruct (features_differ cfg j).
    - destruct Hf as (f & imgs & _ & HF & ->). rewrite Hfeat.
      symmetry. by eapply Forall2_length.
    - destruct Hf as (q & -> & ->). done. }
  constructor; [|by apply IH].
  unfold p_images, level_images. destruct (negb _); [|done]. by rewrite Hscale.
Qed.

(** C8.  Let the algorithms return, for every image, as many estimates as
    they are given.  Then in every batch every call of [train] or [increment],
    at every scale, is given and returns the same number of estimates for
    every image: the number of keys that the second call of [keys_matching]
    found on the first image of the batch.  The estimates come in rows, one
    row for every image the first algorithm is given (lines 199-207 make
    them so), at every scale; and with feature extraction and rescaling that
    give one image for every image, these are one row for every image of
    every call, as many as the rescaled batch has images. *)
Theorem estimates_per_image_constant cfg bbg bs (batch : list ref)
    group inc st g st' tr :
  stage_keeps_counts →
  train_batch cfg bbg bs batch group inc st = Ok g st' tr →
  ∃ keys,
    last (keys_calls (events tr)) = Some keys ∧
    length (stage_shapes (events tr)) = n_scales cfg ∧
    (∀ store_in current_in store_out current_out,
       (store_in, current_in, store_out, current_out) ∈ stage_shapes (events tr) →
       each_has (length keys) current_in ∧ each_has (length keys) current_out) ∧
    (∀ images0 images current_in current_out,
       head (stage_images (events tr)) = Some images0 →
       (images, current_in, current_out) ∈ stage_rows (events tr) →
       rows_for (length keys) images0 current_in ∧
       rows_for (length keys) images0 current_out) ∧
    (images_keep_counts →
     ∃ rescaled,
       ERescale batch rescaled ∈ events tr ∧
       ∀ images current_in current_out,
         (images, current_in, current_out) ∈ stage_rows (events tr) →
         length images = length rescaled ∧
         rows_for (length keys) images current_in ∧
         rows_for (length keys) images current_out).
Proof.
  intros Hkeep (pre & rescaled & s2 & keys & passes & Hev & Hpre & Hresc & Hkeys
          & Hlen & Hok & _)%train_batch_loop.
  assert (stage_shapes (events tr) = io_of <$> passes) as Hio.
  { rewrite Hev, stage_shapes_app, stage_shapes_loop. unfold stage_shapes at 1.
    by rewrite (omap_other_kinds _ KStage before_loop);
      [|by intros []|done|kind_absent]. }
  assert (stage_images (events tr) = p_images <$> passes) as Hims.
  { rewrite Hev, stage_images_app, stage_images_loop. unfold stage_images at 1.
    by rewrite (omap_other_kinds _ KStage before_loop);
      [|by intros []|done|kind_absent]. }
  assert (stage_rows (events tr)
          = (λ p, (p_images p, p_current_in p, p_current_out p)) <$> passes)
    as Hrows.
  { rewrite Hev, stage_rows_app, stage_rows_loop. unfold stage_rows at 1.
    by rewrite (omap_other_kinds _ KStage before_loop);
      [|by intros []|done|kind_absent]. }
  pose proof (passes_each_has _ _ _ _ _ _ _ _ _ Hkeep Hok I) as HF.
  rewrite Forall_forall in HF.
  exists keys. rewrite Hio, Hims, Hrows. split_and!.
  - rewrite Hev. unfold keys_calls in *. rewrite omap_app.
    assert (∀ m j ps, omap (λ e, match e with
                                 | EKeysMatching _ _ keys => Some keys
                                 | _ => None
                                 end) (loop_events cfg m j ps) = []) as ->.
    { intros m j ps. revert j. induction ps as [|p ps IH]; intros j; [done|].
      cbn [loop_events]. rewrite omap_app, IH, app_nil_r.
      unfold pass_events. rewrite !omap_app.
      assert (∀ r (l : list ref),
                omap (λ e, match e with
                           | EKeysMatching _ _ keys => Some keys
                           | _ => None
                           end) (EApplyInplace r <$> l) = []) as Hap
        by (intros r l; by induction l).
      destruct (features_differ cfg j), (negb (num_is_one (p_scale p))),
        (scales cfg !! S j); simpl; by rewrite ?Hap. }
    by rewrite app_nil_r.
  - by rewrite length_fmap.
  - intros si ci so co (p & Hp & Hin)%list_elem_of_fmap.
    apply HF in Hin. unfold io_of in Hp. by simplify_eq.
  - intros images0 images ci co Hhd (p & Hp & Hin)%list_elem_of_fmap.
    simplify_eq.
    pose proof (passes_rows _ _ _ _ _ _ _ _ _ (length images0) Hkeep Hok) as HR.
    rewrite Forall_forall in HR.
    destruct (HR (λ q Hq, ltac:(destruct passes; simplify_eq/=; done)) _ Hin)
      as (Hci & Hco).
    destruct (HF _ Hin) as (Hein & Heout).
    split; apply rows_for_iff; done.
  - intros Himgs. exists rescaled. split.
    { rewrite Hev. apply elem_of_app. by left. }
    intros images ci co (p & Hp & Hin)%list_elem_of_fmap. simplify_eq.
    pose proof (passes_images_length _ _ _ _ _ _ _ _ _ Himgs Hok I) as HL.
    rewrite Forall_forall in HL.
    assert (∀ q, head passes = Some q → length (p_images q) = length rescaled)
      as Hfirst.
    { intros q Hq. apply HL. destruct passes; simplify_eq/=. constructor. }
    pose proof (passes_rows _ _ _ _ _ _ _ _ _ (length rescaled) Hkeep Hok Hfirst)
      as HR.
    rewrite Forall_forall in HR. destruct (HR _ Hin) as (Hci & Hco).
    destruct (HF _ Hin) as (Hein & Heout).
    split_and!; [by apply HL| |]; apply rows_for_iff; split; try done;
      by rewrite (HL _ Hin).
Qed.

(** ** Bounding boxes that were given *)

Lemma first_pass_each_has cfg batch group keys inc st j p :
  pass_ok cfg batch group keys inc st None j p →
  each_has (length keys) (p_current_in p).
Proof.
  intros (_ & _ & (_ & shapes & Hal & Hlen & _) & _).
  apply (each_has_Forall2 _ shapes); [|done].
  clear Hlen. induction Hal as [|img row ? ? Hrow _ IHal]; constructor; [|done].
  symmetry. by eapply Forall2_length.
Qed.

(** C3.  In every batch, the first call of [keys_matching] finds the
    bounding boxes of the first image.  When it finds more than one, [m] of
    them: the warning about [n_perturbations] is given once if [m] is not the
    value of [n_perturbations], and not at all if it is (the only other
    warning a batch can give is the one about the reference shape);
    [n_perturbations] is [m] afterwards; the perturbation strategy is not
    called; and the second call of [keys_matching] finds the same keys, so
    that the first algorithm is given [m] estimates for every image. *)
Theorem given_boxes_reconcile_n_perturbations cfg bbg bs (batch : list ref)
    group inc st g st' tr :
  train_batch cfg bbg bs batch group inc st = Ok g st' tr →
  ∃ keys1 keys2,
    keys_calls (events tr) = [keys1; keys2] ∧
    let m := Z.of_nat (length keys1) in
    (1 < m →
     warnings (events tr)
       = reference_warning (reference_shape st) bs ++
         (if decide (m ≠ n_perturbations st)
          then [NPerturbWarning (n_perturbations st) m] else []) ∧
     n_perturbations st' = m ∧
     of_kind KPerturb (events tr) = [] ∧
     keys2 = keys1 ∧
     ∀ store_in current_in store_out current_out,
       head (stage_shapes (events tr))
         = Some (store_in, current_in, store_out, current_out) →
       each_has (length keys1) current_in).
Proof.
  intros (tr_ref & s0 & rs & store1 & rescaled & bb & s2 & tr_bb & i0 & img0
          & keys & fi & cs & tr_loop & _ & Href & _ & _ & Hbb & Hhd & Himg0
          & Hkeys & Hloop & ->)%train_batch_Ok.
  pose proof (resolve_bounding_boxes_kinds _ _ _ _ _ _ _ _ Hbb) as Hkbb.
  apply resolve_bounding_boxes_summary in Hbb
    as (i1 & img1 & keys1 & Hhd1 & Hkeys1 & Hkc & Hw & Hnp & Hmany).
  apply scale_loop_Ok in Hloop
    as (passes & Hlen & Hok & Hev & _ & Hnp2 & _ & _ & _).
  pose proof (loop_events_kinds cfg (method_of inc) 0 passes) as Hkl.
  assert (n_perturbations s0 = n_perturbations st ∧
          warnings (events tr_ref) = reference_warning (reference_shape st) bs ∧
          keys_calls (events tr_ref) = [] ∧
          of_kind KPerturb (events tr_ref) = [] ∧
          stage_shapes (events tr_ref) = [])
    as (Hnp0 & Hwref & Hkref & Hpref & Hsref).
  { destruct (reference_shape st).
    - by destruct Href as (-> & ->).
    - destruct Href as (shapes & _ & -> & ->). by destruct bs. }
  simpl in Hw, Hnp. rewrite Hnp0 in *.
  exists keys1, keys. split.
  { unfold keys_calls in *. rewrite !events_app, !omap_app, Hkref, Hkc, Hev.
    by rewrite (omap_other_kinds _ KKeysMatching in_loop (loop_events _ _ _ _));
      [|by intros []|done|kind_absent]. }
  intros m Hm. subst m. destruct Hmany as (Hnop & Himg1); [lia|].
  assert (keys = keys1) as Heq.
  { rewrite Hhd in Hhd1. simplify_eq. congruence. }
  split_and!.
  - unfold warnings in *. rewrite !events_app, !omap_app, Hwref, Hw, Hev.
    rewrite (omap_other_kinds _ KWarn in_loop (loop_events _ _ _ _));
      [|by intros []|done|kind_absent].
    simpl. unfold reconcile_warning. rewrite decide_False by lia.
    by rewrite app_nil_r.
  - rewrite Hnp2, Hnp. by rewrite decide_False by lia.
  - rewrite !events_app, !of_kind_app, Hpref, Hnop, Hev.
    rewrite (of_kind_none KPerturb in_loop (loop_events _ _ _ _));
      [|done|kind_absent].
    reflexivity.
  - done.
  - intros si ci so co. rewrite !events_app, !stage_shapes_app, Hsref, Hev.
    unfold stage_shapes at 1 2 3.
    rewrite (omap_other_kinds _ KStage [KAttach; KKeysMatching; KPerturb; KWarn]
               (events tr_bb)); [|by intros []|done|kind_absent].
    simpl. rewrite stage_shapes_loop.
    destruct passes as [|p ps]; [done|]. simpl. intros [= <- <- <- <-].
    rewrite <- Heq. eapply first_pass_each_has.
    by apply (passes_ok_lookup _ _ _ _ _ _ _ _ _ 0%nat p Hok).
Qed.

(** ** The calls of the perturbation strategy *)

Lemma elem_of_kinds (ks : list kind) (tr : trace) s e :
  (s, e) ∈ tr → Forall (λ e, kind_of e ∈ ks) (events tr) → kind_of e ∈ ks.
Proof.
  intros Hin HF. rewrite Forall_forall in HF. apply HF.
  unfold events. apply list_elem_of_fmap. by exists (s, e).
Qed.

Lemma resolve_perturb_calls cfg group bbg (batch : list ref) st bb st' tr :
  resolve_bounding_boxes cfg group bbg batch st = Ok bb st' tr →
  ∃ keys, keys_calls (events tr) = [keys] ∧ perturb_calls_ok cfg group keys tr.
Proof.
  intros H.
  pose proof H as (i0 & img0 & keys & _ & _ & Hkc & _)%resolve_bounding_boxes_summary.
  apply resolve_bounding_boxes_Ok in H
    as (tr_gt & s1 & i1 & img1 & keys' & tr_p & -> & -> & Hgt & _ & _ & -> & Hp).
  assert (Forall (λ e, kind_of e ∈ [KAttach]) (events tr_gt)) as Hkgt.
  { destruct bbg as [?|]; [destruct Hgt as (_ & ->); constructor|].
    by eapply gt_boxes_kinds. }
  eexists. split; [done|].
  assert (keys = Landmarks.keys_matching fnmatch
                   ("*" +:+ resolved_bb_group bbg +:+ "*") (landmarks img1)) as ->.
  { unfold keys_calls in Hkc. rewrite !events_app, !omap_app in Hkc.
    rewrite (omap_other_kinds _ KKeysMatching [KAttach] (events tr_gt)) in Hkc;
      [|by intros []|done|kind_absent].
    simpl in Hkc. by simplify_eq. }
  intros s i a b p [Hin|[Hin|Hin]%elem_of_app]%elem_of_app.
  - apply (elem_of_kinds [KAttach]) in Hin; [|done].
    simpl in Hin. by apply list_elem_of_singleton in Hin.
  - apply list_elem_of_singleton in Hin. by simplify_eq.
  - repeat case_decide.
    + apply perturb_batch_Ok in Hp as ((_ & _ & _ & Hc) & _). by apply Hc.
    + destruct Hp as (-> & _). apply list_elem_of_singleton in Hin. by simplify_eq.
    + destruct Hp as (-> & _). by apply elem_of_nil in Hin.
Qed.

(** The calls of the perturbation strategy of a whole batch are taken up
    below, with the bounding box they start from. *)

(** ** The landmark groups a batch leaves on its images *)

(** C10, as the code has it.  In every batch the landmark groups are attached
    to the image objects that [rescale_images_to_reference_shape] returned for
    the batch (the objects of the caller only if that function returns them).
    When the batch is done, every one of these images holds a group under
    ['__gt_bb_0'] if no bounding box group was given, and holds a group under
    each of the keys of the generated bounding boxes, numbered from 1 to
    [n_perturbations - 1], if the first call of [keys_matching] found one
    bounding box; and no image of the store has lost a landmark group since
    the rescaling. *)
Theorem boxes_attached_to_rescaled_images cfg bbg bs (batch : list ref)
    group inc st g st' tr :
  train_batch cfg bbg bs batch group inc st = Ok g st' tr →
  ∃ rescaled keys1 s0 rs,
    (s0, ERescale batch rescaled) ∈ tr ∧
    reference_shape s0 = Some rs ∧
    rescaled = (rescale_images_to_reference_shape (image_store s0) batch g rs).2 ∧
    head (keys_calls (events tr)) = Some keys1 ∧
    (bbg = None →
     ∀ i, i ∈ rescaled → has_key (image_store st') i "__gt_bb_0") ∧
    (length keys1 = 1%nat →
     ∀ i j, i ∈ rescaled → 1 ≤ j < n_perturbations st →
            has_key (image_store st') i
                    (perturbed_key (resolved_bb_group bbg) j)) ∧
    keys_grow (rescale_images_to_reference_shape (image_store s0) batch g rs).1
              (image_store st').
Proof.
  intros (tr_ref & s0 & rs & store1 & rescaled & bb & s2 & tr_bb & i0 & img0
          & keys & fi & cs & tr_loop & _ & Href & Hrs & Hresc & Hbb & _ & _
          & _ & Hloop & ->)%train_batch_Ok.
  apply scale_loop_Ok in Hloop as (passes & _ & _ & _ & _ & _ & Him & _).
  pose proof (resolve_bounding_boxes_frame _ _ _ _ _ _ _ _ Hbb)
    as (_ & _ & _ & Hgrow).
  pose proof Hbb as (i1 & img1 & keys1 & _ & _ & Hkc & _)
    %resolve_bounding_boxes_summary.
  apply resolve_bounding_boxes_Ok in Hbb
    as (tr_gt & s1 & i2 & img2 & keys2 & tr_p & -> & Htrbb & Hgt & _ & _ & -> & Hp).
  assert (n_perturbations s0 = n_perturbations st ∧
          keys_calls (events tr_ref) = []) as (Hnp0 & Hkref).
  { destruct (reference_shape st).
    - by destruct Href as (-> & ->).
    - destruct Href as (shapes & _ & -> & ->). by destruct bs. }
  assert (keys1 = Landmarks.keys_matching fnmatch
                    ("*" +:+ resolved_bb_group bbg +:+ "*") (landmarks img2)) as ->.
  { assert (Forall (λ e, kind_of e ∈ [KAttach]) (events tr_gt)) as Hkgt.
    { destruct bbg as [?|]; [destruct Hgt as (_ & ->); constructor|].
      by eapply gt_boxes_kinds. }
    unfold keys_calls in Hkc. rewrite Htrbb, !events_app, !omap_app in Hkc.
    rewrite (omap_other_kinds _ KKeysMatching [KAttach] (events tr_gt)) in Hkc;
      [|by intros []|done|kind_absent].
    simpl in Hkc. by simplify_eq. }
  eexists rescaled, _, s0, rs. rewrite Hresc, Him. cbn [fst snd].
  split_and!; try done.
  - apply elem_of_app. right. apply elem_of_app. left. constructor.
  - unfold keys_calls in *. by rewrite !events_app, !omap_app, Hkref, Hkc.
  - intros -> i Hi. apply gt_boxes_Ok in Hgt as (_ & _ & _ & _ & Hk).
    repeat case_decide.
    + apply perturb_batch_Ok in Hp as (((_ & _ & _ & Hg) & _) & _). eauto.
    + destruct Hp as (_ & ->). eauto.
    + destruct Hp as (_ & ->). eauto.
  - intros Hone i j Hi Hj.
    rewrite decide_True in Hp by lia.
    assert (n_perturbations s1 = n_perturbations st) as Hnp1.
    { rewrite <- Hnp0. destruct bbg as [?|]; [by destruct Hgt as (-> & _)|].
      by apply gt_boxes_Ok in Hgt as (_ & -> & _). }
    apply perturb_batch_Ok in Hp as (_ & _ & Hk). apply Hk; [done|lia].
Qed.

(** ** The reference shape *)

Lemma not_in_reconcile_warning np n : RefShapeWarning ∉ reconcile_warning np n.
Proof.
  unfold reconcile_warning. repeat case_decide;
    intros Hin; repeat (apply elem_of_cons in Hin as [?|Hin]; [done|]);
    by apply elem_of_nil in Hin.
Qed.

(** The rest of a batch, after the reference shape is seen to. *)
Lemma train_batch_rest cfg s0 (batch rescaled : list ref) bb s2
    (tr_bb tr_loop : trace) i0 keys inc group bbg passes :
  resolve_bounding_boxes cfg group bbg rescaled s0 = Ok bb s2 tr_bb →
  events tr_loop = loop_events cfg (method_of inc) 0 passes →
  let rest := events ([(s0, ERescale batch rescaled)] ++ tr_bb ++
                      [(s2, EKeysMatching i0 ("*" +:+ bb +:+ "*") keys)] ++ tr_loop) in
  of_kind KRefShape rest = [] ∧ RefShapeWarning ∉ warnings rest.
Proof.
  intros Hbb Hev rest. subst rest.
  pose proof (resolve_bounding_boxes_kinds _ _ _ _ _ _ _ _ Hbb) as Hkbb.
  apply resolve_bounding_boxes_summary in Hbb as (i1 & img1 & keys1 & _ & _ & _ & Hw & _).
  pose proof (loop_events_kinds cfg (method_of inc) 0 passes) as Hkl.
  unfold warnings in *. rewrite !events_app, !of_kind_app, !omap_app, Hev, Hw.
  rewrite (of_kind_none KRefShape _ (events tr_bb) Hkbb) by kind_absent.
  rewrite (of_kind_none KRefShape _ (loop_events _ _ _ _) Hkl) by kind_absent.
  rewrite (omap_other_kinds _ KWarn in_loop (loop_events _ _ _ _));
    [|by intros []|done|kind_absent].
  split; [done|]. simpl. rewrite app_nil_r. apply not_in_reconcile_warning.
Qed.

Lemma train_batch_reference cfg bbg bs (batch : list ref) group inc st g st' tr :
  train_batch cfg bbg bs batch group inc st = Ok g st' tr →
  match reference_shape st with
  | Some rs =>
      reference_shape st' = Some rs ∧
      of_kind KRefShape (events tr) = [] ∧
      (RefShapeWarning ∉ warnings (events tr))
  | None =>
      ∃ shapes later,
        Forall2 (λ i s, ∃ img, image_store st !! i = Some img ∧
                               Landmarks.get g (landmarks img) = Some s)
                batch shapes ∧
        events tr = (EWarn <$> reference_warning None bs)
                      ++ [ERefShape shapes] ++ later ∧
        of_kind KRefShape later = [] ∧
        (RefShapeWarning ∉ warnings later) ∧
        reference_shape st'
          = Some (compute_reference_shape shapes (diagonal cfg))
  end.
Proof.
  intros (tr_ref & s0 & rs & store1 & rescaled & bb & s2 & tr_bb & i0 & img0
          & keys & fi & cs & tr_loop & _ & Href & Hrs & _ & Hbb & _ & _
          & _ & Hloop & ->)%train_batch_Ok.
  apply scale_loop_Ok in Hloop as (passes & _ & _ & Hev & Hrs2 & _).
  pose proof (resolve_bounding_boxes_frame _ _ _ _ _ _ _ _ Hbb) as (Hrs1 & _).
  pose proof (train_batch_rest _ _ batch _ _ _ _ _ i0 keys _ _ _ _ Hbb Hev)
    as (Hnoref & Hnowarn).
  simpl in Hrs1. rewrite Hrs2, Hrs1.
  destruct (reference_shape st) as [rs0|] eqn:Hst.
  - destruct Href as (-> & ->). by split_and!.
  - destruct Href as (shapes & HF & -> & ->). eexists shapes, _.
    split_and!; [done| |exact Hnoref|exact Hnowarn|done].
    rewrite events_app. destruct bs; simpl; by rewrite events_app.
Qed.

Lemma train_batches_latched cfg bbg bs k (batches : list (list ref)) group inc
    st u st' tr rs :
  reference_shape st = Some rs →
  train_batches cfg bbg bs k batches group inc st = Ok u st' tr →
  reference_shape st' = Some rs ∧
  of_kind KRefShape (events tr) = [] ∧
  (RefShapeWarning ∉ warnings (events tr)).
Proof.
  revert k group inc st tr.
  induction batches as [|b rest IH]; intros k group inc st tr Hrs H; simpl in H.
  - run0. split_and!; [done|done|]. by intros ?%elem_of_nil.
  - step H Hb. apply train_batch_reference in Hb. rewrite Hrs in Hb.
    destruct Hb as (Hrs1 & Hno1 & Hw1).
    apply (IH _ _ _ _ _ Hrs1) in H as (? & Hno2 & Hw2).
    unfold warnings in *. rewrite events_app, of_kind_app, omap_app, Hno1, Hno2.
    split_and!; [done|done|]. by intros [?|?]%elem_of_app.
Qed.

(** C4.  A call of [_train] that finds a reference shape leaves it as it is,
    does not compute one and does not give the warning about it.  A call that
    finds none and has a first batch computes it once: from the ground truth
    shapes of the images of the first batch, as they are in the store when the
    call starts, with [self.diagonal]; this is the first thing the call does,
    but for the warning, which comes before it exactly when [batch_size] is
    set; the images are rescaled after it; and the reference shape is then the
    computed one to the end of the call, nothing computes it again and the
    warning is not given again. *)
Theorem reference_shape_set_once cfg images group bbg inc bs st u st' tr :
  _train cfg images group bbg inc bs st = Ok u st' tr →
  match reference_shape st with
  | Some rs =>
      reference_shape st' = Some rs ∧
      of_kind KRefShape (events tr) = [] ∧
      (RefShapeWarning ∉ warnings (events tr))
  | None =>
      ∀ b rest, image_batches images bs = b :: rest →
        ∃ g shapes later,
          match group with
          | Some g0 => g = g0
          | None =>
              ∃ i img, head b = Some i ∧ image_store st !! i = Some img ∧
                       head (Landmarks.group_labels (landmarks img)) = Some g
          end ∧
          Forall2 (λ i s, ∃ img, image_store st !! i = Some img ∧
                                 Landmarks.get g (landmarks img) = Some s)
                  b shapes ∧
          events tr = (EWarn <$> reference_warning None bs)
                        ++ [ERefShape shapes] ++ later ∧
          of_kind KRefShape later = [] ∧
          (RefShapeWarning ∉ warnings later) ∧
          reference_shape st'
            = Some (compute_reference_shape shapes (diagonal cfg))
  end.
Proof.
  unfold _train. fold (image_batches images bs). intros H.
  destruct (reference_shape st) as [rs|] eqn:Hrs.
  - by eapply train_batches_latched.
  - intros b rest Hb. rewrite Hb in H. simpl in H. step H Hfirst.
    pose proof Hfirst as (_ & _ & _ & _ & _ & _ & _ & _ & _ & _ & _ & _ & _ & _
                          & Hg & _)%train_batch_Ok.
    apply train_batch_reference in Hfirst. rewrite Hrs in Hfirst.
    destruct Hfirst as (shapes & later & HF & Hev & Hno & Hw & Hrs1).
    apply (train_batches_latched _ _ _ _ _ _ _ _ _ _ _ _ Hrs1) in H
      as (Hrs2 & Hno2 & Hw2).
    eexists _, shapes, (later ++ events _). split_and!; [exact Hg|done| | | |done].
    + rewrite events_app, Hev. by rewrite <- !app_assoc.
    + by rewrite of_kind_app, Hno, Hno2.
    + unfold warnings in *. rewrite omap_app. by intros [?|?]%elem_of_app.
Qed.

(** * Further properties of the orchestration *)

(** ** Runs that raise *)

Lemma bind_Raise {A B} (m : M A) (f : A → M B) st e :
  m st = Raise e → bind m f st = Raise e.
Proof. unfold bind. by intros ->. Qed.

Lemma bind_Ok_Raise {A B} (m : M A) (f : A → M B) st a st1 tr1 e :
  m st = Ok a st1 tr1 → f a st1 = Raise e → bind m f st = Raise e.
Proof. unfold bind. by intros -> ->. Qed.

Lemma train_batches_first_Raise cfg bbg bs k b rest group inc st e :
  train_batch cfg bbg bs b group (if decide (0 < k)%nat then true else inc) st
    = Raise e →
  train_batches cfg bbg bs k (b :: rest) group inc st = Raise e.
Proof. intros H. cbn [train_batches]. by apply bind_Raise. Qed.

(** X1.  Without a group, the group is the first label of the first image of
    the first batch (line 90): when that batch is empty, or its first image
    has no landmark group, the call raises IndexError. *)
Theorem no_group_needs_a_first_label cfg images bbg inc bs st b rest :
  image_batches images bs = b :: rest →
  (b = [] ∨
   ∃ i img, head b = Some i ∧ image_store st !! i = Some img ∧
            landmarks img = []) →
  _train cfg images None bbg inc bs st = Raise IndexError.
Proof.
  intros Hb H. unfold _train. fold (image_batches images bs). rewrite Hb.
  apply train_batches_first_Raise. unfold train_batch.
  apply bind_Raise.
  destruct H as [->|(i & img & Hhd & Him & Hl)]; [done|].
  rewrite Hhd. simpl. unfold bind at 1. simpl.
  unfold deref, get, bind. simpl. rewrite Him. simpl.
  by rewrite Hl.
Qed.

Lemma gather_landmarks_Raise (group : string) (batch : list ref) st :
  Forall (λ i, is_Some (image_store st !! i)) batch →
  Exists (λ i, landmark_of (image_store st) i group = None) batch →
  for_list batch (λ i, read_landmark i group) st = Raise KeyError.
Proof.
  intros Hall Hex. induction batch as [|i batch IH]; [by inversion Hex|].
  apply Forall_cons in Hall as ([img Himg] & Hall).
  cbn [for_list].
  destruct (Landmarks.get group (landmarks img)) as [s|] eqn:Hs.
  - assert (read_landmark i group st = Ok s st []) as Hi.
    { unfold read_landmark, deref, get, bind. simpl. rewrite Himg. simpl.
      by rewrite Hs. }
    eapply bind_Ok_Raise; [done|]. apply bind_Raise. apply IH; [done|].
    apply Exists_cons in Hex as [Hi'|?]; [|done].
    unfold landmark_of in Hi'. rewrite Himg in Hi'. simpl in Hi'. congruence.
  - apply bind_Raise.
    unfold read_landmark, deref, get, bind. simpl. rewrite Himg. simpl.
    by rewrite Hs.
Qed.

(** X2.  On a fitter without a reference shape, the reference shape is
    computed from [i.landmarks[group].lms] of every image of the first batch
    (line 102): when an image of that batch does not have the group, the call
    raises KeyError. *)
Theorem missing_group_is_a_KeyError cfg images group bbg inc bs st b rest :
  image_batches images bs = b :: rest →
  reference_shape st = None →
  Forall (λ i, is_Some (image_store st !! i)) b →
  Exists (λ i, landmark_of (image_store st) i group = None) b →
  _train cfg images (Some group) bbg inc bs st = Raise KeyError.
Proof.
  intros Hb Hrs Hall Hex. unfold _train. fold (image_batches images bs).
  rewrite Hb. apply train_batches_first_Raise. unfold train_batch.
  eapply bind_Ok_Raise; [reflexivity|].
  eapply bind_Ok_Raise; [reflexivity|].
  apply bind_Raise. rewrite Hrs.
  destruct bs as [n|].
  - eapply bind_Ok_Raise; [reflexivity|]. apply bind_Raise.
    by apply gather_landmarks_Raise.
  - eapply bind_Ok_Raise; [reflexivity|]. apply bind_Raise.
    by apply gather_landmarks_Raise.
Qed.

(** ** The order of the calls of the scale loop *)

Lemma image_step_apply ratio (refs : list ref) :
  omap image_step (EApplyInplace ratio <$> refs) = [].
Proof. by induction refs. Qed.

Lemma image_steps_pass cfg m j p :
  scales cfg !! j = Some (p_scale p) →
  omap image_step (pass_events cfg m j p) = image_steps_at cfg j.
Proof.
  intros Hs. unfold pass_events, image_steps_at, scale_differs.
  rewrite Hs, !omap_app.
  assert (omap image_step
            match scales cfg !! S j with
            | Some s_next =>
                EApplyInplace (num_div s_next (p_scale p)) <$> concat (p_current_out p)
            | None => []
            end = []) as ->.
  { destruct (scales cfg !! S j); [apply image_step_apply|done]. }
  by destruct (features_differ cfg j), (negb (num_is_one (p_scale p))).
Qed.

Lemma image_steps_loop cfg batch group keys inc st m prev j ps :
  passes_ok cfg batch group keys inc st prev j ps →
  omap image_step (loop_events cfg m j ps)
    = seq j (length ps) ≫= image_steps_at cfg.
Proof.
  induction 1 as [prev j|prev j p ps Hp Hps IH]; [done|].
  cbn [loop_events length seq]. rewrite omap_app, IH.
  destruct Hp as (Hs & _). by rewrite (image_steps_pass _ _ _ _ Hs).
Qed.

Lemma scale_calls_steps evs :
  scale_calls evs
    = omap (λ s : kind * nat, if decide (s.1 = KScaleImages) then Some s.2 else None)
           (omap image_step evs).
Proof.
  induction evs as [|e evs IH]; [done|].
  destruct e; simpl; try done; by rewrite IH.
Qed.

Lemma scale_steps_at cfg (js : list nat) :
  omap (λ s : kind * nat, if decide (s.1 = KScaleImages) then Some s.2 else None)
       (js ≫= image_steps_at cfg)
    = filter (λ j, scale_differs cfg j = true) js.
Proof.
  induction js as [|j js IH]; [done|].
  rewrite bind_cons, omap_app, IH, filter_cons. unfold image_steps_at.
  destruct (features_differ cfg j), (scale_differs cfg j); simpl;
    by rewrite ?decide_True by done.
Qed.

Lemma omap_kinds_none {B} (f : event → option B) (ks : list kind) evs :
  (∀ e, kind_of e ∈ ks → f e = None) →
  Forall (λ e, kind_of e ∈ ks) evs → omap f evs = [].
Proof.
  intros Hf. induction 1 as [|e evs He _ IH]; [done|].
  change (omap f (e :: evs))
    with (match f e with Some y => y :: omap f evs | None => omap f evs end).
  by rewrite (Hf e He), IH.
Qed.

(** X3.  In every batch the scale loop works scale by scale, low to high, and
    at each scale in this order: [compute_features] if the scale is the first
    or has a feature function of its own, [scale_images] if the scale is not
    1, then the algorithm of the scale.  So [scale_images] is called exactly
    at the scales that are not 1. *)
Theorem scale_loop_order cfg bbg bs (batch : list ref) group inc st g st' tr :
  train_batch cfg bbg bs batch group inc st = Ok g st' tr →
  omap image_step (events tr) = seq 0 (n_scales cfg) ≫= image_steps_at cfg ∧
  scale_calls (events tr)
    = filter (λ j, scale_differs cfg j = true) (seq 0 (n_scales cfg)).
Proof.
  intros (pre & rescaled & s2 & keys & passes & Hev & Hpre & _ & _ & Hlen
          & Hok & _)%train_batch_loop.
  assert (omap image_step (events tr)
          = seq 0 (n_scales cfg) ≫= image_steps_at cfg) as Hsteps.
  { rewrite Hev, omap_app, (omap_kinds_none _ before_loop pre); [| |done].
    - simpl. rewrite <- Hlen. by eapply image_steps_loop.
    - intros e He. destruct e; try done; exfalso; revert He; kind_absent. }
  split; [done|]. by rewrite scale_calls_steps, Hsteps, scale_steps_at.
Qed.

(** ** Estimates that share a shape object *)

Lemma occurrences_cons r x (refs : list ref) :
  occurrences r (x :: refs)
    = if decide (x = r) then S (occurrences r refs) else occurrences r refs.
Proof. unfold occurrences. rewrite filter_cons. by destruct (decide (x = r)). Qed.

Lemma scale_in_place_occurrences ratio (refs : list ref) store r :
  scale_in_place ratio refs store !! r
    = Nat.iter (occurrences r refs) (Scale ratio) <$> store !! r.
Proof.
  unfold scale_in_place. revert store.
  induction refs as [|x refs IH]; intros store.
  - simpl. by destruct (store !! r).
  - cbn [foldl]. rewrite IH, occurrences_cons.
    destruct (decide (x = r)) as [->|Hne].
    + rewrite list_lookup_alter, decide_True by done.
      destruct (store !! r); [|done].
      simpl. f_equal. apply Nat.iter_swap.
    + by rewrite list_lookup_alter, decide_False by done.
Qed.

Lemma stage_shapes_of_batch cfg bbg bs (batch : list ref) group inc st g st' tr :
  train_batch cfg bbg bs batch group inc st = Ok g st' tr →
  ∃ rescaled s2 keys passes,
    stage_shapes (events tr) = io_of <$> passes ∧
    length passes = n_scales cfg ∧
    passes_ok cfg rescaled g keys inc s2 None 0 passes.
Proof.
  intros (pre & rescaled & s2 & keys & passes & Hev & Hpre & _ & _ & Hlen
          & Hok & _)%train_batch_loop.
  exists rescaled, s2, keys, passes. split_and!; [|done..].
  rewrite Hev, stage_shapes_app, stage_shapes_loop. unfold stage_shapes at 1.
  by rewrite (omap_other_kinds _ KStage before_loop);
    [|by intros []|done|kind_absent].
Qed.

(** X4.  Between two scales [apply_inplace] is called once for every entry
    of the estimates the algorithm returned (lines 224-226), on the shape
    objects themselves: a shape object that occurs [n] times among the
    estimates reaches the next algorithm scaled [n] times by the ratio of the
    two scales, and a shape object that is not among them is left as it
    was. *)
Theorem shared_estimates_are_scaled_per_occurrence cfg bbg bs (batch : list ref)
    group inc st g st' tr j s s_next
    store_in current_in store_out current_out
    store_in' current_in' store_out' current_out' :
  train_batch cfg bbg bs batch group inc st = Ok g st' tr →
  stage_shapes (events tr) !! j
    = Some (store_in, current_in, store_out, current_out) →
  stage_shapes (events tr) !! S j
    = Some (store_in', current_in', store_out', current_out') →
  scales cfg !! j = Some s → scales cfg !! S j = Some s_next →
  ∀ r, store_in' !! r
       = Nat.iter (occurrences r (concat current_out)) (Scale (num_div s_next s))
           <$> store_out !! r.
Proof.
  intros (rescaled & s2 & keys & passes & Hio & _ & Hok)%stage_shapes_of_batch
    Hj HSj Hs Hs' r.
  rewrite Hio in Hj, HSj.
  apply list_lookup_fmap_Some in Hj as (p & Hp & Hj).
  apply list_lookup_fmap_Some in HSj as (p' & Hp' & HSj).
  pose proof (passes_ok_lookup _ _ _ _ _ _ _ _ _ _ _ Hok Hj)
    as (Hsp & _ & _ & _ & Hnext).
  pose proof (passes_ok_lookup _ _ _ _ _ _ _ _ _ _ _ Hok HSj)
    as (_ & _ & Hprev & _).
  simpl in *. rewrite Hj in Hprev. destruct Hprev as (_ & Hci & Hsi).
  rewrite Hs' in Hnext. unfold io_of in *. simplify_eq.
  rewrite Hsi, Hnext. apply scale_in_place_occurrences.
Qed.

(** ** The algorithm objects *)

Lemma _setup_algorithms_Ok cfg stage_args st u st' tr :
  _setup_algorithms cfg stage_args st = Ok u st' tr →
  reference_shape st' = reference_shape st ∧
  n_perturbations st' = n_perturbations st ∧
  image_store st' = image_store st ∧
  shape_store st' = shape_store st ∧
  rng st' = rng st ∧
  algorithms st'
    = algorithms st ++ (sd_algorithm_cls <$> take (n_scales cfg) stage_args) ∧
  (n_scales cfg ≤ length stage_args)%nat.
Proof.
  unfold _setup_algorithms. generalize (n_scales cfg). intros n H.
  apply (for_each_inv _ (λ done s _,
           done = seq 0 (length done) →
           reference_shape s = reference_shape st ∧
           n_perturbations s = n_perturbations st ∧
           image_store s = image_store st ∧
           shape_store s = shape_store st ∧
           rng s = rng st ∧
           algorithms s
             = algorithms st ++ (sd_algorithm_cls <$> take (length done) stage_args) ∧
           (length done ≤ length stage_args)%nat)) in H.
  - by rewrite length_seq in H.
  - intros _. simpl. rewrite app_nil_r. split_and!; (done || lia).
  - intros done x s tr0 v s' tr1 _ IH Hx Hseq.
    rewrite length_app in Hseq |- *. simpl in Hseq |- *.
    rewrite Nat.add_1_r in Hseq |- *. rewrite seq_S in Hseq. simpl in Hseq.
    apply app_inj_tail in Hseq as (Hdone & ->).
    destruct (IH Hdone) as (? & ? & ? & ? & ? & Halg & ?).
    run0. simpl. split_and!; try done.
    + rewrite Halg, <- app_assoc. f_equal.
      match goal with H : stage_args !! _ = Some _ |- _ =>
        rewrite (take_S_r _ _ _ H), fmap_app end.
      done.
    + match goal with H : stage_args !! _ = Some _ |- _ =>
        apply lookup_lt_Some in H end. lia.
  - by rewrite length_seq.
Qed.

Lemma scale_loop_algorithms cfg batch group keys inc v st v' st' tr :
  for_fold (seq 0 (n_scales cfg)) (scale_step cfg batch group keys inc) v st
    = Ok v' st' tr →
  length (algorithms st') = length (algorithms st).
Proof.
  intros H.
  apply (for_fold_inv _ (λ _ _ s _,
           length (algorithms s) = length (algorithms st))) in H; [done|done|].
  intros done x [fi cs] s tr0 [fi' cs'] s' tr1 _ IH Hx.
  apply scale_step_Ok in Hx
    as (? & ? & ? & ? & ? & ? & ? & _ & _ & _ & _ & _ & _ & _ & _ & ->).
  simpl. by rewrite length_insert.
Qed.

Lemma train_batch_algorithms cfg bbg bs (batch : list ref) group inc st g st' tr :
  train_batch cfg bbg bs batch group inc st = Ok g st' tr →
  length (algorithms st') = length (algorithms st).
Proof.
  intros (tr_ref & s0 & rs & store1 & rescaled & bb & s2 & tr_bb & i0 & img0
          & keys & fi & cs & tr_loop & _ & Href & _ & _ & Hbb & _ & _
          & _ & Hloop & ->)%train_batch_Ok.
  apply scale_loop_algorithms in Hloop. rewrite Hloop.
  apply resolve_bounding_boxes_frame in Hbb as (_ & -> & _).
  destruct (reference_shape st).
  - by destruct Href as (-> & _).
  - by destruct Href as (shapes & _ & _ & ->).
Qed.

Lemma train_batches_algorithms cfg bbg bs k (batches : list (list ref)) group inc
    st u st' tr :
  train_batches cfg bbg bs k batches group inc st = Ok u st' tr →
  length (algorithms st') = length (algorithms st).
Proof.
  revert k group inc st tr.
  induction batches as [|b batches IH]; intros k group inc st tr H.
  - simpl in H. by run0.
  - cbn [train_batches] in H. step H Hb.
    apply IH in H. apply train_batch_algorithms in Hb. congruence.
Qed.

(** X5.  A fitter has one algorithm object per scale: the constructor
    empties [self.algorithms] and appends one for every scale (lines 37 and
    55-60), and training, in the constructor and in every later call of
    [increment], works on [self.algorithms[j]] without adding or removing
    any. *)
Theorem one_algorithm_per_scale cfg stage_args rs0 np0 first later st u st' tr :
  session cfg stage_args rs0 np0 first later st = Ok u st' tr →
  length (algorithms st') = n_scales cfg.
Proof.
  unfold session, __init__. intros H.
  step H Hinit. step Hinit Hmod. step Hinit Hsetup.
  apply modify_Ok in Hmod as (-> & ->).
  apply _setup_algorithms_Ok in Hsetup as (_ & _ & _ & _ & _ & Halg & Hlen).
  unfold _train in Hinit. apply train_batches_algorithms in Hinit.
  simpl in Halg.
  match goal with
  | H : for_each _ _ _ = Ok _ _ _ |- _ =>
      apply (for_each_inv _ (λ _ s _,
               length (algorithms s) = n_scales cfg)) in H; [done| |]
  end.
  - rewrite Hinit, Halg, length_fmap, length_take. lia.
  - intros done c s tr0 v s' tr1 _ Hdone Hc.
    unfold increment, _train in Hc. apply train_batches_algorithms in Hc.
    congruence.
Qed.

(** ** The reference shape the batches are rescaled to *)

Lemma rescale_calls_app (tr1 tr2 : trace) :
  rescale_calls (tr1 ++ tr2) = rescale_calls tr1 ++ rescale_calls tr2.
Proof. apply omap_app. Qed.

Lemma rescale_calls_none (ks : list kind) (tr : trace) :
  Forall (λ e, kind_of e ∈ ks) (events tr) → KRescale ∉ ks → rescale_calls tr = [].
Proof.
  unfold events. rewrite Forall_fmap. intros HF Hk.
  induction HF as [|[s e] tr He _ IH]; [done|].
  unfold rescale_calls in *.
  change (omap ?f ((s, e) :: tr))
    with (match f (s, e) with Some y => y :: omap f tr | None => omap f tr end).
  rewrite IH. simpl in *. by destruct e.
Qed.

Lemma train_batch_rescale cfg bbg bs (batch : list ref) group inc st g st' tr :
  train_batch cfg bbg bs batch group inc st = Ok g st' tr →
  rescale_calls tr = [(reference_shape st', batch)] ∧
  is_Some (reference_shape st').
Proof.
  intros (tr_ref & s0 & rs & store1 & rescaled & bb & s2 & tr_bb & i0 & img0
          & keys & fi & cs & tr_loop & _ & Href & Hrs & _ & Hbb & _ & _
          & _ & Hloop & ->)%train_batch_Ok.
  apply scale_loop_Ok in Hloop as (passes & _ & _ & Hev & Hrs2 & _).
  pose proof (resolve_bounding_boxes_frame _ _ _ _ _ _ _ _ Hbb) as (Hrs1 & _).
  apply resolve_bounding_boxes_kinds in Hbb.
  simpl in Hrs1. rewrite Hrs2, Hrs1, Hrs. split; [|done].
  rewrite !rescale_calls_app.
  rewrite (rescale_calls_none [KWarn; KRefShape] tr_ref); [| |kind_absent].
  - rewrite (rescale_calls_none _ tr_bb Hbb); [|kind_absent].
    rewrite (rescale_calls_none in_loop tr_loop); [| |kind_absent].
    + simpl. by rewrite Hrs.
    + rewrite Hev. apply loop_events_kinds.
  - destruct (reference_shape st).
    + destruct Href as (_ & ->). constructor.
    + destruct Href as (shapes & _ & -> & _). destruct bs; repeat constructor.
Qed.

Lemma train_batches_rescale cfg bbg bs k (batches : list (list ref)) group inc
    st u st' tr :
  train_batches cfg bbg bs k batches group inc st = Ok u st' tr →
  rescale_calls tr = (λ b, (reference_shape st', b)) <$> batches ∧
  (batches ≠ [] → is_Some (reference_shape st')).
Proof.
  revert k group inc st tr.
  induction batches as [|b rest IH]; intros k group inc st tr H.
  - simpl in H. run0. by split.
  - cbn [train_batches] in H. step H Hb.
    apply train_batch_rescale in Hb as (Hcall & [rs Hrs]).
    pose proof (train_batches_latched _ _ _ _ _ _ _ _ _ _ _ _ Hrs H) as (Hrs' & _).
    apply IH in H as (Hrest & _).
    rewrite rescale_calls_app, Hcall, Hrest, Hrs', Hrs. split; [done|].
    intros _. by eexists.
Qed.

(** X6.  A call of [_train] calls [rescale_images_to_reference_shape] once
    for every batch, in the order of the batches, and always with the same
    reference shape: the one the fitter holds when the call returns (the one
    it was given or, failing that, the one computed from the first batch). *)
Theorem batches_rescaled_to_one_reference_shape cfg images group bbg inc bs
    st u st' tr :
  _train cfg images group bbg inc bs st = Ok u st' tr →
  rescale_calls tr
    = (λ b, (reference_shape st', b)) <$> image_batches images bs ∧
  (image_batches images bs ≠ [] → is_Some (reference_shape st')).
Proof. unfold _train. fold (image_batches images bs). apply train_batches_rescale. Qed.

(** ** The public perturbation *)

Lemma train_batches_reference cfg bbg bs k b (rest : list (list ref)) group inc
    st u st' tr :
  train_batches cfg bbg bs k (b :: rest) group inc st = Ok u st' tr →
  ∃ rs, reference_shape st' = Some rs ∧
    match reference_shape st with
    | Some r => rs = r
    | None => ∃ shapes, ERefShape shapes ∈ events tr ∧
                        rs = compute_reference_shape shapes (diagonal cfg)
    end.
Proof.
  intros H. cbn [train_batches] in H. step H Hb.
  apply train_batch_reference in Hb.
  destruct (reference_shape st) as [r|].
  - destruct Hb as (Hrs & _).
    apply (train_batches_latched _ _ _ _ _ _ _ _ _ _ _ _ Hrs) in H as (-> & _).
    by exists r.
  - destruct Hb as (shapes & later & _ & Hev & _ & _ & Hrs).
    apply (train_batches_latched _ _ _ _ _ _ _ _ _ _ _ _ Hrs) in H as (-> & _).
    eexists. split; [done|]. exists shapes. split; [|done].
    rewrite events_app, Hev.
    apply elem_of_app. left. apply elem_of_app. right. constructor.
Qed.

(** X7.  After a constructor that trained on at least one batch,
    [perturb_from_bounding_box] works: the fitter holds a reference shape
    (the one it was given or, failing that, the one computed from the first
    batch), and the call returns what the perturbation strategy makes of that
    reference shape and the bounding box; of the state only the source of
    the noise moves on. *)
Theorem perturb_from_bounding_box_after_training cfg stage_args rs0 np0 images
    group bbg bs st u st1 tr :
  __init__ cfg stage_args rs0 np0 images group bbg bs st = Ok u st1 tr →
  image_batches images bs ≠ [] →
  ∃ rs,
    reference_shape st1 = Some rs ∧
    match rs0 with
    | Some r => rs = r
    | None => ∃ shapes, ERefShape shapes ∈ events tr ∧
                        rs = compute_reference_shape shapes (diagonal cfg)
    end ∧
    ∀ bb,
      let p := _perturb_from_bounding_box cfg rs bb (rng st1) in
      perturb_from_bounding_box cfg bb st1 = Ok p.1 (set_rng p.2 st1) [].
Proof.
  unfold __init__. intros H Hne.
  step H Hmod. step H Hsetup.
  apply modify_Ok in Hmod as (-> & ->).
  pose proof (_setup_algorithms_silent _ _ _ _ _ _ Hsetup) as ->.
  apply _setup_algorithms_Ok in Hsetup as (Hrs0 & _).
  unfold _train in H. fold (image_batches images bs) in H.
  destruct (image_batches images bs) as [|b rest]; [done|].
  apply train_batches_reference in H as (rs & Hrs & Hfrom).
  simpl in Hrs0. rewrite Hrs0 in Hfrom.
  exists rs. split_and!; [done|done|].
  intros bb. unfold perturb_from_bounding_box, bind, get, lift. simpl.
  rewrite Hrs. simpl.
  by destruct (_perturb_from_bounding_box cfg rs bb (rng st1)).
Qed.

(** ** Bounding boxes: none found, or one *)

Lemma boxes_taken_as_found cfg bbg bs (batch : list ref) group inc st g st' tr :
  train_batch cfg bbg bs batch group inc st = Ok g st' tr →
  ∃ keys1 keys2,
    keys_calls (events tr) = [keys1; keys2] ∧
    let m := Z.of_nat (length keys1) in
    (m ≠ 1 →
     warnings (events tr)
       = reference_warning (reference_shape st) bs ++
         (if decide (m ≠ n_perturbations st)
          then [NPerturbWarning (n_perturbations st) m] else []) ∧
     n_perturbations st' = m ∧
     of_kind KPerturb (events tr) = [] ∧
     keys2 = keys1 ∧
     ∀ store_in current_in store_out current_out,
       head (stage_shapes (events tr))
         = Some (store_in, current_in, store_out, current_out) →
       each_has (length keys1) current_in).
Proof.
  intros (tr_ref & s0 & rs & store1 & rescaled & bb & s2 & tr_bb & i0 & img0
          & keys & fi & cs & tr_loop & _ & Href & _ & _ & Hbb & Hhd & Himg0
          & Hkeys & Hloop & ->)%train_batch_Ok.
  pose proof (resolve_bounding_boxes_kinds _ _ _ _ _ _ _ _ Hbb) as Hkbb.
  apply resolve_bounding_boxes_summary in Hbb
    as (i1 & img1 & keys1 & Hhd1 & Hkeys1 & Hkc & Hw & Hnp & Hmany).
  apply scale_loop_Ok in Hloop
    as (passes & Hlen & Hok & Hev & _ & Hnp2 & _ & _ & _).
  pose proof (loop_events_kinds cfg (method_of inc) 0 passes) as Hkl.
  assert (n_perturbations s0 = n_perturbations st ∧
          warnings (events tr_ref) = reference_warning (reference_shape st) bs ∧
          keys_calls (events tr_ref) = [] ∧
          of_kind KPerturb (events tr_ref) = [] ∧
          stage_shapes (events tr_ref) = [])
    as (Hnp0 & Hwref & Hkref & Hpref & Hsref).
  { destruct (reference_shape st).
    - by destruct Href as (-> & ->).
    - destruct Href as (shapes & _ & -> & ->). by destruct bs. }
  simpl in Hw, Hnp. rewrite Hnp0 in *.
  exists keys1, keys. split.
  { unfold keys_calls in *. rewrite !events_app, !omap_app, Hkref, Hkc, Hev.
    by rewrite (omap_other_kinds _ KKeysMatching in_loop (loop_events _ _ _ _));
      [|by intros []|done|kind_absent]. }
  intros m Hm. subst m. destruct Hmany as (Hnop & Himg1); [lia|].
  assert (keys = keys1) as Heq.
  { rewrite Hhd in Hhd1. simplify_eq. congruence. }
  split_and!.
  - unfold warnings in *. rewrite !events_app, !omap_app, Hwref, Hw, Hev.
    rewrite (omap_other_kinds _ KWarn in_loop (loop_events _ _ _ _));
      [|by intros []|done|kind_absent].
    simpl. unfold reconcile_warning. rewrite decide_False by lia.
    by rewrite app_nil_r.
  - rewrite Hnp2, Hnp. by rewrite decide_False by lia.
  - rewrite !events_app, !of_kind_app, Hpref, Hnop, Hev.
    rewrite (of_kind_none KPerturb in_loop (loop_events _ _ _ _));
      [|done|kind_absent].
    reflexivity.
  - done.
  - intros si ci so co. rewrite !events_app, !stage_shapes_app, Hsref, Hev.
    unfold stage_shapes at 1 2 3.
    rewrite (omap_other_kinds _ KStage [KAttach; KKeysMatching; KPerturb; KWarn]
               (events tr_bb)); [|by intros []|done|kind_absent].
    simpl. rewrite stage_shapes_loop.
    destruct passes as [|p ps]; [done|]. simpl. intros [= <- <- <- <-].
    rewrite <- Heq. eapply first_pass_each_has.
    by apply (passes_ok_lookup _ _ _ _ _ _ _ _ _ 0%nat p Hok).
Qed.

Lemma perturbed_images_none evs :
  of_kind KPerturb evs = [] → perturbed_images evs = [].
Proof.
  unfold of_kind. induction evs as [|e evs IH]; [done|].
  rewrite filter_cons. destruct (decide (kind_of e = KPerturb)) as [|Hne]; [done|].
  intros H. unfold perturbed_images in *.
  change (omap ?f (e :: evs))
    with (match f e with Some y => y :: omap f evs | None => omap f evs end).
  rewrite (IH H). by destruct e.
Qed.

(** X8.  In a batch that runs to its end and in which no landmark group of
    the first image matched the bounding box group, [n_perturbations] has
    been set to 0, with the warning unless it was 0 already, the perturbation
    strategy has not been called, and the first algorithm has been called
    with one empty list of estimates for every image it was given. *)
Theorem no_box_found_trains_without_estimates cfg bbg bs (batch : list ref)
    group inc st g st' tr :
  train_batch cfg bbg bs batch group inc st = Ok g st' tr →
  head (keys_calls (events tr)) = Some [] →
  warnings (events tr)
    = reference_warning (reference_shape st) bs ++
      (if decide (n_perturbations st = 0) then []
       else [NPerturbWarning (n_perturbations st) 0]) ∧
  n_perturbations st' = 0 ∧
  perturbed_images (events tr) = [] ∧
  ∀ images store_in current_in store_out current_out,
    head (stage_images (events tr)) = Some images →
    head (stage_shapes (events tr))
      = Some (store_in, current_in, store_out, current_out) →
    current_in = replicate (length images) [].
Proof.
  intros Hrun Hhd.
  pose proof Hrun as (keys1 & keys2 & Hkc & Hm)%boxes_taken_as_found.
  rewrite Hkc in Hhd. simpl in Hhd, Hm. injection Hhd as ->.
  destruct Hm as (Hw & Hnp & Hnop & -> & _); [done|]. simpl in *.
  split_and!; [|done|by apply perturbed_images_none|].
  - rewrite Hw. f_equal. by repeat case_decide.
  - intros images si ci so co Himgs Hio.
    apply train_batch_loop in Hrun
      as (pre & rescaled & s2 & keys & passes & Hev & Hpre & _ & Hlast & _
          & Hok & _).
    assert (keys = []) as ->.
    { rewrite Hev in Hkc. unfold keys_calls in *. rewrite omap_app in Hkc.
      pose proof (loop_events_kinds cfg (method_of inc) 0 passes) as Hkl.
      rewrite (omap_other_kinds _ KKeysMatching in_loop (loop_events _ _ _ _))
        in Hkc; [|by intros []|done|kind_absent].
      rewrite app_nil_r in Hkc. rewrite Hkc in Hlast. by injection Hlast. }
    rewrite Hev, stage_images_app, stage_images_loop in Himgs.
    rewrite Hev, stage_shapes_app, stage_shapes_loop in Hio.
    unfold stage_images in Himgs at 1. unfold stage_shapes in Hio at 1.
    rewrite (omap_other_kinds _ KStage before_loop pre) in Himgs;
      [|by intros []|done|kind_absent].
    rewrite (omap_other_kinds _ KStage before_loop pre) in Hio;
      [|by intros []|done|kind_absent].
    destruct passes as [|p ps]; [done|]. simpl in Himgs, Hio.
    injection Himgs as <-. injection Hio as <- <- <- <-.
    pose proof (passes_ok_lookup _ _ _ _ _ _ _ _ _ 0%nat p Hok eq_refl)
      as (_ & _ & (_ & shapes & Hal & Hrows & _) & _).
    clear -Hal Hrows. revert Hrows. generalize (p_current_in p).
    induction Hal as [|img row images shapes Hrow _ IH]; intros ci Hrows.
    + by apply Forall2_nil_inv_l in Hrows as ->.
    + apply Forall2_cons_inv_l in Hrows as (refs & ci' & Hlen & Hrows & ->).
      simpl. f_equal; [|by apply IH].
      apply Forall2_nil_inv_l in Hrow as ->. simpl in Hlen.
      by destruct refs.
Qed.

(** ** One bounding box: the calls of the perturbation strategy *)

Lemma perturbed_images_app evs1 evs2 :
  perturbed_images (evs1 ++ evs2) = perturbed_images evs1 ++ perturbed_images evs2.
Proof. apply omap_app. Qed.

Lemma perturb_image_images cfg group bb_group keys i st u st' tr :
  perturb_image cfg group bb_group keys i st = Ok u st' tr →
  perturbed_images (events tr) = replicate (Z.to_nat (n_perturbations st - 1)) i.
Proof.
  unfold perturb_image. intros H. run.
  match goal with
  | Hg : for_each _ _ _ = Ok _ _ _ |- _ =>
      apply (for_each_inv _ (λ done _ t,
               perturbed_images (events t) = replicate (length done) i)) in Hg
  end.
  - simpl. by rewrite H, length_seqZ.
  - done.
  - intros done j s tr0 v s' tr1 _ IH Hx.
    apply perturb_once_Ok in Hx as (img & a & b & p & g & _ & _ & _ & _ & ->).
    rewrite events_app, perturbed_images_app, IH, length_app. simpl.
    by rewrite Nat.add_1_r, replicate_S_end.
Qed.

Lemma perturb_batch_images cfg group bb_group keys (batch : list ref) st u st' tr :
  for_each batch (perturb_image cfg group bb_group keys) st = Ok u st' tr →
  perturbed_images (events tr)
    = batch ≫= replicate (Z.to_nat (n_perturbations st - 1)).
Proof.
  intros H.
  apply (for_each_inv _ (λ done s t,
           n_perturbations s = n_perturbations st ∧
           perturbed_images (events t)
             = done ≫= replicate (Z.to_nat (n_perturbations st - 1)))) in H;
    [by destruct H|done|].
  intros done x s tr0 v s' tr1 _ (Hn & IH) Hx.
  pose proof (perturb_image_images _ _ _ _ _ _ _ _ _ Hx) as Himgs.
  apply perturb_image_Ok in Hx as ((_ & Hn' & _) & _).
  split; [congruence|].
  rewrite events_app, perturbed_images_app, IH, Himgs, Hn, bind_app. simpl.
  by rewrite app_nil_r.
Qed.

Lemma train_batch_boxes cfg bbg bs (batch : list ref) group inc st g st' tr :
  train_batch cfg bbg bs batch group inc st = Ok g st' tr →
  ∃ tr_ref s0 rs rescaled tr_gt s1 i0 img0 keys1 tr_p s2 img2 keys2 tr_loop passes,
    let bb := resolved_bb_group bbg in
    tr = tr_ref ++ [(s0, ERescale batch rescaled)] ++ tr_gt ++
         [(s1, EKeysMatching i0 ("*" +:+ bb +:+ "*") keys1)] ++ tr_p ++
         [(s2, EKeysMatching i0 ("*" +:+ bb +:+ "*") keys2)] ++ tr_loop ∧
    Forall (λ e, kind_of e ∈ [KWarn; KRefShape]) (events tr_ref) ∧
    warnings (events tr_ref) = reference_warning (reference_shape st) bs ∧
    n_perturbations s0 = n_perturbations st ∧
    reference_shape s0 = Some rs ∧
    rescaled = (rescale_images_to_reference_shape (image_store s0) batch g rs).2 ∧
    match bbg with
    | None =>
        for_each rescaled (attach_gt_box g)
          (set_image_store
             (rescale_images_to_reference_shape (image_store s0) batch g rs).1 s0)
          = Ok tt s1 tr_gt
    | Some _ =>
        s1 = set_image_store
               (rescale_images_to_reference_shape (image_store s0) batch g rs).1 s0 ∧
        tr_gt = []
    end ∧
    n_perturbations s1 = n_perturbations st ∧
    Forall (λ e, kind_of e ∈ [KAttach]) (events tr_gt) ∧
    head rescaled = Some i0 ∧
    image_store s1 !! i0 = Some img0 ∧
    keys1 = Landmarks.keys_matching fnmatch ("*" +:+ bb +:+ "*") (landmarks img0) ∧
    (if decide (Z.of_nat (length keys1) = 1) then
       for_each rescaled (perturb_image cfg g bb keys1) s1 = Ok tt s2 tr_p
     else if decide (Z.of_nat (length keys1) ≠ n_perturbations s1) then
       tr_p = [(s1, EWarn (NPerturbWarning (n_perturbations s1)
                             (Z.of_nat (length keys1))))] ∧
       s2 = set_n_perturbations (Z.of_nat (length keys1)) s1
     else tr_p = [] ∧ s2 = s1) ∧
    image_store s2 !! i0 = Some img2 ∧
    keys2 = Landmarks.keys_matching fnmatch ("*" +:+ bb +:+ "*") (landmarks img2) ∧
    events tr_loop = loop_events cfg (method_of inc) 0 passes ∧
    length passes = n_scales cfg ∧
    passes_ok cfg rescaled g keys2 inc s2 None 0 passes ∧
    image_store st' = image_store s2 ∧
    reference_shape st' = reference_shape s2 ∧
    n_perturbations st' = n_perturbations s2.
Proof.
  intros (tr_ref & s0 & rs & store1 & rescaled & bb & s2 & tr_bb & i0 & img2
          & keys2 & fi & cs & tr_loop & _ & Href & Hrs & Hresc & Hbb & Hhd & Himg2
          & Hkeys2 & Hloop & ->)%train_batch_Ok.
  apply scale_loop_Ok in Hloop
    as (passes & Hlen & Hok & Hev & Hrs2 & Hnp2 & Him2 & _ & _).
  apply resolve_bounding_boxes_Ok in Hbb
    as (tr_gt & s1 & i1 & img0 & keys1 & tr_p & -> & -> & Hgt & Hhd1 & Himg0
        & Hkeys1 & Hp).
  rewrite Hhd in Hhd1. injection Hhd1 as <-.
  exists tr_ref, s0, rs, rescaled, tr_gt, s1, i0, img0, keys1, tr_p, s2, img2,
    keys2, tr_loop, passes.
  rewrite Hresc. cbn [fst snd].
  assert (Forall (λ e, kind_of e ∈ [KWarn; KRefShape]) (events tr_ref) ∧
          warnings (events tr_ref) = reference_warning (reference_shape st) bs ∧
          n_perturbations s0 = n_perturbations st) as (Hkref & Hwref & Hnp0).
  { destruct (reference_shape st).
    - destruct Href as (-> & ->). split_and!; [constructor|done|done].
    - destruct Href as (shapes & _ & -> & ->).
      destruct bs; split_and!; try done; repeat constructor. }
  assert (n_perturbations s1 = n_perturbations st) as Hnp1.
  { rewrite <- Hnp0. destruct bbg as [?|]; [by destruct Hgt as (-> & _)|].
    by apply gt_boxes_Ok in Hgt as (_ & -> & _). }
  assert (Forall (λ e, kind_of e ∈ [KAttach]) (events tr_gt)) as Hkgt.
  { destruct bbg as [?|]; [destruct Hgt as (_ & ->); constructor|].
    by eapply gt_boxes_kinds. }
  split_and!; try done.
  by rewrite <- !app_assoc.
Qed.

Ltac other_kinds k ks evs :=
  rewrite (omap_other_kinds _ k ks evs); [|by intros []|done|kind_absent].
Ltac other_kinds_in H k ks evs :=
  rewrite (omap_other_kinds _ k ks evs) in H; [|by intros []|done|kind_absent].

(** X9.  When the first image has one bounding box under the bounding box
    group, the perturbation strategy is called for the images of the rescaled
    batch one after the other, [n_perturbations - 1] times for each (not at
    all when [n_perturbations] is 1 or less); [n_perturbations] stays as it
    is and no warning about it is given. *)
Theorem one_box_is_perturbed_for_every_image cfg bbg bs (batch : list ref)
    group inc st g st' tr keys1 :
  train_batch cfg bbg bs batch group inc st = Ok g st' tr →
  head (keys_calls (events tr)) = Some keys1 →
  length keys1 = 1%nat →
  ∃ rescaled,
    ERescale batch rescaled ∈ events tr ∧
    perturbed_images (events tr)
      = rescaled ≫= replicate (Z.to_nat (n_perturbations st - 1)) ∧
    n_perturbations st' = n_perturbations st ∧
    warnings (events tr) = reference_warning (reference_shape st) bs.
Proof.
  intros (tr_ref & s0 & rs & rescaled & tr_gt & s1 & i0 & img0 & keys1' & tr_p
          & s2 & img2 & keys2 & tr_loop & passes & -> & Hkref & Hwref & _ & _
          & _ & _ & Hnp1 & Hkgt & _ & _ & _ & Hp & _ & _ & Hev & _ & _ & _ & _
          & Hnp2)%train_batch_boxes Hhd Hone.
  pose proof (loop_events_kinds cfg (method_of inc) 0 passes) as Hkl.
  rewrite <- Hev in Hkl.
  assert (keys1' = keys1) as ->.
  { unfold keys_calls in Hhd. rewrite !events_app, !omap_app in Hhd.
    other_kinds_in Hhd KKeysMatching [KWarn; KRefShape] (events tr_ref).
    other_kinds_in Hhd KKeysMatching [KAttach] (events tr_gt).
    simpl in Hhd. by injection Hhd. }
  rewrite decide_True in Hp by lia.
  pose proof (perturb_batch_images _ _ _ _ _ _ _ _ _ Hp) as Himgs.
  apply perturb_batch_Ok in Hp as ((_ & Hnp & Hkp & _) & _).
  exists rescaled. split_and!.
  - rewrite !events_app. apply elem_of_app. right. apply elem_of_app. left.
    constructor.
  - rewrite !events_app, !perturbed_images_app, Himgs, Hnp1.
    unfold perturbed_images.
    other_kinds KPerturb [KWarn; KRefShape] (events tr_ref).
    other_kinds KPerturb [KAttach] (events tr_gt).
    other_kinds KPerturb in_loop (events tr_loop).
    simpl. by rewrite app_nil_r.
  - congruence.
  - unfold warnings in *. rewrite !events_app, !omap_app, Hwref.
    other_kinds KWarn [KAttach] (events tr_gt).
    other_kinds KWarn [KPerturb; KAttach] (events tr_p).
    other_kinds KWarn in_loop (events tr_loop).
    simpl. by rewrite app_nil_r.
Qed.

(** ** What the images hold under a key *)

Lemma landmark_of_attach (store : list image) i img key v i' key' :
  store !! i = Some img →
  landmark_of
    (<[i := mkImage (pixels img) (Landmarks.set key v (landmarks img))]> store)
    i' key'
    = if decide (i' = i ∧ key' = key) then Some v else landmark_of store i' key'.
Proof.
  intros Hi. unfold landmark_of.
  destruct (decide (i' = i)) as [->|Hne].
  - rewrite list_lookup_insert_eq by (by eapply lookup_lt_Some).
    rewrite Hi. simpl.
    destruct (decide (key' = key)) as [->|Hk].
    + rewrite decide_True by done. apply get_set_eq.
    + rewrite decide_False by (by intros [_ ?]). apply get_set_ne. congruence.
  - rewrite list_lookup_insert_ne by done.
    by rewrite decide_False by (by intros [? _]).
Qed.

Lemma labels_prefix_set key (v : Shape) lms :
  Landmarks.group_labels lms
    `prefix_of` Landmarks.group_labels (Landmarks.set key v lms).
Proof.
  unfold Landmarks.group_labels.
  induction lms as [|[k w] lms IH]; simpl; [apply prefix_nil|].
  destruct (decide (k = key)); simpl; [done|]. by apply prefix_cons.
Qed.

Lemma labels_extend_refl store : labels_extend store store.
Proof. intros i img Hi. by exists img. Qed.

Lemma labels_extend_trans s1 s2 s3 :
  labels_extend s1 s2 → labels_extend s2 s3 → labels_extend s1 s3.
Proof.
  intros H1 H2 i img Hi.
  destruct (H1 _ _ Hi) as (img2 & Hi2 & Hp2).
  destruct (H2 _ _ Hi2) as (img3 & Hi3 & Hp3).
  exists img3. split; [done|]. by etrans.
Qed.

Lemma labels_extend_attach (store : list image) i img key v :
  store !! i = Some img →
  labels_extend store
    (<[i := mkImage (pixels img) (Landmarks.set key v (landmarks img))]> store).
Proof.
  intros Hi i' img' Hi'. destruct (decide (i' = i)) as [->|Hne].
  - rewrite list_lookup_insert_eq by (by eapply lookup_lt_Some).
    eexists. split; [done|]. simpl. simplify_eq. apply labels_prefix_set.
  - rewrite list_lookup_insert_ne by done. by exists img'.
Qed.

(** What the perturbations of one image, and of a batch, leave alone: what
    the images hold under a key that is not the key of a generated bounding
    box, in every state along the way; and the order of the landmark
    groups. *)
Lemma perturb_image_keeps cfg group bb_group keys i st u st' tr key :
  perturb_image cfg group bb_group keys i st = Ok u st' tr →
  (∀ j, 1 ≤ j < n_perturbations st → key ≠ perturbed_key bb_group j) →
  (∀ i', landmark_of (image_store st') i' key
         = landmark_of (image_store st) i' key) ∧
  (∀ s e i', (s, e) ∈ tr →
     landmark_of (image_store s) i' key = landmark_of (image_store st) i' key).
Proof.
  unfold perturb_image. intros H Hkey. run.
  match goal with
  | Hg : for_each _ _ _ = Ok _ _ _ |- _ =>
      apply (for_each_inv _ (λ _ s t,
               (∀ i', landmark_of (image_store s) i' key
                      = landmark_of (image_store st) i' key) ∧
               (∀ s0 e i', (s0, e) ∈ t →
                  landmark_of (image_store s0) i' key
                  = landmark_of (image_store st) i' key))) in Hg
  end.
  - done.
  - split; [done|]. intros s0 e i' Hin. by apply elem_of_nil in Hin.
  - intros done j s tr0 v s' tr1 Hj (Hs & Htr) Hx.
    apply elem_of_seqZ in Hj.
    apply perturb_once_Ok in Hx as (img & a & b & p & g & _ & Himg & _ & -> & ->).
    split.
    + intros i'. simpl. rewrite (landmark_of_attach _ _ _ _ _ _ _ Himg).
      rewrite decide_False; [done|]. intros [_ ->]. eapply Hkey; [|done]. lia.
    + intros s0 e i' [Hin|Hin]%elem_of_app; [eauto|].
      apply elem_of_cons in Hin as [Heq|Hin]; [by simplify_eq|].
      apply list_elem_of_singleton in Hin. by simplify_eq.
Qed.

Lemma perturb_image_labels cfg group bb_group keys i st u st' tr :
  perturb_image cfg group bb_group keys i st = Ok u st' tr →
  labels_extend (image_store st) (image_store st').
Proof.
  unfold perturb_image. intros H. run.
  match goal with
  | Hg : for_each _ _ _ = Ok _ _ _ |- _ =>
      apply (for_each_inv _ (λ _ s _,
               labels_extend (image_store st) (image_store s))) in Hg
  end.
  - done.
  - apply labels_extend_refl.
  - intros done j s tr0 v s' tr1 _ IH Hx.
    apply perturb_once_Ok in Hx as (img & a & b & p & g & _ & Himg & _ & -> & _).
    eapply labels_extend_trans; [done|]. simpl. by apply labels_extend_attach.
Qed.

Lemma perturb_batch_keeps cfg group bb_group keys (batch : list ref) st u st' tr key :
  for_each batch (perturb_image cfg group bb_group keys) st = Ok u st' tr →
  (∀ j, 1 ≤ j < n_perturbations st → key ≠ perturbed_key bb_group j) →
  (∀ i', landmark_of (image_store st') i' key
         = landmark_of (image_store st) i' key) ∧
  (∀ s e i', (s, e) ∈ tr →
     landmark_of (image_store s) i' key = landmark_of (image_store st) i' key).
Proof.
  intros H Hkey.
  apply (for_each_inv _ (λ _ s t,
           n_perturbations s = n_perturbations st ∧
           (∀ i', landmark_of (image_store s) i' key
                  = landmark_of (image_store st) i' key) ∧
           (∀ s0 e i', (s0, e) ∈ t →
              landmark_of (image_store s0) i' key
              = landmark_of (image_store st) i' key))) in H.
  - by destruct H as (_ & ? & ?).
  - split_and!; [done|done|]. intros s0 e i' Hin. by apply elem_of_nil in Hin.
  - intros done x s tr0 v s' tr1 _ (Hn & Hs & Htr) Hx.
    pose proof Hx as ((_ & Hn' & _) & _)%perturb_image_Ok.
    apply (perturb_image_keeps _ _ _ _ _ _ _ _ _ key) in Hx as (Hs' & Htr');
      [|by rewrite Hn].
    split_and!; [congruence| |].
    + intros i'. by rewrite Hs', Hs.
    + intros s0 e i' [Hin|Hin]%elem_of_app; [eauto|].
      by rewrite (Htr' _ _ _ Hin), Hs.
Qed.

Lemma perturb_batch_labels cfg group bb_group keys (batch : list ref) st u st' tr :
  for_each batch (perturb_image cfg group bb_group keys) st = Ok u st' tr →
  labels_extend (image_store st) (image_store st').
Proof.
  intros H.
  apply (for_each_inv _ (λ _ s _,
           labels_extend (image_store st) (image_store s))) in H;
    [done|apply labels_extend_refl|].
  intros done x s tr0 v s' tr1 _ IH Hx.
  apply perturb_image_labels in Hx. by eapply labels_extend_trans.
Qed.

Lemma not_elem_of_kinds (ks : list kind) (tr : trace) s e :
  Forall (λ e, kind_of e ∈ ks) (events tr) → kind_of e ∉ ks → (s, e) ∉ tr.
Proof. intros HF Hk Hin. apply Hk. by eapply elem_of_kinds. Qed.

Lemma keys_events_app evs1 evs2 :
  keys_events (evs1 ++ evs2) = keys_events evs1 ++ keys_events evs2.
Proof. apply omap_app. Qed.

Lemma keys_matching_prefix pattern (lms lms' : Landmarks.t Shape) :
  Landmarks.group_labels lms `prefix_of` Landmarks.group_labels lms' →
  Landmarks.keys_matching fnmatch pattern lms
    `prefix_of` Landmarks.keys_matching fnmatch pattern lms'.
Proof.
  unfold Landmarks.keys_matching. intros [k ->].
  rewrite filter_app. by apply prefix_app_r.
Qed.

(** The trace of the bounding boxes of a batch, by kind. *)
Lemma train_batch_boxes_kinds cfg (keys1 : list string) (rescaled : list ref)
    g bb s1 s2 (tr_p : trace) :
  (if decide (Z.of_nat (length keys1) = 1) then
     for_each rescaled (perturb_image cfg g bb keys1) s1 = Ok tt s2 tr_p
   else if decide (Z.of_nat (length keys1) ≠ n_perturbations s1) then
     tr_p = [(s1, EWarn (NPerturbWarning (n_perturbations s1)
                           (Z.of_nat (length keys1))))] ∧
     s2 = set_n_perturbations (Z.of_nat (length keys1)) s1
   else tr_p = [] ∧ s2 = s1) →
  Forall (λ e, kind_of e ∈ [KPerturb; KAttach; KWarn]) (events tr_p) ∧
  labels_extend (image_store s1) (image_store s2).
Proof.
  intros Hp. repeat case_decide.
  - split; [|by eapply perturb_batch_labels].
    apply perturb_batch_Ok in Hp as ((_ & _ & Hk & _) & _).
    eapply Forall_kinds_weaken; [|done]. kinds_incl.
  - destruct Hp as (-> & ->). split; [repeat constructor|apply labels_extend_refl].
  - destruct Hp as (-> & ->). split; [constructor|apply labels_extend_refl].
Qed.

(** X10.  The bounding boxes of a batch are looked up on its first image
    only: [keys_matching] is called twice in a batch, both times on the first
    image of the rescaled batch and with the pattern ['*bb_group*']; what the
    first call finds decides between perturbing and taking the boxes as they
    are, and what the second finds, after the perturbations, is what the
    estimates of every image are made from.  Landmark groups are only added
    in between, after the ones that were there: the second call finds the
    keys of the first, in the same order, and then the new ones. *)
Theorem boxes_are_looked_up_on_the_first_image cfg bbg bs (batch : list ref)
    group inc st g st' tr :
  train_batch cfg bbg bs batch group inc st = Ok g st' tr →
  ∃ rescaled i0 img keys1 keys2,
    let pattern := "*" +:+ resolved_bb_group bbg +:+ "*" in
    ERescale batch rescaled ∈ events tr ∧
    head rescaled = Some i0 ∧
    keys_events (events tr) = [(i0, pattern, keys1); (i0, pattern, keys2)] ∧
    keys1 `prefix_of` keys2 ∧
    image_store st' !! i0 = Some img ∧
    keys2 = Landmarks.keys_matching fnmatch pattern (landmarks img).
Proof.
  intros (tr_ref & s0 & rs & rescaled & tr_gt & s1 & i0 & img0 & keys1 & tr_p
          & s2 & img2 & keys2 & tr_loop & passes & -> & Hkref & _ & _ & _
          & _ & _ & _ & Hkgt & Hhd & Himg0 & Hkeys1 & Hp & Himg2 & Hkeys2 & Hev
          & _ & _ & Him & _)%train_batch_boxes.
  pose proof (loop_events_kinds cfg (method_of inc) 0 passes) as Hkl.
  rewrite <- Hev in Hkl.
  apply train_batch_boxes_kinds in Hp as (Hkp & Hext).
  exists rescaled, i0, img2, keys1, keys2. split_and!; [|done| | | |done].
  - rewrite !events_app. apply elem_of_app. right. apply elem_of_app. left.
    constructor.
  - unfold keys_events. rewrite !events_app, !omap_app.
    other_kinds KKeysMatching [KWarn; KRefShape] (events tr_ref).
    other_kinds KKeysMatching [KAttach] (events tr_gt).
    other_kinds KKeysMatching [KPerturb; KAttach; KWarn] (events tr_p).
    other_kinds KKeysMatching in_loop (events tr_loop).
    done.
  - destruct (Hext _ _ Himg0) as (img2' & Himg2' & Hpre).
    rewrite Himg2 in Himg2'. injection Himg2' as <-.
    rewrite Hkeys1, Hkeys2. by apply keys_matching_prefix.
  - by rewrite Him.
Qed.

Lemma perturb_event_of_boxes (tr_ref tr_gt tr_p tr_loop : trace) e1 e2 e3 s e :
  Forall (λ e, kind_of e ∈ [KWarn; KRefShape]) (events tr_ref) →
  Forall (λ e, kind_of e ∈ [KAttach]) (events tr_gt) →
  Forall (λ e, kind_of e ∈ in_loop) (events tr_loop) →
  kind_of e1.2 = KRescale → kind_of e2.2 = KKeysMatching →
  kind_of e3.2 = KKeysMatching →
  kind_of e = KPerturb →
  (s, e) ∈ tr_ref ++ [e1] ++ tr_gt ++ [e2] ++ tr_p ++ [e3] ++ tr_loop →
  (s, e) ∈ tr_p.
Proof.
  intros Hkref Hkgt Hkl H1 H2 H3 He Hin.
  repeat (apply elem_of_app in Hin as [Hin|Hin]); try done.
  - exfalso. revert Hin. apply (not_elem_of_kinds _ _ _ _ Hkref).
    rewrite He. kind_absent.
  - apply list_elem_of_singleton in Hin. subst e1. simpl in H1. congruence.
  - exfalso. revert Hin. apply (not_elem_of_kinds _ _ _ _ Hkgt).
    rewrite He. kind_absent.
  - apply list_elem_of_singleton in Hin. subst e2. simpl in H2. congruence.
  - apply list_elem_of_singleton in Hin. subst e3. simpl in H3. congruence.
  - exfalso. revert Hin. apply (not_elem_of_kinds _ _ _ _ Hkl).
    rewrite He. kind_absent.
Qed.

Lemma first_keys_call (tr_ref tr_gt rest : trace) s e1 i pattern keys :
  Forall (λ e, kind_of e ∈ [KWarn; KRefShape]) (events tr_ref) →
  Forall (λ e, kind_of e ∈ [KAttach]) (events tr_gt) →
  kind_of e1.2 = KRescale →
  head (keys_calls (events (tr_ref ++ [e1] ++ tr_gt ++
                            [(s, EKeysMatching i pattern keys)] ++ rest)))
    = Some keys.
Proof.
  intros Hkref Hkgt H1. unfold keys_calls. rewrite !events_app, !omap_app.
  other_kinds KKeysMatching [KWarn; KRefShape] (events tr_ref).
  other_kinds KKeysMatching [KAttach] (events tr_gt).
  destruct e1 as [s1 []]; done.
Qed.

Lemma keys_states_app (tr1 tr2 : trace) :
  keys_states (tr1 ++ tr2) = keys_states tr1 ++ keys_states tr2.
Proof. apply omap_app. Qed.

Lemma keys_states_none (ks : list kind) (tr : trace) :
  Forall (λ e, kind_of e ∈ ks) (events tr) → KKeysMatching ∉ ks →
  keys_states tr = [].
Proof.
  unfold events. rewrite Forall_fmap. intros HF Hk.
  induction HF as [|[s e] tr He _ IH]; [done|].
  unfold keys_states in *.
  change (omap ?f ((s, e) :: tr))
    with (match f (s, e) with Some y => y :: omap f tr | None => omap f tr end).
  rewrite IH. simpl in *. by destruct e.
Qed.

(** C7, as the code has it.  In every batch, every call of the perturbation
    strategy is made for an image [i] of a batch whose first image was found
    to have one bounding box, under a key [key0].  Its first argument is the
    bounding box of the shape that [i] holds under the group when the call is
    made (and not that shape itself); its second argument is the bounding box
    that [i] holds under [key0] when the call is made; the strategy returns
    one shape.  When [key0] is not the key of a generated bounding box, the
    second argument is the seed bounding box: what [i] held under [key0] when
    the bounding boxes were looked up, before any perturbation; and when the
    group is not such a key either, the first argument is the bounding box
    of the ground truth shape [i] held then. *)
Theorem perturbation_strategy_arguments cfg bbg bs (batch : list ref)
    group inc st g st' tr :
  train_batch cfg bbg bs batch group inc st = Ok g st' tr →
  ∃ s1 keys1,
    head (keys_states tr) = Some (s1, keys1) ∧
    head (keys_calls (events tr)) = Some keys1 ∧
    ∀ s i gt_s bb p_s,
      (s, EPerturb i gt_s bb p_s) ∈ tr →
      length keys1 = 1%nat ∧
      ∃ img gt key0,
        image_store s !! i = Some img ∧
        Landmarks.get g (landmarks img) = Some gt ∧
        gt_s = bounding_box gt ∧
        head keys1 = Some key0 ∧
        Landmarks.get key0 (landmarks img) = Some bb ∧
        p_s = (_perturb_from_bounding_box cfg gt_s bb (rng s)).1 ∧
        ((∀ j, 1 ≤ j < n_perturbations st →
               key0 ≠ perturbed_key (resolved_bb_group bbg) j) →
         landmark_of (image_store s1) i key0 = Some bb) ∧
        ((∀ j, 1 ≤ j < n_perturbations st →
               g ≠ perturbed_key (resolved_bb_group bbg) j) →
         landmark_of (image_store s1) i g = Some gt).
Proof.
  intros (tr_ref & s0 & rs & rescaled & tr_gt & s1 & i0 & img0 & keys1 & tr_p
          & s2 & img2 & keys2 & tr_loop & passes & -> & Hkref & _ & _ & _
          & _ & _ & Hnp1 & Hkgt & Hhd & Himg0 & Hkeys1 & Hp & Himg2 & Hkeys2 & Hev
          & _ & _ & Him & _)%train_batch_boxes.
  pose proof (loop_events_kinds cfg (method_of inc) 0 passes) as Hkl.
  rewrite <- Hev in Hkl.
  exists s1, keys1. split_and!.
  - rewrite !keys_states_app.
    rewrite (keys_states_none _ tr_ref Hkref) by kind_absent.
    by rewrite (keys_states_none _ tr_gt Hkgt) by kind_absent.
  - by apply first_keys_call.
  - intros s i gt_s bb p_s Hin.
    apply perturb_event_of_boxes in Hin; [|done..].
    destruct (decide (Z.of_nat (length keys1) = 1)) as [Hone|Hne].
    + pose proof Hp as ((_ & _ & _ & Hcalls) & _)%perturb_batch_Ok.
      destruct (Hcalls _ _ _ _ _ Hin)
        as (img & gt & key0 & Himg & Hgt & -> & Hk0 & Hbb & ->).
      split; [lia|]. exists img, gt, key0. split_and!; try done.
      * intros Hkey.
        apply (perturb_batch_keeps _ _ _ _ _ _ _ _ _ key0) in Hp as (_ & Hall);
          [|by rewrite Hnp1].
        rewrite <- (Hall _ _ i Hin). unfold landmark_of. by rewrite Himg.
      * intros Hkey.
        apply (perturb_batch_keeps _ _ _ _ _ _ _ _ _ g) in Hp as (_ & Hall);
          [|by rewrite Hnp1].
        rewrite <- (Hall _ _ i Hin). unfold landmark_of. by rewrite Himg.
    + exfalso. destruct (decide (Z.of_nat (length keys1) ≠ n_perturbations s1)).
      * destruct Hp as (-> & _). apply list_elem_of_singleton in Hin. done.
      * destruct Hp as (-> & _). by apply elem_of_nil in Hin.
Qed.

(** X11.  When the first image has one bounding box, under a key that is not
    the key of a generated bounding box, that box is never overwritten: from
    any call of the perturbation strategy to the end of the batch, every image
    holds under the key what it held, and every call for an image is given,
    as its second argument, the box the image holds under the key. *)
Theorem seed_box_is_kept_without_key_clash cfg bbg bs (batch : list ref)
    group inc st g st' tr key0 :
  train_batch cfg bbg bs batch group inc st = Ok g st' tr →
  head (keys_calls (events tr)) = Some [key0] →
  (∀ j, 1 ≤ j < n_perturbations st →
        key0 ≠ perturbed_key (resolved_bb_group bbg) j) →
  ∀ s i gt_s bb p_s,
    (s, EPerturb i gt_s bb p_s) ∈ tr →
    landmark_of (image_store s) i key0 = Some bb ∧
    ∀ i', landmark_of (image_store st') i' key0
          = landmark_of (image_store s) i' key0.
Proof.
  intros (tr_ref & s0 & rs & rescaled & tr_gt & s1 & i0 & img0 & keys1 & tr_p
          & s2 & img2 & keys2 & tr_loop & passes & -> & Hkref & _ & _ & _
          & _ & _ & Hnp1 & Hkgt & Hhd & Himg0 & Hkeys1 & Hp & Himg2 & Hkeys2 & Hev
          & _ & _ & Him & _)%train_batch_boxes Hfirst Hkey s i gt_s bb p_s Hin.
  pose proof (loop_events_kinds cfg (method_of inc) 0 passes) as Hkl.
  rewrite <- Hev in Hkl.
  rewrite first_keys_call in Hfirst by done. injection Hfirst as Hk1.
  apply perturb_event_of_boxes in Hin; [|done..].
  rewrite Hk1 in Hp. rewrite decide_True in Hp by done.
  pose proof Hp as ((_ & _ & _ & Hcalls) & _)%perturb_batch_Ok.
  apply (perturb_batch_keeps _ _ _ _ _ _ _ _ _ key0) in Hp as (Hend & Hall);
    [|by rewrite Hnp1].
  destruct (Hcalls _ _ _ _ _ Hin) as (img & gt & k0 & Himg & _ & _ & Hk0 & Hbb & _).
  simpl in Hk0. injection Hk0 as <-.
  split.
  - unfold landmark_of. rewrite Himg. done.
  - intros i'. rewrite Him, Hend. symmetry. by eapply Hall.
Qed.

(** ** The ground truth bounding box *)

Lemma gt_key_is_no_perturbed_key j : "__gt_bb_0" ≠ perturbed_key "__gt_bb_" j.
Proof. unfold perturbed_key. simpl. discriminate. Qed.

Lemma gt_boxes_values group (batch : list ref) st u st' tr :
  for_each batch (attach_gt_box group) st = Ok u st' tr →
  group ≠ "__gt_bb_0" →
  (∀ i key, key ≠ "__gt_bb_0" →
     landmark_of (image_store st') i key = landmark_of (image_store st) i key) ∧
  (∀ i, i ∈ batch →
     ∃ gt, landmark_of (image_store st) i group = Some gt ∧
           landmark_of (image_store st') i "__gt_bb_0" = Some (bounding_box gt)).
Proof.
  intros H Hg.
  apply (for_each_inv _ (λ done s _,
           (∀ i key, key ≠ "__gt_bb_0" →
              landmark_of (image_store s) i key
              = landmark_of (image_store st) i key) ∧
           (∀ i, i ∈ done →
              ∃ gt, landmark_of (image_store st) i group = Some gt ∧
                    landmark_of (image_store s) i "__gt_bb_0"
                    = Some (bounding_box gt)))) in H; [done| |].
  - split; [done|]. intros i Hi. by apply elem_of_nil in Hi.
  - intros done x s tr0 v s' tr1 _ (Hframe & Hdone) Hx.
    apply attach_gt_box_Ok in Hx as (img & gt & Himg & Hgt & -> & _).
    assert (landmark_of (image_store st) x group = Some gt) as Hgt0.
    { rewrite <- Hframe by done. unfold landmark_of. by rewrite Himg. }
    split.
    + intros i key Hkey. simpl. rewrite (landmark_of_attach _ _ _ _ _ _ _ Himg).
      rewrite decide_False by (by intros [_ ?]). by apply Hframe.
    + intros i Hi. simpl. rewrite (landmark_of_attach _ _ _ _ _ _ _ Himg).
      destruct (decide (i = x ∧ "__gt_bb_0" = "__gt_bb_0")) as [[-> _]|Hne].
      * by exists gt.
      * apply elem_of_app in Hi as [Hi|Hi]; [by apply Hdone|].
        apply list_elem_of_singleton in Hi. by destruct Hne.
Qed.

(** X12.  Without a bounding box group, every image of the rescaled batch
    holds, when the batch is done, the bounding box of its ground truth shape
    under ['__gt_bb_0'] (lines 116-119): the generated bounding boxes go
    under other keys and leave it alone.  (The group of the ground truth
    shapes is taken not to be one of these keys itself.) *)
Theorem ground_truth_box_is_kept cfg bs (batch : list ref) group inc st g st' tr :
  train_batch cfg None bs batch group inc st = Ok g st' tr →
  g ≠ "__gt_bb_0" →
  (∀ j, g ≠ perturbed_key "__gt_bb_" j) →
  ∃ rescaled,
    ERescale batch rescaled ∈ events tr ∧
    ∀ i, i ∈ rescaled →
      ∃ gt, landmark_of (image_store st') i g = Some gt ∧
            landmark_of (image_store st') i "__gt_bb_0" = Some (bounding_box gt).
Proof.
  intros (tr_ref & s0 & rs & rescaled & tr_gt & s1 & i0 & img0 & keys1 & tr_p
          & s2 & img2 & keys2 & tr_loop & passes & -> & _ & _ & _ & _
          & _ & Hgt & Hnp1 & _ & _ & _ & _ & Hp & _ & _ & _
          & _ & _ & Him & _)%train_batch_boxes Hg Hgj.
  exists rescaled. split.
  { rewrite !events_app. apply elem_of_app. right. apply elem_of_app. left.
    constructor. }
  apply gt_boxes_values in Hgt as (Hframe & Hval); [|done].
  assert (∀ i key, (∀ j, key ≠ perturbed_key "__gt_bb_" j) →
            landmark_of (image_store s2) i key
            = landmark_of (image_store s1) i key) as Hkeep.
  { intros i key Hkey. simpl in Hp. repeat case_decide.
    - by apply (perturb_batch_keeps _ _ _ _ _ _ _ _ _ key) in Hp as (-> & _).
    - by destruct Hp as (_ & ->).
    - by destruct Hp as (_ & ->). }
  intros i Hi. destruct (Hval _ Hi) as (gt & Hgt0 & Hbox).
  exists gt. rewrite Him, !Hkeep; [|apply gt_key_is_no_perturbed_key|done].
  split; [|done]. by rewrite Hframe.
Qed.

(** ** The estimates a batch starts from *)

Lemma rows_in_store {A} (pre : list A) (row post : list A) :
  Forall2 (λ s r, (pre ++ row ++ post) !! r = Some s)
          row (seq (length pre) (length row)).
Proof.
  revert pre. induction row as [|s row IH]; intros pre; [constructor|].
  simpl. constructor.
  - by rewrite list_lookup_middle.
  - specialize (IH (pre ++ [s])). rewrite length_app in IH. simpl in IH.
    rewrite Nat.add_1_r, <- app_assoc in IH. exact IH.
Qed.

Lemma estimates_in_store {A} (store : list A) (shapes : list (list A))
    (current : list (list ref)) :
  Forall2 (λ row refs, length row = length refs) shapes current →
  concat current = seq (length store) (length (concat shapes)) →
  Forall2 (λ row refs,
             Forall2 (λ s r, (store ++ concat shapes) !! r = Some s) row refs)
          shapes current.
Proof.
  intros HF. revert store.
  induction HF as [|row refs shapes current Hlen _ IH]; intros store Hseq;
    [constructor|].
  simpl in Hseq. rewrite length_app, seq_app in Hseq.
  apply app_inj_1 in Hseq as (-> & Hrest); [|by rewrite length_seq].
  simpl. constructor.
  - apply rows_in_store.
  - specialize (IH (store ++ row)). rewrite length_app, <- app_assoc in IH.
    by apply IH.
Qed.

Lemma Forall2_compose {A B D} (P : A → B → Prop) (Q : B → D → Prop)
    (R : A → D → Prop) l1 l2 l3 :
  (∀ a b d, P a b → Q b d → R a d) →
  Forall2 P l1 l2 → Forall2 Q l2 l3 → Forall2 R l1 l3.
Proof.
  intros HR HP. revert l3.
  induction HP as [|a b l1 l2 Hab _ IH]; intros l3 HQ.
  - apply Forall2_nil_inv_l in HQ as ->. constructor.
  - apply Forall2_cons_inv_l in HQ as (d & l3' & Hbd & HQ & ->).
    constructor; eauto.
Qed.

(** X13.  The estimates the first algorithm of a batch is given (lines
    199-207): for every image handed to that algorithm, and for every key the
    second call of [keys_matching] found, in that order, the reference shape
    of the fitter aligned with the bounding box the image holds under the
    key; each of them a shape object of its own. *)
Theorem estimates_start_from_the_boxes cfg bbg bs (batch : list ref)
    group inc st g st' tr images store_in current_in store_out current_out :
  train_batch cfg bbg bs batch group inc st = Ok g st' tr →
  head (stage_images (events tr)) = Some images →
  head (stage_shapes (events tr))
    = Some (store_in, current_in, store_out, current_out) →
  ∃ keys rs,
    last (keys_calls (events tr)) = Some keys ∧
    reference_shape st' = Some rs ∧
    Forall2 (λ (img : image) estimates,
               Forall2 (λ key r,
                          ∃ box, Landmarks.get key (landmarks img) = Some box ∧
                                 store_in !! r
                                 = Some (align_shape_with_bounding_box rs box))
                       keys estimates)
            images current_in ∧
    NoDup (concat current_in).
Proof.
  intros Hrun Himgs Hio.
  pose proof (train_batch_rescale _ _ _ _ _ _ _ _ _ _ Hrun) as (_ & [rs Hrs]).
  apply train_batch_loop in Hrun
    as (pre & rescaled & s2 & keys & passes & Hev & Hpre & _ & Hlast & Hlen
        & Hok & _ & Hrs2 & _).
  assert (stage_shapes (events tr) = io_of <$> passes ∧
          stage_images (events tr) = p_images <$> passes ∧
          last (keys_calls (events tr)) = Some keys) as (Hios & Hims & Hkeys).
  { pose proof (loop_events_kinds cfg (method_of inc) 0 passes) as Hkl.
    rewrite Hev. split_and!.
    - rewrite stage_shapes_app, stage_shapes_loop. unfold stage_shapes at 1.
      by other_kinds KStage before_loop pre.
    - rewrite stage_images_app, stage_images_loop. unfold stage_images at 1.
      by other_kinds KStage before_loop pre.
    - unfold keys_calls in *. rewrite omap_app.
      other_kinds KKeysMatching in_loop (loop_events cfg (method_of inc) 0 passes).
      by rewrite app_nil_r. }
  rewrite Hios in Hio. rewrite Hims in Himgs.
  destruct passes as [|p ps]; [done|]. simpl in Hio, Himgs.
  injection Hio as <- <- <- <-. injection Himgs as <-.
  pose proof (passes_ok_lookup _ _ _ _ _ _ _ _ _ 0%nat p Hok eq_refl)
    as (_ & _ & (_ & shapes & Hal & Hrows & Hseq & Hstore) & _).
  exists keys, rs. split_and!; [done|done| |].
  - rewrite Hstore.
    pose proof (estimates_in_store _ _ _ Hrows Hseq) as Hin.
    eapply Forall2_compose; [|exact Hal|exact Hin].
    intros img row refs Hrow Hrefs. unfold aligned_boxes in Hrow.
    eapply Forall2_compose; [|exact Hrow|exact Hrefs].
    intros key s r (r0 & box & Hr0 & Hbox & ->) Hs.
    exists box. split; [done|]. rewrite Hs. do 2 f_equal. congruence.
  - rewrite Hseq. apply NoDup_seq.
Qed.

(** ** More runs that raise *)

(** X14.  Training on an empty list of images, without a group or on a
    fitter that holds a reference shape, raises IndexError: without a group
    at line 90, and with a group at line 125, where the first image of the
    rescaled batch is asked for its bounding boxes.  (The rescaling of no
    image is taken to return no image.  With a group and without a reference
    shape, line 101 first computes a reference shape from no shape at all:
    that case is left out.) *)
Theorem training_on_no_image_is_an_IndexError cfg group bbg inc st :
  (∀ store g rs, (rescale_images_to_reference_shape store [] g rs).2 = []) →
  group = None ∨ is_Some (reference_shape st) →
  _train cfg [] group bbg inc None st = Raise IndexError.
Proof.
  intros Hresc Hcase. unfold _train. apply train_batches_first_Raise.
  unfold train_batch. destruct group as [g|]; [|by apply bind_Raise].
  destruct Hcase as [?|[rs Hrs]]; [done|].
  assert (∀ store1 rs s,
            resolve_bounding_boxes cfg g bbg
              (rescale_images_to_reference_shape store1 [] g rs).2 s
            = Raise IndexError) as Hbb.
  { intros store1 rs' s. rewrite Hresc. unfold resolve_bounding_boxes.
    destruct bbg; (eapply bind_Ok_Raise; [reflexivity|]); by apply bind_Raise. }
  eapply bind_Ok_Raise; [reflexivity|].
  eapply bind_Ok_Raise; [reflexivity|].
  rewrite Hrs.
  eapply bind_Ok_Raise; [reflexivity|].
  eapply bind_Ok_Raise; [reflexivity|].
  rewrite Hrs. eapply bind_Ok_Raise; [reflexivity|].
  specialize (Hbb (image_store st) rs).
  destruct (rescale_images_to_reference_shape _ _ _ _) as [store1 rescaled].
  eapply bind_Ok_Raise; [reflexivity|].
  eapply bind_Ok_Raise; [reflexivity|].
  apply bind_Raise. apply Hbb.
Qed.

Lemma read_landmark_eq i key st img :
  image_store st !! i = Some img →
  read_landmark i key st
    = match Landmarks.get key (landmarks img) with
      | Some s => Ok s st []
      | None => Raise KeyError
      end.
Proof.
  intros Hi. unfold read_landmark, deref, bind, get, lift. simpl.
  rewrite Hi. simpl. by destruct (Landmarks.get key (landmarks img)).
Qed.

(** One new bounding box, worked out: it takes the ground truth shape and
    the bounding box under the key. *)
Lemma perturb_once_eq cfg group bb_group key0 i j st img :
  image_store st !! i = Some img →
  perturb_once cfg group bb_group [key0] i j st
    = match Landmarks.get group (landmarks img),
            Landmarks.get key0 (landmarks img) with
      | Some gt, Some bb =>
          let p := _perturb_from_bounding_box cfg (bounding_box gt) bb (rng st) in
          Ok tt
             (set_image_store
                (<[i := mkImage (pixels img)
                          (Landmarks.set (perturbed_key bb_group j) p.1
                             (landmarks img))]> (image_store st))
                (set_rng p.2 st))
             [(st, EPerturb i (bounding_box gt) bb p.1);
              (set_rng p.2 st, EAttach i (perturbed_key bb_group j) p.1)]
      | _, _ => Raise KeyError
      end.
Proof.
  intros Hi. unfold perturb_once. unfold bind at 1.
  rewrite (read_landmark_eq _ _ _ _ Hi).
  destruct (Landmarks.get group (landmarks img)) as [gt|]; [|done].
  unfold bind at 1. simpl. unfold bind at 1.
  rewrite (read_landmark_eq _ _ _ _ Hi).
  destruct (Landmarks.get key0 (landmarks img)) as [bb|]; [|done].
  unfold bind at 1. simpl.
  destruct (_perturb_from_bounding_box cfg (bounding_box gt) bb (rng st))
    as [p_s r].
  unfold attach, deref, bind, get, lift, emit, modify. simpl. by rewrite Hi.
Qed.

Lemma for_each_fails_only {A} (body : A → M unit) (P : State → Prop) e l st :
  (∀ x s, x ∈ l → P s →
     match body x s with Ok _ s' _ => P s' | Raise e' => e' = e end) →
  P st →
  match for_each l body st with Ok _ s' _ => P s' | Raise e' => e' = e end.
Proof.
  revert st. induction l as [|x l IH]; intros st Hbody HP; [done|].
  cbn [for_each]. unfold bind.
  pose proof (Hbody x st (list_elem_of_here _ _) HP) as Hx.
  destruct (body x st) as [u s t|e']; [|done].
  assert (∀ y s0, y ∈ l → P s0 →
            match body y s0 with Ok _ s' _ => P s' | Raise e' => e' = e end)
    as Hrest by (intros y s0 Hy; apply Hbody; by constructor).
  specialize (IH s Hrest Hx). by destruct (for_each l body s).
Qed.

Lemma perturb_image_fails_only cfg group bb_group key0 (batch : list ref) i st :
  i ∈ batch →
  Forall (λ x, is_Some (image_store st !! x)) batch →
  match perturb_image cfg group bb_group [key0] i st with
  | Ok _ s' _ => Forall (λ x, is_Some (image_store s' !! x)) batch
  | Raise e => e = KeyError
  end.
Proof.
  intros Hi Hall. unfold perturb_image, bind, get. simpl.
  pose proof (for_each_fails_only
                (perturb_once cfg group bb_group [key0] i)
                (λ s, Forall (λ x, is_Some (image_store s !! x)) batch)
                KeyError (seqZ 1 (n_perturbations st - 1)) st) as H.
  destruct (for_each _ _ st); apply H; try done.
  all: intros j s _ Hs; pose proof Hs as Hs';
    rewrite Forall_forall in Hs'; destruct (Hs' _ Hi) as [img Himg];
    rewrite (perturb_once_eq _ _ _ _ _ _ _ _ Himg);
    destruct (Landmarks.get group (landmarks img)); [|done];
    destruct (Landmarks.get key0 (landmarks img)); [|done];
    simpl; eapply Forall_impl; [exact Hs|];
    intros x [imx Hx]; simpl;
    destruct (decide (x = i)) as [->|Hne];
    [rewrite list_lookup_insert_eq by (by eapply lookup_lt_Some); by eexists
    |rewrite list_lookup_insert_ne by done; by eexists].
Qed.

Lemma perturb_image_others cfg group bb_group keys i st u st' tr :
  perturb_image cfg group bb_group keys i st = Ok u st' tr →
  ∀ i', i' ≠ i → image_store st' !! i' = image_store st !! i'.
Proof.
  unfold perturb_image. intros H. run.
  match goal with
  | Hg : for_each _ _ _ = Ok _ _ _ |- _ =>
      pose proof (for_each_inv _ (λ _ s _,
               ∀ i', i' ≠ i → image_store s !! i' = image_store st !! i')
             _ _ _ _ _ Hg) as Hinv
  end.
  apply Hinv.
  - done.
  - intros done j s tr0 v s' tr1 _ IH Hx i' Hne.
    apply perturb_once_Ok in Hx as (img & a & b & p & g & _ & Himg & _ & -> & _).
    simpl. rewrite list_lookup_insert_ne by done. by apply IH.
Qed.

Lemma perturb_image_reads_seed cfg group bb_group key0 i st u st' tr :
  perturb_image cfg group bb_group [key0] i st = Ok u st' tr →
  2 ≤ n_perturbations st →
  is_Some (landmark_of (image_store st) i key0).
Proof.
  unfold perturb_image. intros H Hn. run.
  rewrite seqZ_cons in H by lia. cbn [for_each] in H. step H Hfirst.
  apply perturb_once_Ok in Hfirst
    as (img & a & b & p & g & (img' & gt & k0 & Himg & _ & _ & Hk0 & Hbb & _) & _).
  simpl in Hk0. injection Hk0 as <-.
  unfold landmark_of. rewrite Himg. simpl. by rewrite Hbb.
Qed.

Lemma perturb_batch_reads_seeds cfg group bb_group key0 (batch : list ref)
    st u st' tr :
  for_each batch (perturb_image cfg group bb_group [key0]) st = Ok u st' tr →
  2 ≤ n_perturbations st →
  ∀ i, i ∈ batch → is_Some (landmark_of (image_store st) i key0).
Proof.
  intros H Hn.
  apply (for_each_inv _ (λ done s _,
           n_perturbations s = n_perturbations st ∧
           (∀ i, i ∉ done → image_store s !! i = image_store st !! i) ∧
           (∀ i, i ∈ done → is_Some (landmark_of (image_store st) i key0)))) in H.
  - by destruct H as (_ & _ & ?).
  - split_and!; [done|done|]. intros i Hi. by apply elem_of_nil in Hi.
  - intros done x s tr0 v s' tr1 _ (Hnp & Hsame & Hdone) Hx.
    pose proof Hx as ((_ & Hnp' & _) & _)%perturb_image_Ok.
    pose proof (perturb_image_others _ _ _ _ _ _ _ _ _ Hx) as Hothers.
    apply perturb_image_reads_seed in Hx; [|by rewrite Hnp].
    split_and!; [congruence| |].
    + intros i Hi. rewrite not_elem_of_app in Hi. destruct Hi as (Hi & Hix).
      rewrite Hothers; [by apply Hsame|]. intros ->. apply Hix. constructor.
    + intros i [Hi|Hi]%elem_of_app; [by apply Hdone|].
      apply list_elem_of_singleton in Hi. subst i.
      destruct (decide (x ∈ done)) as [Hi|Hi]; [by apply Hdone|].
      unfold landmark_of in *. by rewrite <- Hsame.
Qed.

Lemma perturb_batch_Raise cfg group bb_group key0 (batch : list ref) st :
  Forall (λ i, is_Some (image_store st !! i)) batch →
  2 ≤ n_perturbations st →
  Exists (λ i, landmark_of (image_store st) i key0 = None) batch →
  for_each batch (perturb_image cfg group bb_group [key0]) st = Raise KeyError.
Proof.
  intros Hall Hn Hex.
  pose proof (for_each_fails_only
                (perturb_image cfg group bb_group [key0])
                (λ s, Forall (λ x, is_Some (image_store s !! x)) batch)
                KeyError batch st) as H.
  destruct (for_each _ _ st) as [u st' tr|e] eqn:Hrun.
  - exfalso. apply Exists_exists in Hex as (i & Hi & Hnone).
    destruct (perturb_batch_reads_seeds _ _ _ _ _ _ _ _ _ Hrun Hn i Hi) as [? Hs].
    congruence.
  - f_equal. apply H; [|done].
    intros x s Hx Hs. by apply perturb_image_fails_only.
Qed.

(** X15.  The bounding boxes are looked up on the first image only, but the
    perturbations read the box of every image (line 142): when the first
    image has one bounding box under the given bounding box group, at least
    one perturbation is to be generated, and an image of the rescaled batch
    holds nothing under the key of that box, the batch raises KeyError. *)
Theorem every_image_needs_the_seed_box cfg bb bs (batch : list ref) g inc st
    rs store1 rescaled i0 img0 key0 :
  reference_shape st = Some rs →
  rescale_images_to_reference_shape (image_store st) batch g rs
    = (store1, rescaled) →
  Forall (λ i, is_Some (store1 !! i)) rescaled →
  head rescaled = Some i0 →
  store1 !! i0 = Some img0 →
  Landmarks.keys_matching fnmatch ("*" +:+ bb +:+ "*") (landmarks img0) = [key0] →
  2 ≤ n_perturbations st →
  Exists (λ i, landmark_of store1 i key0 = None) rescaled →
  train_batch cfg (Some bb) bs batch (Some g) inc st = Raise KeyError.
Proof.
  intros Hrs Hresc Hall Hhd Himg0 Hkeys Hn Hex. unfold train_batch.
  eapply bind_Ok_Raise; [reflexivity|].
  eapply bind_Ok_Raise; [reflexivity|].
  rewrite Hrs.
  eapply bind_Ok_Raise; [reflexivity|].
  eapply bind_Ok_Raise; [reflexivity|].
  rewrite Hrs. eapply bind_Ok_Raise; [reflexivity|].
  rewrite Hresc.
  eapply bind_Ok_Raise; [reflexivity|].
  eapply bind_Ok_Raise; [reflexivity|].
  apply bind_Raise. unfold resolve_bounding_boxes.
  eapply bind_Ok_Raise; [reflexivity|].
  rewrite Hhd. eapply bind_Ok_Raise; [reflexivity|].
  eapply bind_Ok_Raise.
  { unfold keys_matching, deref, bind, get, lift, emit. simpl.
    rewrite Himg0. simpl. reflexivity. }
  eapply bind_Ok_Raise; [reflexivity|].
  apply bind_Raise. rewrite Hkeys. simpl.
  by apply perturb_batch_Raise.
Qed.

(** ** What the algorithms are called with *)

Lemma stage_call_ok_other group inc algs algs' e :
  kind_of e ≠ KStage → stage_call_ok group inc algs algs' e.
Proof. by destruct e. Qed.

Lemma stage_call_ok_kinds group inc algs algs' (ks : list kind) evs :
  Forall (λ e, kind_of e ∈ ks) evs → KStage ∉ ks →
  Forall (stage_call_ok group inc algs algs') evs.
Proof.
  intros HF Hk. eapply Forall_impl; [exact HF|].
  intros e He. apply stage_call_ok_other. intros Heq. apply Hk.
  simpl in He. by rewrite <- Heq.
Qed.

Lemma scale_loop_stage_calls cfg batch group keys inc v st v' st' tr :
  for_fold (seq 0 (n_scales cfg)) (scale_step cfg batch group keys inc) v st
    = Ok v' st' tr →
  Forall (stage_call_ok group inc (algorithms st) (algorithms st')) (events tr).
Proof.
  intros H.
  apply (for_fold_inv _ (λ done _ s t,
           (∀ k, (length done ≤ k)%nat →
                 algorithms s !! k = algorithms st !! k) ∧
           Forall (λ e, stage_call_ok group inc (algorithms st) (algorithms s) e ∧
                        match e with
                        | EStage _ j _ _ _ _ _ => (j < length done)%nat
                        | _ => True
                        end) (events t))) in H.
  - destruct H as (_ & H). eapply Forall_impl; [exact H|]. by intros e [? _].
  - split; [done|constructor].
  - intros done x [fi cs] s tr0 [fi' cs'] s' tr1 Hpre (Hsame & Hold) Hx.
    apply prefix_seq_snoc in Hpre as (-> & _).
    apply scale_step_Ok in Hx
      as (s_j & alg & alg' & shapes & new & gts & store_out & _ & _ & _ & Hgts
          & Halg & Hcall & Hev & _ & ->).
    simpl. split.
    + intros k Hk. rewrite length_app in Hk. simpl in Hk.
      rewrite list_lookup_insert_ne by lia. apply Hsame. lia.
    + rewrite events_app. apply Forall_app. split.
      * eapply Forall_impl; [exact Hold|]. intros e [He Hj].
        rewrite length_app. simpl.
        destruct e; try done. simpl in *.
        destruct He as (Hm & a & a' & g' & ? & ? & ? & Ha').
        split; [|lia]. split; [done|]. exists a, a', g'.
        split_and!; try done. rewrite list_lookup_insert_ne by lia. done.
      * rewrite Hev. rewrite length_app. simpl.
        apply Forall_app_2; [|apply Forall_app_2; [|constructor]].
        -- destruct (features_differ _ _); repeat constructor.
        -- destruct (negb _); repeat constructor.
        -- split; [|lia].
           split; [by destruct inc|]. exists alg, alg', gts.
           split_and!; try done.
           ++ rewrite <- Hsame by done. done.
           ++ apply list_lookup_insert_eq. by eapply lookup_lt_Some.
        -- destruct (scales cfg !! S (length done)); [|constructor].
           apply Forall_fmap, Forall_true. done.
Qed.

(** X16.  Every call of [train] or [increment] in a batch is made on the
    algorithm of its scale as the batch found it, with the images of the
    scale, the shapes these images hold under the group as ground truth, and
    the current estimates; what the call returns are the estimates from then
    on, and the state it leaves the algorithm in is the state of
    [algorithms[j]] when the batch is done. *)
Theorem stage_gets_images_ground_truth_and_estimates cfg bbg bs (batch : list ref)
    group inc st g st' tr :
  train_batch cfg bbg bs batch group inc st = Ok g st' tr →
  Forall (stage_call_ok g inc (algorithms st) (algorithms st')) (events tr).
Proof.
  intros (tr_ref & s0 & rs & store1 & rescaled & bb & s2 & tr_bb & i0 & img0
          & keys & fi & cs & tr_loop & _ & Href & _ & _ & Hbb & _ & _
          & _ & Hloop & ->)%train_batch_Ok.
  apply scale_loop_stage_calls in Hloop.
  pose proof (resolve_bounding_boxes_kinds _ _ _ _ _ _ _ _ Hbb) as Hkbb.
  apply resolve_bounding_boxes_frame in Hbb as (_ & Halg & _).
  assert (algorithms s0 = algorithms st ∧
          Forall (λ e, kind_of e ∈ [KWarn; KRefShape]) (events tr_ref))
    as (Halg0 & Hkref).
  { destruct (reference_shape st).
    - destruct Href as (-> & ->). split; [done|constructor].
    - destruct Href as (shapes & _ & -> & ->).
      destruct bs; split; try done; repeat constructor. }
  simpl in Halg. rewrite Halg, Halg0 in Hloop.
  rewrite !events_app.
  apply Forall_app_2; [|apply Forall_app_2; [|apply Forall_app_2;
                         [|apply Forall_app_2]]]; [| | | |done].
  - eapply stage_call_ok_kinds; [exact Hkref|kind_absent].
  - by repeat constructor.
  - eapply stage_call_ok_kinds; [exact Hkbb|kind_absent].
  - by repeat constructor.
Qed.

(** ** The group, from batch to batch *)

Lemma perturb_image_attaches cfg group bb_group keys i st u st' tr :
  perturb_image cfg group bb_group keys i st = Ok u st' tr →
  ∀ s i' key v, (s, EAttach i' key v) ∈ tr → ∃ j, key = perturbed_key bb_group j.
Proof.
  unfold perturb_image. intros H. run.
  match goal with
  | Hg : for_each _ _ _ = Ok _ _ _ |- _ =>
      pose proof (for_each_inv _ (λ _ _ t,
               ∀ s i' key v, (s, EAttach i' key v) ∈ t →
                             ∃ j, key = perturbed_key bb_group j)
             _ _ _ _ _ Hg) as Hinv
  end.
  apply Hinv.
  - intros s i' key v Hin. by apply elem_of_nil in Hin.
  - intros done j s tr0 w s' tr1 _ IH Hx s0 i' key v Hin.
    apply perturb_once_Ok in Hx as (img & a & b & p & g & _ & _ & _ & _ & ->).
    apply elem_of_app in Hin as [Hin|Hin]; [eauto|].
    apply elem_of_cons in Hin as [Heq|Hin]; [done|].
    apply list_elem_of_singleton in Hin. simplify_eq. by exists j.
Qed.

Lemma perturb_batch_attaches cfg group bb_group keys (batch : list ref) st u st' tr :
  for_each batch (perturb_image cfg group bb_group keys) st = Ok u st' tr →
  ∀ s i' key v, (s, EAttach i' key v) ∈ tr → ∃ j, key = perturbed_key bb_group j.
Proof.
  intros H.
  pose proof (for_each_inv _ (λ _ _ t,
           ∀ s i' key v, (s, EAttach i' key v) ∈ t →
                         ∃ j, key = perturbed_key bb_group j)
         _ _ _ _ _ H) as Hinv.
  apply Hinv.
  - intros s i' key v Hin. by apply elem_of_nil in Hin.
  - intros done x s tr0 w s' tr1 _ IH Hx s0 i' key v Hin.
    apply elem_of_app in Hin as [Hin|Hin]; [eauto|].
    by eapply perturb_image_attaches.
Qed.

Lemma gt_boxes_events group (batch : list ref) st u st' tr :
  for_each batch (attach_gt_box group) st = Ok u st' tr →
  ∀ s i key v, (s, EAttach i key v) ∈ tr →
    ∃ gt, landmark_of (image_store s) i group = Some gt ∧ v = bounding_box gt.
Proof.
  intros (_ & _ & _ & HF & _)%gt_boxes_Ok s i key v Hin.
  induction HF as [|x [s0 e] batch tr (img & gt & Himg & Hgt & He) _ IH];
    [by apply elem_of_nil in Hin|].
  apply elem_of_cons in Hin as [Heq|Hin]; [|by apply IH].
  simpl in *. simplify_eq. exists gt. split; [|done].
  unfold landmark_of. by rewrite Himg.
Qed.

Lemma train_batch_gt_boxes cfg bs (batch : list ref) group inc st g st' tr :
  train_batch cfg None bs batch group inc st = Ok g st' tr →
  ∀ s i v, (s, EAttach i "__gt_bb_0" v) ∈ tr →
    ∃ gt, landmark_of (image_store s) i g = Some gt ∧ v = bounding_box gt.
Proof.
  intros (tr_ref & s0 & rs & rescaled & tr_gt & s1 & i0 & img0 & keys1 & tr_p
          & s2 & img2 & keys2 & tr_loop & passes & -> & Hkref & _ & _ & _
          & _ & Hgt & _ & _ & _ & _ & _ & Hp & _ & _ & Hev
          & _)%train_batch_boxes s i v Hin.
  pose proof (loop_events_kinds cfg (method_of inc) 0 passes) as Hkl.
  rewrite <- Hev in Hkl.
  repeat (apply elem_of_app in Hin as [Hin|Hin]).
  - exfalso. revert Hin. apply (not_elem_of_kinds _ _ _ _ Hkref). kind_absent.
  - apply list_elem_of_singleton in Hin. done.
  - by eapply gt_boxes_events.
  - apply list_elem_of_singleton in Hin. done.
  - exfalso. simpl in Hp. repeat case_decide.
    + apply (perturb_batch_attaches _ _ _ _ _ _ _ _ _ Hp) in Hin as [j Hj].
      by apply gt_key_is_no_perturbed_key in Hj.
    + destruct Hp as (-> & _). apply list_elem_of_singleton in Hin. done.
    + destruct Hp as (-> & _). by apply elem_of_nil in Hin.
  - apply list_elem_of_singleton in Hin. done.
  - exfalso. revert Hin. apply (not_elem_of_kinds _ _ _ _ Hkl). kind_absent.
Qed.

Lemma train_batches_gt_boxes cfg bs k (batches : list (list ref)) g inc
    st u st' tr :
  train_batches cfg None bs k batches (Some g) inc st = Ok u st' tr →
  ∀ s i v, (s, EAttach i "__gt_bb_0" v) ∈ tr →
    ∃ gt, landmark_of (image_store s) i g = Some gt ∧ v = bounding_box gt.
Proof.
  revert k inc st tr.
  induction batches as [|b rest IH]; intros k inc st tr H s i v Hin.
  - simpl in H. run0. by apply elem_of_nil in Hin.
  - cbn [train_batches] in H. step H Hb.
    pose proof Hb as (_ & _ & _ & _ & _ & _ & _ & _ & _ & _ & _ & _ & _ & _
                      & -> & _)%train_batch_Ok.
    apply elem_of_app in Hin as [Hin|Hin].
    + by eapply train_batch_gt_boxes.
    + by eapply IH.
Qed.

(** X17.  The group is settled once in a call: given, or else the first
    label of the first image of the first batch (line 90); every later batch
    of the call works with it, whatever labels its own images have.  So every
    ground truth bounding box of the call is the bounding box of what its
    image holds under that one group. *)
Theorem group_is_settled_on_the_first_batch cfg images group inc bs
    st u st' tr b rest :
  _train cfg images group None inc bs st = Ok u st' tr →
  image_batches images bs = b :: rest →
  ∃ g,
    match group with
    | Some g0 => g = g0
    | None =>
        ∃ i img, head b = Some i ∧ image_store st !! i = Some img ∧
                 head (Landmarks.group_labels (landmarks img)) = Some g
    end ∧
    ∀ s i v, (s, EAttach i "__gt_bb_0" v) ∈ tr →
      ∃ gt, landmark_of (image_store s) i g = Some gt ∧ v = bounding_box gt.
Proof.
  unfold _train. fold (image_batches images bs). intros H Hb. rewrite Hb in H.
  cbn [train_batches] in H. step H Hfirst.
  pose proof Hfirst as (_ & _ & _ & _ & _ & _ & _ & _ & _ & _ & _ & _ & _ & _
                        & Hg & _)%train_batch_Ok.
  eexists. split; [exact Hg|].
  intros s i v [Hin|Hin]%elem_of_app.
  - by eapply train_batch_gt_boxes.
  - by eapply train_batches_gt_boxes.
Qed.

(** ** One batch of all images against batches of one image *)




End Orchestration.

(** * The properties on concrete runs *)

Import Concrete.

(** The algorithm objects of [Concrete] hand back the estimates they are
    given. *)
Lemma concrete_stage_keeps_counts : stage_keeps_counts.
Proof.
  intros increment alg store images gts current.
  destruct increment; simpl; by apply Forall_Forall2_diag, Forall_true.
Qed.


(** A fitter made on three images in batches of two, then incremented with
    two of the images in one batch: [train] for the first batch, [increment]
    for the second batch of the constructor and for the batch of the later
    call. *)
Lemma first_batch_trains_then_increment_witness :
  ∃ u st' tr,
    session cfg2 [(); ()] None 3
      (mkCall [0; 1; 2]%nat None None (Some 2%nat))
      [mkCall [0; 1]%nat None None None] world0 = Ok u st' tr ∧
    stage_calls (events tr)
      = [(Train, 0); (Train, 1); (Increment, 0); (Increment, 1);
         (Increment, 0); (Increment, 1)]%nat.
Proof.
  assert (succeeded
            (session cfg2 [(); ()] None 3
               (mkCall [0; 1; 2]%nat None None (Some 2%nat))
               [mkCall [0; 1]%nat None None None] world0) = true) as Hok
    by (vm_compute; reflexivity).
  destruct (session _ _ _ _ _ _ _) as [u st' tr|e] eqn:H; [|discriminate Hok].
  exists u, st', tr. split; [reflexivity|].
  rewrite (first_batch_trains_then_increment _ _ _ _ _ _ _ _ _ _ H).
  reflexivity.
Defined.

(** Two images that come with two bounding boxes each, and a fitter set up
    for three: one warning, [n_perturbations] set to 2, no call of the
    perturbation strategy, two estimates per image. *)
Lemma given_boxes_reconcile_n_perturbations_witness :
  ∃ g st' tr,
    train_batch cfg2 (Some "bb") None [0; 1]%nat None false trainer_boxed
      = Ok g st' tr ∧
    keys_calls (events tr) = [["bb_0"; "bb_1"]; ["bb_0"; "bb_1"]] ∧
    warnings (events tr) = [NPerturbWarning 3 2] ∧
    n_perturbations st' = 2 ∧
    of_kind KPerturb (events tr) = [] ∧
    ∀ store_in current_in store_out current_out,
      head (stage_shapes (events tr))
        = Some (store_in, current_in, store_out, current_out) →
      each_has 2 current_in.
Proof.
  assert (fst <$> (fst <$> (fst <$> (fst <$> (fst <$> digest
            (train_batch cfg2 (Some "bb") None [0; 1]%nat None false
               trainer_boxed)))))
          = Some [["bb_0"; "bb_1"]; ["bb_0"; "bb_1"]]) as Hkeys
    by (vm_compute; reflexivity).
  destruct (train_batch _ _ _ _ _ _ _) as [g st' tr|e] eqn:H; [|discriminate Hkeys].
  exists g, st', tr. split; [reflexivity|].
  destruct (given_boxes_reconcile_n_perturbations _ _ _ _ _ _ _ _ _ _ H)
    as (keys1 & keys2 & Hcalls & Hmany).
  simpl in Hkeys. injection Hkeys as Hkeys. rewrite Hkeys in Hcalls.
  injection Hcalls as <- <-.
  destruct Hmany as (Hw & Hn & Hp & _ & Hest); [simpl; lia|].
  split; [exact Hkeys|]. split; [exact Hw|]. split; [exact Hn|].
  split; [exact Hp|exact Hest].
Defined.

(** A call of [_train] in batches of two on a fitter without a reference
    shape: the warning, then the reference shape from the first batch, and
    nothing of the two afterwards. *)
Lemma reference_shape_set_once_witness :
  ∃ u st' tr,
    _train cfg2 [0; 1; 2]%nat None None false (Some 2%nat) trainer0
      = Ok u st' tr ∧
    ∃ later,
      events tr = [EWarn RefShapeWarning; ERefShape [points 0; points 10]]
                    ++ later ∧
      of_kind KRefShape later = [] ∧
      (RefShapeWarning ∉ warnings later) ∧
      reference_shape st' = Some (mean_shape [points 0; points 10]).
Proof.
  assert (succeeded
            (_train cfg2 [0; 1; 2]%nat None None false (Some 2%nat) trainer0)
          = true) as Hok by (vm_compute; reflexivity).
  destruct (_train _ _ _ _ _ _ _) as [u st' tr|e] eqn:H; [|discriminate Hok].
  exists u, st', tr. split; [reflexivity|].
  pose proof (reference_shape_set_once _ _ _ _ _ _ _ _ _ _ H) as Hthm.
  unfold trainer0, trainer in Hthm. cbn [reference_shape] in Hthm.
  destruct (Hthm [0; 1]%nat [[2%nat]] eq_refl)
    as (g & shapes & later & Hg & HF & Hev & Hno & Hw & Hrs).
  destruct Hg as (i & im & [= <-] & [= <-] & [= <-]).
  assert (shapes = [points 0; points 10]) as ->.
  { apply Forall2_cons_inv_l in HF as (s0 & rest0 & (im0 & [= <-] & [= <-]) & HF & ->).
    apply Forall2_cons_inv_l in HF as (s1 & rest1 & (im1 & [= <-] & [= <-]) & HF & ->).
    by apply Forall2_nil_inv_l in HF as ->. }
  exists later. split; [exact Hev|]. split; [exact Hno|]. split; [exact Hw|].
  exact Hrs.
Defined.

(** Two scales with one feature function: features are computed once. *)
Lemma features_extracted_when_they_differ_witness :
  ∃ g st' tr,
    train_batch cfg2 None None [0; 1; 2]%nat None false trainer0 = Ok g st' tr ∧
    feature_calls (events tr) = [0%nat] ∧
    ∃ feature_images,
      length feature_images = 2%nat ∧
      stage_images (events tr)
        = zip_with level_images [(1 # 2)%Q; 1%Q] feature_images ∧
      feature_images !! 1%nat = feature_images !! 0%nat.
Proof.
  assert (succeeded
            (train_batch cfg2 None None [0; 1; 2]%nat None false trainer0)
          = true) as Hok by (vm_compute; reflexivity).
  destruct (train_batch _ _ _ _ _ _ _) as [g st' tr|e] eqn:H; [|discriminate Hok].
  exists g, st', tr. split; [reflexivity|].
  destruct (features_extracted_when_they_differ _ _ _ _ _ _ _ _ _ _ H)
    as (_ & Htwo & rescaled & fis & _ & Hlen & Himgs & Hreuse).
  split; [exact (Htwo eq_refl eq_refl)|].
  exists fis. split; [exact Hlen|]. split; [exact Himgs|].
  destruct fis as [|f0 [|f1 [|? ?]]]; try discriminate Hlen.
  pose proof (Hreuse 1%nat f1 eq_refl) as H1. vm_compute in H1.
  symmetry. exact H1.
Defined.

(** Between the two scales every estimate is rescaled; after the second
    nothing is. *)
Lemma shapes_rescaled_between_scales_witness :
  ∃ g st' tr,
    train_batch cfg2 None None [0; 1; 2]%nat None false trainer0 = Ok g st' tr ∧
    length (stage_shapes (events tr)) = 2%nat ∧
    apply_calls (events tr) = applies_after cfg2 0 (stage_shapes (events tr)) ∧
    ∀ store_in current_in store_out current_out,
      last (stage_shapes (events tr))
        = Some (store_in, current_in, store_out, current_out) →
      shape_store st' = store_out.
Proof.
  assert (succeeded
            (train_batch cfg2 None None [0; 1; 2]%nat None false trainer0)
          = true) as Hok by (vm_compute; reflexivity).
  destruct (train_batch _ _ _ _ _ _ _) as [g st' tr|e] eqn:H; [|discriminate Hok].
  exists g, st', tr. split; [reflexivity|].
  destruct (shapes_rescaled_between_scales _ _ _ _ _ _ _ _ _ _ H)
    as (Hlen & _ & Hcalls & Hlast & _).
  split; [exact Hlen|]. split; [exact Hcalls|exact Hlast].
Defined.

(** Two images that come with one bounding box each, under ["bb_0"]: every
    call of the perturbation strategy is given the bounding box of the ground
    truth shape and the bounding box that came with the image. *)
Lemma perturbation_strategy_arguments_witness :
  ∃ st' tr s1,
    train_batch cfg2 (Some "bb") None [0; 1]%nat None false trainer_seeded
      = Ok "PTS" st' tr ∧
    head (keys_states tr) = Some (s1, ["bb_0"]) ∧
    ∀ s i gt_s bb p_s,
      (s, EPerturb i gt_s bb p_s) ∈ tr →
      ∃ im gt,
        image_store s !! i = Some im ∧
        Landmarks.get "PTS" (landmarks im) = Some gt ∧
        gt_s = bbox gt ∧
        Landmarks.get "bb_0" (landmarks im) = Some bb ∧
        p_s = (shift_noise gt_s bb (rng s)).1 ∧
        landmark_of (image_store s1) i "bb_0" = Some bb ∧
        landmark_of (image_store s1) i "PTS" = Some gt.
Proof.
  assert (keys_found
            (train_batch cfg2 (Some "bb") None [0; 1]%nat None false
               trainer_seeded)
          = Some [["bb_0"]; ["bb_0"; "bb_1"; "bb_2"]])
    as Hkeys by (vm_compute; reflexivity).
  assert (group_is "PTS"
            (train_batch cfg2 (Some "bb") None [0; 1]%nat None false
               trainer_seeded)
          = true) as Hg by (vm_compute; reflexivity).
  destruct (train_batch _ _ _ _ _ _ _) as [g st' tr|e] eqn:H; [|discriminate Hg].
  simpl in Hg. apply bool_decide_eq_true in Hg. subst g.
  simpl in Hkeys. injection Hkeys as Hkeys.
  destruct (perturbation_strategy_arguments _ _ _ _ _ _ _ _ _ _ H)
    as (s1 & keys1 & Hstates & Hfirst & Hcalls).
  rewrite Hkeys in Hfirst. injection Hfirst as <-.
  exists st', tr, s1. split; [reflexivity|]. split; [exact Hstates|].
  intros s i gt_s bb p_s Hin.
  destruct (Hcalls _ _ _ _ _ Hin)
    as (_ & im & gt & key0 & Him & Hgt & Hgts & Hk0 & Hbb & Hps & Hseed & Htruth).
  injection Hk0 as <-.
  exists im, gt. split; [exact Him|]. split; [exact Hgt|]. split; [exact Hgts|].
  split; [exact Hbb|]. split; [exact Hps|]. split.
  - apply Hseed. intros j Hj.
    assert (j = 1 ∨ j = 2) as [-> | ->] by (simpl in Hj; lia);
      vm_compute; discriminate.
  - apply Htruth. intros j _. unfold perturbed_key. simpl. discriminate.
Defined.

(** The collaborators of [Concrete] give one feature image, and one rescaled
    image, for every image. *)
Lemma concrete_images_keep_counts : images_keep_counts.
Proof. split; intros images x; simpl; apply length_map. Qed.

(** Three estimates per image at both scales: three rows of three, for the
    three images of the batch. *)
Lemma estimates_per_image_constant_witness :
  ∃ g st' tr rescaled,
    train_batch cfg2 None None [0; 1; 2]%nat None false trainer0 = Ok g st' tr ∧
    last (keys_calls (events tr))
      = Some ["__gt_bb_0"; "__gt_bb__1"; "__gt_bb__2"] ∧
    length (stage_shapes (events tr)) = 2%nat ∧
    (∀ store_in current_in store_out current_out,
       (store_in, current_in, store_out, current_out) ∈ stage_shapes (events tr) →
       each_has 3 current_in ∧ each_has 3 current_out) ∧
    ERescale [0; 1; 2]%nat rescaled ∈ events tr ∧
    ∀ images current_in current_out,
      (images, current_in, current_out) ∈ stage_rows (events tr) →
      length images = length rescaled ∧
      rows_for 3 images current_in ∧ rows_for 3 images current_out.
Proof.
  assert (keys_found
            (train_batch cfg2 None None [0; 1; 2]%nat None false trainer0)
          = Some [["__gt_bb_0"]; ["__gt_bb_0"; "__gt_bb__1"; "__gt_bb__2"]])
    as Hkeys by (vm_compute; reflexivity).
  destruct (train_batch _ _ _ _ _ _ _) as [g st' tr|e] eqn:H; [|discriminate Hkeys].
  destruct (estimates_per_image_constant _ _ _ _ _ _ _ _ _ _
              concrete_stage_keeps_counts H)
    as (keys & Hlast & Hlen & Hall & _ & Hrows).
  simpl in Hkeys. injection Hkeys as Hkeys. rewrite Hkeys in Hlast.
  injection Hlast as <-.
  destruct (Hrows concrete_images_keep_counts) as (rescaled & Hin & Hevery).
  exists g, st', tr, rescaled. split; [reflexivity|].
  split; [rewrite Hkeys; reflexivity|]. split; [exact Hlen|].
  split; [exact Hall|]. split; [exact Hin|exact Hevery].
Defined.

(** The groups that a batch of three images leaves on the rescaled images. *)
Lemma boxes_attached_to_rescaled_images_witness :
  ∃ g st' tr,
    train_batch cfg2 None None [0; 1; 2]%nat None false trainer0 = Ok g st' tr ∧
    ∃ rescaled,
      ERescale [0; 1; 2]%nat rescaled ∈ events tr ∧
      (∀ i, i ∈ rescaled → has_key (image_store st') i "__gt_bb_0") ∧
      (∀ i j, i ∈ rescaled → 1 ≤ j < 3 →
              has_key (image_store st') i (perturbed_key "__gt_bb_" j)).
Proof.
  assert (fst <$> (fst <$> (fst <$> (fst <$> (fst <$> digest
            (train_batch cfg2 None None [0; 1; 2]%nat None false trainer0)))))
          = Some [["__gt_bb_0"]; ["__gt_bb_0"; "__gt_bb__1"; "__gt_bb__2"]])
    as Hkeys by (vm_compute; reflexivity).
  destruct (train_batch _ _ _ _ _ _ _) as [g st' tr|e] eqn:H; [|discriminate Hkeys].
  exists g, st', tr. split; [reflexivity|].
  destruct (boxes_attached_to_rescaled_images _ _ _ _ _ _ _ _ _ _ H)
    as (rescaled & keys1 & s0 & rs & Hin & _ & _ & Hhead & Hgt & Hone & _).
  simpl in Hkeys. injection Hkeys as Hkeys. rewrite Hkeys in Hhead.
  injection Hhead as <-.
  exists rescaled. split; [|split].
  - unfold events. apply list_elem_of_fmap. exists (s0, ERescale [0; 1; 2]%nat rescaled).
    split; [reflexivity|exact Hin].
  - exact (Hgt eq_refl).
  - exact (Hone eq_refl).
Defined.

(** C7, the claim as it is worded, fails: a call of the perturbation strategy
    of the batch gets a first argument that is not the ground truth shape of
    its image (it is the bounding box of that shape, four points for the
    three of the shape). *)
Lemma perturbation_strategy_not_given_the_shape :
  ∃ g st' tr,
    train_batch cfg2 None None [0; 1; 2]%nat None false trainer0 = Ok g st' tr ∧
    ¬ ∀ s i gt_s bb p_s,
        (s, EPerturb i gt_s bb p_s) ∈ tr →
        ∃ im, image_store s !! i = Some im ∧
              Landmarks.get g (landmarks im) = Some gt_s.
Proof.
  assert (match train_batch cfg2 None None [0; 1; 2]%nat None false trainer0 with
          | Ok g _ tr => forallb (given_the_shape g) tr
          | Raise _ => true
          end = false) as Hcheck by (vm_compute; reflexivity).
  destruct (train_batch _ _ _ _ _ _ _) as [g st' tr|e] eqn:H; [|discriminate Hcheck].
  exists g, st', tr. split; [reflexivity|]. intros Hclaim.
  assert (forallb (given_the_shape g) tr = true) as Hall; [|congruence].
  apply forallb_forall. intros [s e] Hin%list_elem_of_In.
  destruct e; try reflexivity.
  destruct (Hclaim _ _ _ _ _ Hin) as (im & Him & Hgt).
  unfold given_the_shape, landmark. cbn [fst snd].
  apply bool_decide_eq_true_2.
  change (image_store s !! i ≫= (λ im, Landmarks.get g (landmarks im)) = Some gt_s).
  rewrite Him. exact Hgt.
Qed.

(** The check [has_keyb] decides [has_key]. *)
Lemma has_keyb_spec (store : list img) i key :
  has_key store i key ↔ has_keyb store i key = true.
Proof.
  unfold has_key, has_keyb. destruct (store !! i) as [im|] eqn:Hl.
  - rewrite bool_decide_eq_true. split.
    + intros (im' & Him & Hk).
      pose proof (eq_trans (eq_sym Hl) Him) as [= <-]. exact Hk.
    + intros Hk. exists im. split; [exact Hl|exact Hk].
  - split.
    + intros (im' & Him & _).
      pose proof (eq_trans (eq_sym Hl) Him) as Hf. discriminate Hf.
    + intros Hf. discriminate Hf.
Qed.

(** C10, the claim as it is worded, fails: the constructor leaves the three
    images of the caller as they were, without a group ['__gt_bb_0']; the
    group is on the copies that the rescaling made of them. *)
Lemma callers_images_left_alone :
  ∃ u st' tr,
    __init__ cfg2 [(); ()] None 3 [0; 1; 2]%nat None None None world0
      = Ok u st' tr ∧
    take 3 (image_store st') = image_store world0 ∧
    (∀ i, i ∈ [0; 1; 2]%nat → ¬ has_key (image_store st') i "__gt_bb_0") ∧
    (∀ i, i ∈ [3; 4; 5]%nat → has_key (image_store st') i "__gt_bb_0").
Proof.
  assert (copies_only (image_store world0) "__gt_bb_0"
            (__init__ cfg2 [(); ()] None 3 [0; 1; 2]%nat None None None world0)
          = true) as Hcheck by (vm_compute; reflexivity).
  destruct (__init__ _ _ _ _ _ _ _ _ _) as [u st' tr|e] eqn:H;
    [|discriminate Hcheck].
  exists u, st', tr. split; [reflexivity|].
  unfold copies_only in Hcheck.
  apply andb_prop in Hcheck as (Hcheck & Hyes).
  apply andb_prop in Hcheck as (Hsame & Hno).
  apply bool_decide_eq_true in Hsame.
  split; [exact Hsame|]. split.
  - intros i Hi Hkey. apply has_keyb_spec in Hkey.
    rewrite forallb_forall in Hno. apply list_elem_of_In, Hno in Hi.
    rewrite Hkey in Hi. discriminate Hi.
  - intros i Hi. apply has_keyb_spec.
    rewrite forallb_forall in Hyes. apply list_elem_of_In, Hyes in Hi. exact Hi.
Qed.

(** C2, where the code goes wrong.  Two images come with one bounding box
    each, under the key ['bb_1'], and ['bb'] is given as the bounding box
    group, for 3 perturbations.  The first generated bounding box is stored
    under ['bb_1'] as well: the given box is overwritten, the second
    generated box is drawn from the first, and every image ends with two
    bounding boxes and two estimates where three are asked for. *)
Lemma seed_box_overwritten_on_key_clash :
  ∃ g st' tr,
    train_batch cfg2 (Some "bb") None [0; 1]%nat None false trainer_clash
      = Ok g st' tr ∧
    keys_calls (events tr) = [["bb_1"]; ["bb_1"; "bb_2"]] ∧
    length (of_kind KPerturb (events tr)) = 4%nat ∧
    n_perturbations st' = 3 ∧
    landmark (image_store trainer_clash) 0 "bb_1" = Some (bbox (points 0)) ∧
    landmark (image_store st') 2 "bb_1"
      = Some (translate (1%Q, 0%Q) (bbox (points 0))) ∧
    (λ io : stage_io, io.1.1.2) <$> stage_shapes (events tr)
      = [[[0; 1]; [2; 3]]; [[0; 1]; [2; 3]]]%nat.
Proof.
  assert (digest (train_batch cfg2 (Some "bb") None [0; 1]%nat None false
                    trainer_clash)
          = Some ([["bb_1"]; ["bb_1"; "bb_2"]], 4%nat, [], 3,
                  [Some (translate (1%Q, 0%Q) (bbox (points 0)));
                   Some (translate (3%Q, 0%Q) (bbox (points 10)))],
                  [[[0; 1]; [2; 3]]; [[0; 1]; [2; 3]]]%nat)) as Hdigest
    by (vm_compute; reflexivity).
  destruct (train_batch _ _ _ _ _ _ _) as [g st' tr|e] eqn:H;
    [|discriminate Hdigest].
  exists g, st', tr. split; [reflexivity|].
  unfold digest in Hdigest. injection Hdigest as Hk Hp _ Hn Hl _ Hs.
  split; [exact Hk|]. split; [exact Hp|]. split; [exact Hn|].
  split; [reflexivity|]. split; [exact Hl|exact Hs].
Qed.

(** ** The further properties on concrete runs *)

(** A first image without any landmark group, and no group given. *)
Lemma no_group_needs_a_first_label_witness :
  _train cfg2 [0]%nat None None false None (trainer [mkImage (Raw 0) []])
    = Raise IndexError.
Proof.
  apply (no_group_needs_a_first_label cfg2 [0]%nat None false None
           (trainer [mkImage (Raw 0) []]) [0]%nat []); [reflexivity|].
  right. exists 0%nat, (mkImage (Raw 0) []). repeat split; reflexivity.
Defined.

(** The second image of the batch has no group ["PTS"]. *)
Lemma missing_group_is_a_KeyError_witness :
  _train cfg2 [0; 1]%nat (Some "PTS") None false None
    (trainer [face 0 0; mkImage (Raw 1) [("OTHER", points 10)]])
    = Raise KeyError.
Proof.
  apply (missing_group_is_a_KeyError cfg2 [0; 1]%nat "PTS" None false None
           (trainer [face 0 0; mkImage (Raw 1) [("OTHER", points 10)]])
           [0; 1]%nat []).
  - reflexivity.
  - reflexivity.
  - repeat constructor; eexists; reflexivity.
  - right. left. reflexivity.
Defined.

(** Two scales, 1/2 and 1, with one feature function: features and scaling
    at the first scale only. *)
Lemma scale_loop_order_witness :
  ∃ g st' tr,
    train_batch cfg2 None None [0; 1; 2]%nat None false trainer0 = Ok g st' tr ∧
    omap image_step (events tr)
      = [(KFeatures, 0); (KScaleImages, 0); (KStage, 0); (KStage, 1)]%nat ∧
    scale_calls (events tr) = [0%nat].
Proof.
  assert (succeeded
            (train_batch cfg2 None None [0; 1; 2]%nat None false trainer0)
          = true) as Hok by (vm_compute; reflexivity).
  destruct (train_batch _ _ _ _ _ _ _) as [g st' tr|e] eqn:H; [|discriminate Hok].
  exists g, st', tr. split; [reflexivity|].
  destruct (scale_loop_order _ _ _ _ _ _ _ _ _ _ H) as (Hsteps & Hscale).
  split; [exact Hsteps|exact Hscale].
Defined.

(** From the first scale to the second, every shape object is scaled as often
    as it occurs among the estimates. *)
Lemma shared_estimates_are_scaled_per_occurrence_witness :
  ∃ g st' tr store_in current_in store_out current_out
    store_in' current_in' store_out' current_out',
    train_batch cfg2 None None [0; 1; 2]%nat None false trainer0 = Ok g st' tr ∧
    stage_shapes (events tr) !! 0%nat
      = Some (store_in, current_in, store_out, current_out) ∧
    stage_shapes (events tr) !! 1%nat
      = Some (store_in', current_in', store_out', current_out') ∧
    ∀ r, store_in' !! r
         = Nat.iter (occurrences r (concat current_out))
                    (scale_points (Qred (1 / (1 # 2)))) <$> store_out !! r.
Proof.
  assert (succeeded
            (train_batch cfg2 None None [0; 1; 2]%nat None false trainer0)
          = true) as Hok by (vm_compute; reflexivity).
  destruct (train_batch _ _ _ _ _ _ _) as [g st' tr|e] eqn:H; [|discriminate Hok].
  destruct (stage_shapes_of_batch _ _ _ _ _ _ _ _ _ _ H)
    as (rescaled & s2 & keys & passes & Hio & Hlen & _).
  destruct passes as [|[? ? si ci so co ?] [|[? ? si' ci' so' co' ?] [|? ?]]];
    try discriminate Hlen.
  exists g, st', tr, si, ci, so, co, si', ci', so', co'.
  assert (stage_shapes (events tr) !! 0%nat = Some (si, ci, so, co)) as H0
    by (rewrite Hio; reflexivity).
  assert (stage_shapes (events tr) !! 1%nat = Some (si', ci', so', co')) as H1
    by (rewrite Hio; reflexivity).
  split; [reflexivity|]. split; [exact H0|]. split; [exact H1|].
  exact (shared_estimates_are_scaled_per_occurrence _ _ _ _ _ _ _ _ _ _
           0%nat (1 # 2)%Q 1%Q _ _ _ _ _ _ _ _ H H0 H1 eq_refl eq_refl).
Defined.

(** A fitter of two scales, made in two batches and incremented once, has two
    algorithms. *)
Lemma one_algorithm_per_scale_witness :
  ∃ u st' tr,
    session cfg2 [(); ()] None 3
      (mkCall [0; 1; 2]%nat None None (Some 2%nat))
      [mkCall [0; 1]%nat None None None] world0 = Ok u st' tr ∧
    length (algorithms st') = 2%nat.
Proof.
  assert (succeeded
            (session cfg2 [(); ()] None 3
               (mkCall [0; 1; 2]%nat None None (Some 2%nat))
               [mkCall [0; 1]%nat None None None] world0) = true) as Hok
    by (vm_compute; reflexivity).
  destruct (session _ _ _ _ _ _ _) as [u st' tr|e] eqn:H; [|discriminate Hok].
  exists u, st', tr. split; [reflexivity|].
  exact (one_algorithm_per_scale _ _ _ _ _ _ _ _ _ _ H).
Defined.

(** Three images in batches of two: two calls of the rescaling, both with the
    reference shape the fitter ends with. *)
Lemma batches_rescaled_to_one_reference_shape_witness :
  ∃ u st' tr,
    _train cfg2 [0; 1; 2]%nat None None false (Some 2%nat) trainer0
      = Ok u st' tr ∧
    rescale_calls tr
      = [(reference_shape st', [0; 1]%nat); (reference_shape st', [2%nat])] ∧
    is_Some (reference_shape st').
Proof.
  assert (succeeded
            (_train cfg2 [0; 1; 2]%nat None None false (Some 2%nat) trainer0)
          = true) as Hok by (vm_compute; reflexivity).
  destruct (_train _ _ _ _ _ _ _) as [u st' tr|e] eqn:H; [|discriminate Hok].
  exists u, st', tr. split; [reflexivity|].
  destruct (batches_rescaled_to_one_reference_shape _ _ _ _ _ _ _ _ _ _ H)
    as (Hcalls & Hsome).
  split; [exact Hcalls|]. apply Hsome. discriminate.
Defined.

(** After the constructor ran on three images, the public perturbation works
    from the reference shape computed from them. *)
Lemma perturb_from_bounding_box_after_training_witness :
  ∃ u st1 tr rs,
    __init__ cfg2 [(); ()] None 3 [0; 1; 2]%nat None None None world0
      = Ok u st1 tr ∧
    reference_shape st1 = Some rs ∧
    (∃ shapes, ERefShape shapes ∈ events tr ∧ rs = mean_shape shapes) ∧
    ∀ bb,
      perturb_from_bounding_box cfg2 bb st1
        = Ok (shift_noise rs bb (rng st1)).1
             (set_rng (shift_noise rs bb (rng st1)).2 st1) [].
Proof.
  assert (succeeded
            (__init__ cfg2 [(); ()] None 3 [0; 1; 2]%nat None None None world0)
          = true) as Hok by (vm_compute; reflexivity).
  destruct (__init__ _ _ _ _ _ _ _ _ _) as [u st1 tr|e] eqn:H;
    [|discriminate Hok].
  assert (image_batches [0; 1; 2]%nat None ≠ []) as Hne by discriminate.
  destruct (perturb_from_bounding_box_after_training _ _ _ _ _ _ _ _ _ _ _ _
              H Hne) as (rs & Hrs & Hfrom & Hcall).
  exists u, st1, tr, rs. split; [reflexivity|]. split; [exact Hrs|].
  split; [exact Hfrom|exact Hcall].
Defined.

(** No landmark group matches ["zz"]: the first algorithm is called with an
    empty list of estimates for each of its images. *)
Lemma no_box_found_trains_without_estimates_witness :
  ∃ g st' tr images store_in current_in store_out current_out,
    train_batch cfg2 (Some "zz") None [0; 1; 2]%nat None false trainer0
      = Ok g st' tr ∧
    warnings (events tr) = [NPerturbWarning 3 0] ∧
    n_perturbations st' = 0 ∧
    perturbed_images (events tr) = [] ∧
    head (stage_images (events tr)) = Some images ∧
    head (stage_shapes (events tr))
      = Some (store_in, current_in, store_out, current_out) ∧
    current_in = replicate (length images) [].
Proof.
  assert (keys_found
            (train_batch cfg2 (Some "zz") None [0; 1; 2]%nat None false trainer0)
          = Some [[]; []]) as Hkeys by (vm_compute; reflexivity).
  assert (reached_a_stage
            (train_batch cfg2 (Some "zz") None [0; 1; 2]%nat None false trainer0)
          = true) as Hok by (vm_compute; reflexivity).
  destruct (train_batch _ _ _ _ _ _ _) as [g st' tr|e] eqn:H; [|discriminate Hkeys].
  simpl in Hkeys. injection Hkeys as Hkeys.
  simpl in Hok. apply andb_prop in Hok as (Hi & Hs).
  apply bool_decide_eq_true in Hi as [images Hi].
  apply bool_decide_eq_true in Hs as [[[[si ci] so] co] Hs].
  assert (head (keys_calls (events tr)) = Some []) as Hhd
    by (rewrite Hkeys; reflexivity).
  destruct (no_box_found_trains_without_estimates _ _ _ _ _ _ _ _ _ _ H Hhd)
    as (Hw & Hn & Hp & Hest).
  exists g, st', tr, images, si, ci, so, co.
  split; [reflexivity|]. split; [exact Hw|]. split; [exact Hn|].
  split; [exact Hp|]. split; [exact Hi|]. split; [exact Hs|].
  exact (Hest _ _ _ _ _ Hi Hs).
Defined.

(** One ground truth box per image and 3 perturbations: two calls of the
    strategy for each of the rescaled images 3, 4 and 5. *)
Lemma one_box_is_perturbed_for_every_image_witness :
  ∃ g st' tr rescaled,
    train_batch cfg2 None None [0; 1; 2]%nat None false trainer0 = Ok g st' tr ∧
    ERescale [0; 1; 2]%nat rescaled ∈ events tr ∧
    perturbed_images (events tr) = rescaled ≫= replicate 2 ∧
    n_perturbations st' = 3 ∧
    warnings (events tr) = [].
Proof.
  assert (keys_found
            (train_batch cfg2 None None [0; 1; 2]%nat None false trainer0)
          = Some [["__gt_bb_0"]; ["__gt_bb_0"; "__gt_bb__1"; "__gt_bb__2"]])
    as Hkeys by (vm_compute; reflexivity).
  destruct (train_batch _ _ _ _ _ _ _) as [g st' tr|e] eqn:H; [|discriminate Hkeys].
  simpl in Hkeys. injection Hkeys as Hkeys.
  assert (head (keys_calls (events tr)) = Some ["__gt_bb_0"]) as Hhd
    by (rewrite Hkeys; reflexivity).
  destruct (one_box_is_perturbed_for_every_image _ _ _ _ _ _ _ _ _ _ _
              H Hhd eq_refl) as (rescaled & Hin & Himgs & Hn & Hw).
  exists g, st', tr, rescaled. split; [reflexivity|]. split; [exact Hin|].
  split; [exact Himgs|]. split; [exact Hn|exact Hw].
Defined.

(** The two calls of [keys_matching] of a batch of three images. *)
Lemma boxes_are_looked_up_on_the_first_image_witness :
  ∃ g st' tr rescaled i0 img keys1 keys2,
    train_batch cfg2 None None [0; 1; 2]%nat None false trainer0 = Ok g st' tr ∧
    ERescale [0; 1; 2]%nat rescaled ∈ events tr ∧
    head rescaled = Some i0 ∧
    keys_events (events tr)
      = [(i0, "*__gt_bb_*", keys1); (i0, "*__gt_bb_*", keys2)] ∧
    keys1 `prefix_of` keys2 ∧
    image_store st' !! i0 = Some img ∧
    keys2 = Landmarks.keys_matching glob_match "*__gt_bb_*" (landmarks img).
Proof.
  assert (succeeded
            (train_batch cfg2 None None [0; 1; 2]%nat None false trainer0)
          = true) as Hok by (vm_compute; reflexivity).
  destruct (train_batch _ _ _ _ _ _ _) as [g st' tr|e] eqn:H; [|discriminate Hok].
  destruct (boxes_are_looked_up_on_the_first_image _ _ _ _ _ _ _ _ _ _ H)
    as (rescaled & i0 & img & keys1 & keys2 & Hin & Hhd & Hev & Hpre & Himg & Hk2).
  exists g, st', tr, rescaled, i0, img, keys1, keys2.
  split; [reflexivity|]. split; [exact Hin|]. split; [exact Hhd|].
  split; [exact Hev|]. split; [exact Hpre|]. split; [exact Himg|exact Hk2].
Defined.

(** Two images that come with one bounding box each, under ["bb_0"], and
    ["bb"] as the bounding box group: the generated boxes go under ["bb_1"]
    and ["bb_2"], and the given box stays. *)
Lemma seed_box_is_kept_without_key_clash_witness :
  ∃ g st' tr,
    train_batch cfg2 (Some "bb") None [0; 1]%nat None false trainer_seeded
      = Ok g st' tr ∧
    ∀ s i gt_s bb p_s,
      (s, EPerturb i gt_s bb p_s) ∈ tr →
      landmark_of (image_store s) i "bb_0" = Some bb ∧
      ∀ i', landmark_of (image_store st') i' "bb_0"
            = landmark_of (image_store s) i' "bb_0".
Proof.
  assert (keys_found
            (train_batch cfg2 (Some "bb") None [0; 1]%nat None false
               trainer_seeded)
          = Some [["bb_0"]; ["bb_0"; "bb_1"; "bb_2"]])
    as Hkeys by (vm_compute; reflexivity).
  destruct (train_batch _ _ _ _ _ _ _) as [g st' tr|e] eqn:H; [|discriminate Hkeys].
  simpl in Hkeys. injection Hkeys as Hkeys.
  assert (head (keys_calls (events tr)) = Some ["bb_0"]) as Hhd
    by (rewrite Hkeys; reflexivity).
  exists g, st', tr. split; [reflexivity|].
  apply (seed_box_is_kept_without_key_clash _ _ _ _ _ _ _ _ _ _ _ H Hhd).
  intros j Hj. assert (j = 1 ∨ j = 2) as [-> | ->] by (simpl in Hj; lia);
    vm_compute; discriminate.
Defined.

(** The ground truth boxes of a batch of three images. *)
Lemma ground_truth_box_is_kept_witness :
  ∃ g st' tr rescaled,
    train_batch cfg2 None None [0; 1; 2]%nat None false trainer0 = Ok g st' tr ∧
    ERescale [0; 1; 2]%nat rescaled ∈ events tr ∧
    ∀ i, i ∈ rescaled →
      ∃ gt, landmark_of (image_store st') i g = Some gt ∧
            landmark_of (image_store st') i "__gt_bb_0" = Some (bbox gt).
Proof.
  assert (group_is "PTS"
            (train_batch cfg2 None None [0; 1; 2]%nat None false trainer0)
          = true) as Hg by (vm_compute; reflexivity).
  destruct (train_batch _ _ _ _ _ _ _) as [g st' tr|e] eqn:H; [|discriminate Hg].
  simpl in Hg. apply bool_decide_eq_true in Hg. subst g.
  assert ("PTS" ≠ "__gt_bb_0") as H1 by discriminate.
  assert (∀ j, "PTS" ≠ perturbed_key "__gt_bb_" j) as H2
    by (intros j; unfold perturbed_key; simpl; discriminate).
  destruct (ground_truth_box_is_kept _ _ _ _ _ _ _ _ _ H H1 H2)
    as (rescaled & Hin & Hall).
  exists "PTS", st', tr, rescaled. split; [reflexivity|].
  split; [exact Hin|exact Hall].
Defined.

(** The estimates the first algorithm is given in a batch of three images. *)
Lemma estimates_start_from_the_boxes_witness :
  ∃ g st' tr images store_in current_in store_out current_out keys rs,
    train_batch cfg2 None None [0; 1; 2]%nat None false trainer0 = Ok g st' tr ∧
    head (stage_images (events tr)) = Some images ∧
    head (stage_shapes (events tr))
      = Some (store_in, current_in, store_out, current_out) ∧
    last (keys_calls (events tr)) = Some keys ∧
    reference_shape st' = Some rs ∧
    Forall2 (λ (im : img) estimates,
               Forall2 (λ key r,
                          ∃ box, Landmarks.get key (landmarks im) = Some box ∧
                                 store_in !! r
                                 = Some (align_shape_with_bounding_box rs box))
                       keys estimates)
            images current_in ∧
    NoDup (concat current_in).
Proof.
  assert (reached_a_stage
            (train_batch cfg2 None None [0; 1; 2]%nat None false trainer0)
          = true) as Hok by (vm_compute; reflexivity).
  destruct (train_batch _ _ _ _ _ _ _) as [g st' tr|e] eqn:H; [|discriminate Hok].
  simpl in Hok. apply andb_prop in Hok as (Hi & Hs).
  apply bool_decide_eq_true in Hi as [images Hi].
  apply bool_decide_eq_true in Hs as [[[[si ci] so] co] Hs].
  destruct (estimates_start_from_the_boxes _ _ _ _ _ _ _ _ _ _ _ _ _ _ _
              H Hi Hs) as (keys & rs & Hk & Hrs & Hall & Hnd).
  exists g, st', tr, images, si, ci, so, co, keys, rs.
  split; [reflexivity|]. split; [exact Hi|]. split; [exact Hs|].
  split; [exact Hk|]. split; [exact Hrs|]. split; [exact Hall|exact Hnd].
Defined.

(** No image at all, on a fitter that holds a reference shape. *)
Lemma training_on_no_image_is_an_IndexError_witness :
  _train cfg2 [] (Some "PTS") None false None trainer_half_seeded
    = Raise IndexError.
Proof.
  apply (training_on_no_image_is_an_IndexError cfg2 (Some "PTS") None false
           trainer_half_seeded).
  - intros store g rs. reflexivity.
  - right. eexists. reflexivity.
Defined.

(** The first image comes with a bounding box under ["bb_0"], the second
    with none. *)
Lemma every_image_needs_the_seed_box_witness :
  train_batch cfg2 (Some "bb") None [0; 1]%nat (Some "PTS") false
    trainer_half_seeded = Raise KeyError.
Proof.
  apply (every_image_needs_the_seed_box cfg2 "bb" None [0; 1]%nat "PTS" false
           trainer_half_seeded (points 0) _ _ 2%nat
           (mkImage (Rescaled (Raw 0)) (landmarks (seeded_face 0 0))) "bb_0"
           eq_refl eq_refl).
  - repeat constructor; eexists; reflexivity.
  - reflexivity.
  - reflexivity.
  - vm_compute. reflexivity.
  - simpl. lia.
  - right. left. reflexivity.
Defined.

(** The calls of the algorithms of a batch of three images. *)
Lemma stage_gets_images_ground_truth_and_estimates_witness :
  ∃ g st' tr,
    train_batch cfg2 None None [0; 1; 2]%nat None false trainer0 = Ok g st' tr ∧
    Forall (stage_call_ok g false (algorithms trainer0) (algorithms st'))
           (events tr).
Proof.
  assert (succeeded
            (train_batch cfg2 None None [0; 1; 2]%nat None false trainer0)
          = true) as Hok by (vm_compute; reflexivity).
  destruct (train_batch _ _ _ _ _ _ _) as [g st' tr|e] eqn:H; [|discriminate Hok].
  exists g, st', tr. split; [reflexivity|].
  exact (stage_gets_images_ground_truth_and_estimates _ _ _ _ _ _ _ _ _ _ H).
Defined.

(** Three images in batches of two, without a group: the ground truth boxes
    of both batches are made from the group found on the first image. *)
Lemma group_is_settled_on_the_first_batch_witness :
  ∃ u st' tr g,
    _train cfg2 [0; 1; 2]%nat None None false (Some 2%nat) trainer0
      = Ok u st' tr ∧
    (∃ i im, head [0; 1]%nat = Some i ∧ image_store trainer0 !! i = Some im ∧
             head (Landmarks.group_labels (landmarks im)) = Some g) ∧
    ∀ s i v, (s, EAttach i "__gt_bb_0" v) ∈ tr →
      ∃ gt, landmark_of (image_store s) i g = Some gt ∧ v = bbox gt.
Proof.
  assert (succeeded
            (_train cfg2 [0; 1; 2]%nat None None false (Some 2%nat) trainer0)
          = true) as Hok by (vm_compute; reflexivity).
  destruct (_train _ _ _ _ _ _ _) as [u st' tr|e] eqn:H; [|discriminate Hok].
  destruct (group_is_settled_on_the_first_batch _ _ _ _ _ _ _ _ _
              [0; 1]%nat [[2%nat]] H eq_refl) as (g & Hg & Hall).
  exists u, st', tr, g. split; [reflexivity|]. split; [exact Hg|exact Hall].
Defined.

(** ** One batch of all images against batches of one image, on concrete runs *)


